(** * HashMap.hpp: a shallow embedding of the bucketed hash table

    The container of [HashMap.hpp] (class template [HashMap<KeyT, ValueT>]
    with its nested [const_iterator]) is embedded as pure functions over a
    record that mirrors the three data members of the class.

    Modelling conventions.
    - [int] values are integers of [Z]; every arithmetic step that the
      source performs on an [int] is passed through [wrap_int], the 32-bit
      two's complement wrap of the compiled program.  The [size_t] operands
      of the bit-wise [&] in [_hash] are reduced with [to_size_t].
    - A [Bucket] ([std::vector<std::pair<KeyT, ValueT>>]) is a list of
      pairs; the heap array [_hashTable] is a list of buckets.  An access
      outside the array (undefined in C++) reads the empty bucket and an
      update outside it changes nothing; [wf_hash_range] shows that a
      well-formed table never makes such an access.
    - [getLoadFactor] divides an [int] by an [int] in [double].  Both are
      below 2^31 and the thresholds 1/4 and 3/4 are exact binary fractions,
      so the comparison of the rounded quotient with a threshold agrees
      with the comparison of the exact quotient; the quotient is a [Q].
    - A thrown exception is the [Throw] result.  [insert] and
      [_resizeTable] call each other (the rehash inserts into a larger
      table, which may itself grow), so they carry a recursion budget and
      return [None] when it is exhausted; the iterator loops carry an
      iteration budget in the same way.  The theorems show that the budget
      is never exhausted on a well-formed table. *)

From Stdlib Require Import ZArith QArith Lia.
From stdpp Require Import base option list strings gmap.

Local Open Scope Z_scope.

(** ** Constants of HashMap.hpp *)

Definition LOWER_LOAD_FACTOR : Q := 1 # 4.
Definition UPPER_LOAD_FACTOR : Q := 3 # 4.
Definition INIT_CAPACITY : Z := 16.
Definition MIN_CAPACITY : Z := 1.
Definition TABLE_SIZE_FACTOR : Z := 2.
Definition NO_ELEMS : Z := 0.
Definition FIRST_BUCKET : Z := 0.

(** ** Machine integers *)

Definition INT_MAX : Z := 2 ^ 31 - 1.

(** The value an [int] holds after an arithmetic result [z]. *)
Definition wrap_int (z : Z) : Z := (z + 2 ^ 31) `mod` 2 ^ 32 - 2 ^ 31.

(** Conversion to the 64-bit unsigned [size_t]. *)
Definition to_size_t (z : Z) : Z := z `mod` 2 ^ 64.

(** ** Exceptions *)

Inductive exn : Type :=
  | out_of_range      (* KEY_NOT_FOUND_MSG *)
  | invalid_argument. (* MISMATCH_INPUT_LEN_MSG *)

Inductive result (A : Type) : Type :=
  | Ok (a : A)
  | Throw (e : exn).
Arguments Ok {A} a.
Arguments Throw {A} e.

(** [x > y] on load factors. *)
Definition Qgtb (x y : Q) : bool := negb (Qle_bool x y).
(** [x < y] on load factors. *)
Definition Qltb (x y : Q) : bool := negb (Qle_bool y x).

Section HashMap.

Context {KeyT ValueT : Type} `{EqDecision KeyT}.
(** [std::hash<KeyT>()], an arbitrary function of the key. *)
Context (std_hash : KeyT → Z).
(** [ValueT()], the default-constructed value. *)
Context (ValueT_default : ValueT).

(** The element type [std::pair<KeyT, ValueT>] and the bucket type
    [vector<_pair>]. *)
Abbreviation _pair := (KeyT * ValueT)%type (only parsing).
Abbreviation Bucket := (list (KeyT * ValueT)) (only parsing).

(** The reference [elem] of the source designates the pair stored at
    position [idxInBucket] of the bucket of its key; [elem] holds the pair
    read through it. *)
Record ElemMeta : Type := mkElemMeta {
  elem : _pair;
  idxInBucket : nat
}.

Record HashMap : Type := mkHashMap {
  _nElements : Z;
  _capacity : Z;
  _hashTable : list Bucket
}.

Definition size (m : HashMap) : Z := _nElements m.
Definition capacity (m : HashMap) : Z := _capacity m.
Definition empty (m : HashMap) : bool := _nElements m =? 0.

(** [_hashTable[i]] *)
Definition bucket_at (m : HashMap) (i : Z) : Bucket :=
  default [] (_hashTable m !! Z.to_nat i).

(** [std::hash<KeyT>()(key) & (capacity() - 1)], returned as [int]. *)
Definition _hash (m : HashMap) (key : KeyT) : Z :=
  wrap_int (Z.land (to_size_t (std_hash key))
                   (to_size_t (wrap_int (capacity m - 1)))).

(** The loop of [_getPairByKey] over one bucket, from index [i] on. *)
Fixpoint _scanBucket (b : Bucket) (key : KeyT) (i : nat) : result ElemMeta :=
  match b with
  | [] => Throw out_of_range
  | p :: b' =>
      if decide (p.1 = key) then Ok (mkElemMeta p i)
      else _scanBucket b' key (S i)
  end.

(** The loop runs while [i < (int)b.size()]. *)
Definition _getPairByKey (m : HashMap) (key : KeyT) : result ElemMeta :=
  let b := bucket_at m (_hash m key) in
  _scanBucket (take (Z.to_nat (wrap_int (Z.of_nat (length b)))) b) key 0.

(** The private constructor [HashMap(const int capacity)]. *)
Definition HashMap_new (cap : Z) : HashMap :=
  mkHashMap NO_ELEMS cap (replicate (Z.to_nat cap) []).

(** The default constructor. *)
Definition HashMap_default : HashMap := HashMap_new INIT_CAPACITY.

Definition containsKey (m : HashMap) (key : KeyT) : bool :=
  match _getPairByKey m key with
  | Ok _ => true
  | Throw _ => false
  end.

Definition at_ (m : HashMap) (key : KeyT) : result ValueT :=
  match _getPairByKey m key with
  | Ok em => Ok (elem em).2
  | Throw e => Throw e
  end.

Definition getLoadFactor (m : HashMap) : Q :=
  (inject_Z (size m) / inject_Z (capacity m))%Q.

Definition bucketIndex (m : HashMap) (key : KeyT) : result Z :=
  if negb (containsKey m key) then Throw out_of_range
  else Ok (_hash m key).

Definition bucketSize (m : HashMap) (key : KeyT) : result Z :=
  match bucketIndex m key with
  | Ok i => Ok (Z.of_nat (length (bucket_at m i)))
  | Throw e => Throw e
  end.

(** [clear]: the loop [for (i = 0; i < capacity(); ++i) _hashTable[i].clear()]. *)
Definition clear (m : HashMap) : HashMap :=
  mkHashMap 0 (_capacity m)
    (foldl (λ t i, <[i := []]> t) (_hashTable m)
           (seq 0 (Z.to_nat (capacity m)))).

(** *** The const_iterator

    [_bucketPtr] is always the address of [_map._hashTable[_currBucket]]
    when a member function returns, so it is not a field of the model.
    [_pairPtr] points into that bucket and is kept as the offset from the
    start of the bucket; two iterators of one table compare equal when
    they designate the same position. *)
Record const_iterator : Type := mkIter {
  _currBucket : Z;
  _pairPtr : nat
}.

Definition _setEnd (m : HashMap) : const_iterator :=
  let last := wrap_int (capacity m - 1) in
  mkIter last (length (bucket_at m last)).

(** The body of the loop of [_nextBucket], with [n] iterations left. *)
Fixpoint _nextBucket_from (m : HashMap) (n : nat) (i : Z) : const_iterator :=
  match n with
  | O => _setEnd m
  | S n' =>
      match bucket_at m i with
      | [] => _nextBucket_from m n' (wrap_int (i + 1))
      | _ :: _ => mkIter i 0
      end
  end.

Definition _nextBucket (m : HashMap) (it : const_iterator) : const_iterator :=
  let i := wrap_int (_currBucket it + 1) in
  _nextBucket_from m (Z.to_nat (capacity m - i)) i.

Definition _nextPair (m : HashMap) (it : const_iterator) : const_iterator :=
  let p := S (_pairPtr it) in
  if (p =? length (bucket_at m (_currBucket it)))%nat
  then _nextBucket m (mkIter (_currBucket it) p)
  else mkIter (_currBucket it) p.

(** [const_iterator(map, startFromBucket)] *)
Definition const_iterator_new (m : HashMap) (startFromBucket : Z)
  : const_iterator :=
  let it := mkIter (wrap_int (startFromBucket - 1)) 0 in
  if negb (empty m) then _nextBucket m it else _setEnd m.

Definition cbegin (m : HashMap) : const_iterator := const_iterator_new m 0.
Definition cend (m : HashMap) : const_iterator :=
  const_iterator_new m (capacity m).
Definition begin_ (m : HashMap) : const_iterator := const_iterator_new m 0.
Definition end_ (m : HashMap) : const_iterator :=
  const_iterator_new m (capacity m).

(** [operator*]; [None] when the position holds no pair. *)
Definition deref (m : HashMap) (it : const_iterator) : option _pair :=
  bucket_at m (_currBucket it) !! _pairPtr it.

(** [operator==] of the iterator. *)
Definition iter_eqb (a b : const_iterator) : bool :=
  (_currBucket a =? _currBucket b) && (_pairPtr a =? _pairPtr b)%nat.

(** [for (auto it = start; it != cend(); ++it) acc = body(acc, *it)] *)
Fixpoint for_each {A : Type} (budget : nat) (m : HashMap)
    (it : const_iterator) (body : A → _pair → option A) (acc : A)
  : option A :=
  match budget with
  | O => None
  | S budget' =>
      if iter_eqb it (cend m) then Some acc
      else
        p ← deref m it;
        acc' ← body acc p;
        for_each budget' m (_nextPair m it) body acc'
  end.

(** The value of such a loop when the pairs it visits are those of [l]. *)
Fixpoint foldM {A B : Type} (body : A → B → option A) (acc : A) (l : list B)
  : option A :=
  match l with
  | [] => Some acc
  | p :: l' => acc' ← body acc p; foldM body acc' l'
  end.

(** The pairs stored in the bucket array, bucket after bucket. *)
Definition entries (m : HashMap) : list _pair := concat (_hashTable m).

(** One more than the number of stored pairs: the iteration budget of a
    loop from [cbegin] to [cend]. *)
Definition iteration_budget (m : HashMap) : nat := S (length (entries m)).

(** The sequence of pairs a loop from [begin()] to [end()] visits. *)
Definition iterate (m : HashMap) : option (list _pair) :=
  for_each (iteration_budget m) m (begin_ m)
    (λ acc p, Some (acc ++ [p])) [].

(** *** insert, _resizeTable, erase *)

(** [_nElements++] and [_hashTable[_hash(key)].push_back({key, value})]. *)
Definition push_back (m : HashMap) (key : KeyT) (value : ValueT) : HashMap :=
  mkHashMap (wrap_int (_nElements m + 1)) (_capacity m)
    (alter (λ b, b ++ [(key, value)]) (Z.to_nat (_hash m key)) (_hashTable m)).

(** [_resizeTable], given the [insert] it calls on the new table.
    [*this = std::move(resized)] makes [resized] the value of the table
    (module [Ownership] below follows the bucket arrays through it). *)
Definition _resizeTable_with
    (ins : HashMap → KeyT → ValueT → option (bool * HashMap))
    (m : HashMap) (newSize : Z) : option HashMap :=
  if (size m <=? newSize) && (newSize >=? MIN_CAPACITY) then
    for_each (iteration_budget m) m (cbegin m)
      (λ resized p, snd <$> ins resized p.1 p.2)
      (HashMap_new newSize)
  else Some m.

Fixpoint insert (depth : nat) (m : HashMap) (key : KeyT) (value : ValueT)
  : option (bool * HashMap) :=
  match depth with
  | O => None
  | S depth' =>
      if containsKey m key then Some (false, m)
      else
        let m1 := push_back m key value in
        if Qgtb (getLoadFactor m1) UPPER_LOAD_FACTOR then
          m2 ← _resizeTable_with (insert depth') m1
                 (wrap_int (capacity m1 * TABLE_SIZE_FACTOR));
          Some (true, m2)
        else Some (true, m1)
  end.

Definition _resizeTable (depth : nat) (m : HashMap) (newSize : Z)
  : option HashMap :=
  _resizeTable_with (insert depth) m newSize.

(** The two updates of [erase] before the load factor is looked at. *)
Definition remove_at (m : HashMap) (bucketIdx : Z) (idx : nat) : HashMap :=
  mkHashMap (wrap_int (_nElements m - 1)) (_capacity m)
    (alter (delete idx) (Z.to_nat bucketIdx) (_hashTable m)).

Definition erase (depth : nat) (m : HashMap) (key : KeyT)
  : option (bool * HashMap) :=
  let bucketIdx := _hash m key in
  match _getPairByKey m key with
  | Throw _ => Some (false, m)
  | Ok em =>
      let m1 := remove_at m bucketIdx (idxInBucket em) in
      if Qltb (getLoadFactor m1) LOWER_LOAD_FACTOR then
        m2 ← _resizeTable depth m1
               (wrap_int (Z.quot (capacity m1) TABLE_SIZE_FACTOR));
        Some (true, m2)
      else Some (true, m1)
  end.

(** *** operator[] *)

(** The non-const [operator[]]: the table afterwards and the element the
    returned reference designates.  An exception of the second lookup
    would leave a [noexcept] function; there is no result then. *)
Definition index (depth : nat) (m : HashMap) (key : KeyT)
  : option (HashMap * ElemMeta) :=
  match _getPairByKey m key with
  | Ok em => Some (m, em)
  | Throw _ =>
      r ← insert depth m key ValueT_default;
      match _getPairByKey r.2 key with
      | Ok em => Some (r.2, em)
      | Throw _ => None
      end
  end.

(** The const [operator[]]: [cbegin()->second] when the key is not found;
    [None] when [cbegin()] designates no pair. *)
Definition index_const (m : HashMap) (key : KeyT) : option ValueT :=
  match _getPairByKey m key with
  | Ok em => Some (elem em).2
  | Throw _ => snd <$> deref m (cbegin m)
  end.

(** Assignment through the reference returned by [operator[]] for [key]. *)
Definition assign_through (m : HashMap) (key : KeyT) (em : ElemMeta)
    (value : ValueT) : HashMap :=
  mkHashMap (_nElements m) (_capacity m)
    (alter (alter (λ p, (p.1, value)) (idxInBucket em))
           (Z.to_nat (_hash m key)) (_hashTable m)).

(** The loop of the bulk constructor: [operator[]] on [keys[i]], then
    assignment of [values[i]] through the returned reference. *)
Fixpoint fill (depth : nat) (m : HashMap) (keys : list KeyT)
    (values : list ValueT) : option HashMap :=
  match keys, values with
  | k :: keys', v :: values' =>
      r ← index depth m k;
      fill depth (assign_through r.1 k r.2 v) keys' values'
  | _, _ => Some m
  end.

(** [HashMap(const vector<KeyT>&, const vector<ValueT>&)].  The loop runs
    while [i < (int)keys.size()], that is over the first [n] keys for [n]
    the size converted to [int]. *)
Definition HashMap_from_vectors (depth : nat) (keys : list KeyT)
    (values : list ValueT) : option (result HashMap) :=
  let m := HashMap_new INIT_CAPACITY in
  if bool_decide (length keys ≠ length values) then Some (Throw invalid_argument)
  else
    let n := Z.to_nat (wrap_int (Z.of_nat (length keys))) in
    Ok <$> fill depth m (take n keys) (take n values).

(** *** Predicates on tables *)

(** A capacity the class can hold: a power of two that fits an [int]. *)
Definition pow2_capacity (c : Z) : Prop := ∃ e : Z, 0 ≤ e ≤ 30 ∧ c = 2 ^ e.

(** The representation invariant of the class: the capacity is a power of
    two, the array has [capacity] buckets, [_nElements] counts the stored
    pairs (and is an [int]), every pair sits in the bucket of its key, and
    no key is stored twice. *)
Record wf (m : HashMap) : Prop := mkWf {
  wf_capacity : pow2_capacity (capacity m);
  wf_length : length (_hashTable m) = Z.to_nat (capacity m);
  wf_size : size m = Z.of_nat (length (entries m));
  wf_size_int : size m ≤ INT_MAX;
  wf_route : ∀ (i : nat) (b : Bucket) (p : _pair),
    _hashTable m !! i = Some b → p ∈ b → _hash m p.1 = Z.of_nat i;
  wf_nodup : NoDup (entries m).*1
}.

(** A well-formed table whose load factor does not exceed the upper
    bound: the state every public operation starts from and returns to. *)
Definition Inv (m : HashMap) : Prop :=
  wf m ∧ 4 * size m ≤ 3 * capacity m.

(** The pairs an iterator at offset [j] of bucket [i] has yet to visit. *)
Definition remaining (m : HashMap) (i : Z) (j : nat)
  : list (KeyT * ValueT) :=
  drop j (bucket_at m i) ++ concat (drop (S (Z.to_nat i)) (_hashTable m)).

(** The capacity after inserting a new key into a table of capacity [c]
    that holds [n] pairs. *)
Definition capacity_after_insert (n c : Z) : Z :=
  if (3 * c <? 4 * (n + 1)) && (c <? 2 ^ 30) then c * 2 else c.

(** The capacity after erasing a key from a table of capacity [c] that
    holds [n] pairs. *)
Definition capacity_after_erase (n c : Z) : Z :=
  if (4 * (n - 1) <? c) && (2 <=? c) then c `quot` 2 else c.

(** *** Sequences of calls *)

(** [insert] called on each pair of [kvs] in turn. *)
Definition insert_all (depth : nat) (m : HashMap) (kvs : list (KeyT * ValueT))
  : option HashMap :=
  foldM (λ m' p, snd <$> insert depth m' p.1 p.2) m kvs.

(** The mutating calls of the public interface. *)
Inductive operation : Type :=
  | op_insert (key : KeyT) (value : ValueT)
  | op_erase (key : KeyT)
  | op_clear.

Definition apply_op (depth : nat) (m : HashMap) (op : operation)
  : option HashMap :=
  match op with
  | op_insert key value => snd <$> insert depth m key value
  | op_erase key => snd <$> erase depth m key
  | op_clear => Some (clear m)
  end.

Definition run (depth : nat) (m : HashMap) (ops : list operation)
  : option HashMap :=
  foldM (apply_op depth) m ops.

(** The value that the last occurrence of [k] in [keys] is paired with in
    [values], the reference for the bulk constructor. *)
Fixpoint last_value (keys : list KeyT) (values : list ValueT) (k : KeyT)
  : option ValueT :=
  match keys, values with
  | k' :: keys', v :: values' =>
      match last_value keys' values' k with
      | Some w => Some w
      | None => if decide (k' = k) then Some v else None
      end
  | _, _ => None
  end.

(** *** Ownership of the bucket array

    The class holds its buckets in a heap array ([new Bucket[n]]) through
    the pointer [_hashTable].  To follow ownership through the move
    constructor, the destructor and [operator=], an object is the triple
    of its members with the pointer kept as an address ([None] is
    [nullptr]), and the heap maps the address of every live array to its
    contents. *)

Abbreviation address := positive (only parsing).
Abbreviation Heap := (gmap positive (list (list (KeyT * ValueT)))) (only parsing).

Record object : Type := mkObject {
  obj_nElements : Z;
  obj_capacity : Z;
  obj_hashTable : option address
}.

Definition obj_size (o : object) : Z := obj_nElements o.
Definition obj_capacity_ (o : object) : Z := obj_capacity o.
Definition obj_empty (o : object) : bool := obj_nElements o =? 0.

(** [HashMap(HashMap && other)]: the new object and [other] afterwards. *)
Definition move_ctor (other : object) : object * object :=
  let hashTable := obj_hashTable other in
  let other' := mkObject (obj_nElements other) (obj_capacity other) None in
  (mkObject (obj_size other') (obj_capacity_ other') hashTable, other').

(** [~HashMap()]: [delete[] _hashTable].  Deleting the null pointer does
    nothing; deleting an address that holds no live array has no result. *)
Definition destructor (h : Heap) (o : object) : option Heap :=
  match obj_hashTable o with
  | None => Some h
  | Some a =>
      match h !! a with
      | Some _ => Some (delete a h)
      | None => None
      end
  end.

(** [_swap(first, second)] *)
Definition _swap (first second : object) : object * object := (second, first).

(** [*this = std::move(resized)]: the parameter [other] of [operator=] is
    move-constructed from [resized], swapped with [*this] and destroyed
    when [operator=] returns.  The result is the heap, [*this] and
    [resized] afterwards. *)
Definition move_assign (h : Heap) (this resized : object)
  : option (Heap * object * object) :=
  let '(other, resized') := move_ctor resized in
  let '(this', other') := _swap this other in
  h' ← destructor h other';
  Some (h', this', resized').

(** The table an object denotes: its members, with the array its pointer
    designates; [None] when the pointer is null or dangling. *)
Definition view (h : Heap) (o : object) : option HashMap :=
  a ← obj_hashTable o;
  t ← h !! a;
  Some (mkHashMap (obj_nElements o) (obj_capacity o) t).

(** *** operator== and operator!= *)

Section equality.

(** [ValueT]'s [operator!=], taken to be the negation of equality. *)
Context `{EqDecision ValueT}.

(** The loop of [operator==] from the iterator [it] of [other] on: the
    first pair of [other] whose key [this] lacks (the exception is caught)
    or maps to another value ends it with [false]. *)
Fixpoint equals_loop (budget : nat) (this other : HashMap)
    (it : const_iterator) : option bool :=
  match budget with
  | O => None
  | S budget' =>
      if iter_eqb it (cend other) then Some true
      else
        p ← deref other it;
        match _getPairByKey this p.1 with
        | Ok em =>
            if decide ((elem em).2 ≠ p.2) then Some false
            else equals_loop budget' this other (_nextPair other it)
        | Throw _ => Some false
        end
  end.

(** [operator==] *)
Definition equals (this other : HashMap) : option bool :=
  if size this =? size other then
    equals_loop (iteration_budget other) this other (cbegin other)
  else Some false.

(** [operator!=] *)
Definition not_equals (this other : HashMap) : option bool :=
  negb <$> equals this other.

(** [this] stores for the key of [p] the value of [p]: the test that
    [operator==] makes on one pair of [other]. *)
Definition agrees (this : HashMap) (p : KeyT * ValueT) : bool :=
  match _getPairByKey this p.1 with
  | Ok em => bool_decide ((elem em).2 = p.2)
  | Throw _ => false
  end.

End equality.

(** The value that the first occurrence of [k] in [kvs] is paired with,
    the reference for a sequence of [insert] calls. *)
Fixpoint first_value (kvs : list (KeyT * ValueT)) (k : KeyT)
  : option ValueT :=
  match kvs with
  | [] => None
  | p :: kvs' => if decide (p.1 = k) then Some p.2 else first_value kvs' k
  end.

(** *** The copy constructor and copy assignment *)

(** The loop of the copy constructor over a new array of [cap] buckets:
    [_hashTable[i] = other._hashTable[i]] for every [i] below [cap]. *)
Definition copy_buckets (cap : Z) (src : list (list (KeyT * ValueT)))
  : list (list (KeyT * ValueT)) :=
  foldl (λ arr i, <[i := default [] (src !! i)]> arr)
        (replicate (Z.to_nat cap) []) (seq 0 (Z.to_nat cap)).

(** [HashMap(const HashMap &other)], with [a] the address of the array
    that [new Bucket[other.capacity()]] returns.  There is no result when
    the pointer of [other] is null or dangling. *)
Definition copy_ctor (a : address) (h : Heap) (other : object)
  : option (Heap * object) :=
  b ← obj_hashTable other;
  src ← h !! b;
  Some (<[a := copy_buckets (obj_capacity_ other) src]> h,
        mkObject (obj_size other) (obj_capacity_ other) (Some a)).

(** [*this = rhs] for an lvalue [rhs]: the parameter [other] of
    [operator=] is copy-constructed from [rhs] (its array at [a]), swapped
    with [*this] and destroyed.  The result is the heap and [*this]
    afterwards. *)
Definition copy_assign (a : address) (h : Heap) (this rhs : object)
  : option (Heap * object) :=
  c ← copy_ctor a h rhs;
  let '(this', other') := _swap this c.2 in
  h' ← destructor c.1 other';
  Some (h', this').

(** ** Machine arithmetic *)

Lemma wrap_int_id (z : Z) : - 2 ^ 31 ≤ z < 2 ^ 31 → wrap_int z = z.
Proof.
  intros Hz. unfold wrap_int.
  rewrite Z.mod_small by lia. lia.
Qed.

Lemma to_size_t_id (z : Z) : 0 ≤ z < 2 ^ 64 → to_size_t z = z.
Proof. intros Hz. unfold to_size_t. by rewrite Z.mod_small. Qed.

Lemma to_size_t_range (z : Z) : 0 ≤ to_size_t z < 2 ^ 64.
Proof. unfold to_size_t. apply Z.mod_pos_bound. lia. Qed.

Lemma pow2_capacity_range (c : Z) : pow2_capacity c → 1 ≤ c ≤ 2 ^ 30.
Proof.
  intros (e & He & ->). split.
  - assert (0 < 2 ^ e) by (apply Z.pow_pos_nonneg; lia). lia.
  - apply Z.pow_le_mono_r; lia.
Qed.

Lemma pow2_capacity_double (c : Z) :
  pow2_capacity c → c < 2 ^ 30 → pow2_capacity (c * 2).
Proof.
  intros (e & He & ->) Hlt.
  assert (e < 30) by (apply (Z.pow_lt_mono_r_iff 2); lia).
  exists (e + 1). split; [lia|].
  rewrite Z.pow_add_r by lia. lia.
Qed.

Lemma pow2_capacity_half (c : Z) :
  pow2_capacity c → 2 ≤ c → pow2_capacity (c `quot` 2) ∧ c = 2 * (c `quot` 2).
Proof.
  intros (e & He & ->) Hge.
  assert (e ≠ 0) by (intros ->; simpl in Hge; lia).
  assert (Heq : 2 ^ e = 2 * 2 ^ (e - 1)).
  { rewrite <- Z.pow_succ_r by lia. f_equal. lia. }
  assert (Hq : (2 ^ e) `quot` 2 = 2 ^ (e - 1)).
  { rewrite Heq. rewrite Z.mul_comm. apply Z.quot_mul. lia. }
  rewrite Hq. split; [|done].
  exists (e - 1). split; [lia|done].
Qed.

(** ** Load factor comparisons, in integers *)

Lemma Qgtb_upper (n c : Z) :
  0 < c →
  Qgtb (inject_Z n / inject_Z c) UPPER_LOAD_FACTOR = (3 * c <? 4 * n).
Proof.
  intros Hc. destruct c as [|p|p]; try lia.
  unfold Qgtb, UPPER_LOAD_FACTOR, Qle_bool, Qdiv, Qmult, Qinv.
  cbn [Qnum Qden inject_Z]. rewrite <- Z.ltb_antisym.
  rewrite Pos.mul_1_l, Z.mul_1_r.
  destruct (Z.ltb_spec (3 * Z.pos p) (4 * n)); [apply Z.ltb_lt|apply Z.ltb_ge]; lia.
Qed.

Lemma Qltb_lower (n c : Z) :
  0 < c →
  Qltb (inject_Z n / inject_Z c) LOWER_LOAD_FACTOR = (4 * n <? c).
Proof.
  intros Hc. destruct c as [|p|p]; try lia.
  unfold Qltb, LOWER_LOAD_FACTOR, Qle_bool, Qdiv, Qmult, Qinv.
  cbn [Qnum Qden inject_Z]. rewrite <- Z.ltb_antisym.
  rewrite Pos.mul_1_l, Z.mul_1_r.
  destruct (Z.ltb_spec (4 * n) (Z.pos p)); [apply Z.ltb_lt|apply Z.ltb_ge]; lia.
Qed.

Lemma Qle_upper (n c : Z) :
  0 < c → 4 * n ≤ 3 * c → (inject_Z n / inject_Z c <= UPPER_LOAD_FACTOR)%Q.
Proof.
  intros Hc Hle. apply Qle_bool_iff.
  pose proof (Qgtb_upper n c Hc) as H. unfold Qgtb in H.
  destruct (Qle_bool _ _); [done|].
  simpl in H. symmetry in H. apply Z.ltb_lt in H. lia.
Qed.

(** ** Lists of buckets *)

Lemma concat_alter_split {A : Type} (f : list A → list A) (i : nat)
    (t : list (list A)) (b : list A) :
  t !! i = Some b →
  concat t = concat (take i t) ++ b ++ concat (drop (S i) t) ∧
  concat (alter f i t) = concat (take i t) ++ f b ++ concat (drop (S i) t).
Proof.
  revert i. induction t as [|x t IH]; intros [|i] Hi; simplify_eq/=.
  - by rewrite drop_0.
  - destruct (IH i Hi) as [E1 E2].
    rewrite E2, <- !(assoc_L (++)). split; [|done].
    rewrite E1 at 1. done.
Qed.

Lemma concat_lookup_elem {A : Type} (t : list (list A)) (x : A) :
  x ∈ concat t ↔ ∃ i b, t !! i = Some b ∧ x ∈ b.
Proof.
  induction t as [|b0 t IH]; simpl.
  - split; [by intros ?%elem_of_nil|by intros (i & b & ? & _)].
  - rewrite elem_of_app, IH. split.
    + intros [Hx|(i & b & Hi & Hx)]; [by exists 0%nat, b0|by exists (S i), b].
    + intros ([|i] & b & Hi & Hx); simplify_eq/=; [by left|right; eauto].
Qed.

Lemma concat_replicate_nil {A : Type} (n : nat) :
  concat (replicate n ([] : list A)) = [].
Proof. induction n; simpl; auto. Qed.

(** ** Well-formed tables *)

Lemma hash_mod (m : HashMap) (key : KeyT) :
  pow2_capacity (capacity m) →
  _hash m key = to_size_t (std_hash key) `mod` capacity m.
Proof.
  intros Hc. pose proof (pow2_capacity_range _ Hc) as Hr.
  destruct Hc as (e & He & Hce). unfold _hash.
  pose proof (to_size_t_range (std_hash key)) as Hh.
  rewrite (wrap_int_id (capacity m - 1)) by lia.
  rewrite (to_size_t_id (capacity m - 1)) by lia.
  rewrite Hce. replace (2 ^ e - 1) with (Z.ones e)
    by (rewrite Z.ones_equiv; lia).
  rewrite Z.land_ones by lia.
  apply wrap_int_id.
  pose proof (Z.mod_pos_bound (to_size_t (std_hash key)) (2 ^ e)) as Hb.
  rewrite <- Hce in *. lia.
Qed.

Lemma wf_hash_range (m : HashMap) (key : KeyT) :
  wf m → 0 ≤ _hash m key < capacity m.
Proof.
  intros Hwf. rewrite hash_mod by apply Hwf.
  apply Z.mod_pos_bound.
  pose proof (pow2_capacity_range _ (wf_capacity _ Hwf)). lia.
Qed.

Lemma wf_bucket_lookup (m : HashMap) (key : KeyT) :
  wf m →
  _hashTable m !! Z.to_nat (_hash m key) = Some (bucket_at m (_hash m key)).
Proof.
  intros Hwf. pose proof (wf_hash_range m key Hwf) as Hr.
  unfold bucket_at.
  destruct (_hashTable m !! Z.to_nat (_hash m key)) eqn:E; [done|].
  apply lookup_ge_None in E. rewrite (wf_length _ Hwf) in E. lia.
Qed.

Lemma hash_capacity_eq (m m' : HashMap) (key : KeyT) :
  capacity m = capacity m' → _hash m key = _hash m' key.
Proof. unfold _hash. by intros ->. Qed.

(** ** The bucket scan of [_getPairByKey] *)

Lemma scan_Throw (b : Bucket) (key : KeyT) (i : nat) (e : exn) :
  _scanBucket b key i = Throw e → e = out_of_range ∧ key ∉ b.*1.
Proof.
  revert i. induction b as [|p b IH]; intros i H; simpl in *.
  - split; [congruence|]. apply not_elem_of_nil.
  - destruct (decide (p.1 = key)); [done|].
    destruct (IH _ H) as [-> Hn]. split; [done|].
    apply not_elem_of_cons. done.
Qed.

Lemma scan_Ok (b : Bucket) (key : KeyT) (i : nat) (em : ElemMeta) :
  _scanBucket b key i = Ok em →
  (elem em).1 = key ∧ (i ≤ idxInBucket em)%nat ∧
  b !! (idxInBucket em - i)%nat = Some (elem em) ∧
  key ∉ (take (idxInBucket em - i) b).*1.
Proof.
  revert i. induction b as [|p b IH]; intros i H; simpl in *; [done|].
  destruct (decide (p.1 = key)) as [Hk|Hk].
  - simplify_eq/=. rewrite Nat.sub_diag. simpl.
    split_and!; [done|lia|done|apply not_elem_of_nil].
  - destruct (IH _ H) as (E1 & E2 & E3 & E4).
    replace (idxInBucket em - i)%nat with (S (idxInBucket em - S i)) by lia.
    simpl. split_and!; [done|lia|done|].
    apply not_elem_of_cons. done.
Qed.

Lemma scan_elem (b : Bucket) (key : KeyT) (i : nat) :
  key ∈ b.*1 → ∃ em, _scanBucket b key i = Ok em.
Proof.
  intros Hin. destruct (_scanBucket b key i) as [em|e] eqn:E; [eauto|].
  by apply scan_Throw in E as [_ ?].
Qed.

(** ** Lookup in a well-formed table *)

Lemma wf_entry_bucket (m : HashMap) (p : _pair) :
  wf m → p ∈ entries m → p ∈ bucket_at m (_hash m p.1).
Proof.
  intros Hwf Hp. apply concat_lookup_elem in Hp as (i & b & Hi & Hb).
  pose proof (wf_route _ Hwf i b p Hi Hb) as Hh.
  unfold bucket_at. rewrite Hh, Nat2Z.id, Hi. done.
Qed.

Lemma wf_bucket_entry (m : HashMap) (key : KeyT) (p : _pair) :
  wf m → p ∈ bucket_at m (_hash m key) → p ∈ entries m.
Proof.
  intros Hwf Hp. apply concat_lookup_elem.
  exists (Z.to_nat (_hash m key)), (bucket_at m (_hash m key)).
  split; [by apply wf_bucket_lookup|done].
Qed.

Lemma NoDup_fst_agree (l : list _pair) (k : KeyT) (v w : ValueT) :
  NoDup l.*1 → (k, v) ∈ l → (k, w) ∈ l → v = w.
Proof.
  induction l as [|[k' v'] l IH]; simpl; intros Hnd Hv Hw.
  - by apply elem_of_nil in Hv.
  - apply NoDup_cons in Hnd as [Hk Hnd].
    apply elem_of_cons in Hv as [Hv|Hv], Hw as [Hw|Hw]; simplify_eq.
    + done.
    + exfalso. apply Hk. apply list_elem_of_fmap. by exists (k', w).
    + exfalso. apply Hk. apply list_elem_of_fmap. by exists (k', v).
    + by apply IH.
Qed.

Lemma concat_length_lookup {A : Type} (t : list (list A)) (i : nat)
    (b : list A) :
  t !! i = Some b → (length b ≤ length (concat t))%nat.
Proof.
  revert i. induction t as [|x t IH]; intros [|i] H; simplify_eq/=;
    rewrite length_app; [lia|].
  specialize (IH i H). lia.
Qed.

Lemma wf_bucket_int (m : HashMap) (i : Z) :
  wf m →
  take (Z.to_nat (wrap_int (Z.of_nat (length (bucket_at m i)))))
    (bucket_at m i) = bucket_at m i.
Proof.
  intros Hwf.
  assert (Z.of_nat (length (bucket_at m i)) ≤ INT_MAX) as Hle.
  { pose proof (wf_size _ Hwf) as Hs. pose proof (wf_size_int _ Hwf) as Hi.
    unfold bucket_at.
    destruct (_hashTable m !! Z.to_nat i) as [b|] eqn:E; simpl.
    - apply concat_length_lookup in E. unfold entries in Hs. lia.
    - unfold INT_MAX. lia. }
  unfold INT_MAX in Hle. rewrite wrap_int_id, Nat2Z.id by lia.
  apply firstn_all.
Qed.

Lemma wf_getPair (m : HashMap) (key : KeyT) :
  wf m →
  _getPairByKey m key = _scanBucket (bucket_at m (_hash m key)) key 0.
Proof. intros Hwf. unfold _getPairByKey. by rewrite wf_bucket_int. Qed.

Lemma getPair_Ok (m : HashMap) (key : KeyT) (em : ElemMeta) :
  wf m → _getPairByKey m key = Ok em →
  (elem em).1 = key ∧ elem em ∈ entries m ∧
  bucket_at m (_hash m key) !! idxInBucket em = Some (elem em).
Proof.
  intros Hwf H. rewrite wf_getPair in H by done.
  apply scan_Ok in H as (E1 & _ & E3 & _).
  rewrite Nat.sub_0_r in E3. split_and!; [done| |done].
  apply (wf_bucket_entry m key); [done|].
  apply list_elem_of_lookup. eauto.
Qed.

Lemma getPair_Throw (m : HashMap) (key : KeyT) (e : exn) :
  wf m → _getPairByKey m key = Throw e →
  e = out_of_range ∧ key ∉ (entries m).*1.
Proof.
  intros Hwf H. rewrite wf_getPair in H by done.
  apply scan_Throw in H as [-> Hn]. split; [done|].
  intros Hin. apply Hn. apply list_elem_of_fmap in Hin as (p & -> & Hp).
  apply list_elem_of_fmap. exists p. split; [done|].
  by apply wf_entry_bucket.
Qed.

Lemma at_entries (m : HashMap) (key : KeyT) (v : ValueT) :
  wf m → (at_ m key = Ok v ↔ (key, v) ∈ entries m).
Proof.
  intros Hwf. unfold at_. split.
  - destruct (_getPairByKey m key) as [em|e] eqn:E; [|done].
    intros [= <-]. apply getPair_Ok in E as (E1 & E2 & _); [|done].
    destruct (elem em) as [k w]; simpl in *. by subst.
  - intros Hin.
    destruct (_getPairByKey m key) as [em|e] eqn:E.
    + apply getPair_Ok in E as (E1 & E2 & _); [|done].
      destruct (elem em) as [k w]; simpl in *; subst. f_equal.
      by apply (NoDup_fst_agree (entries m) key); [apply Hwf|..].
    + apply getPair_Throw in E as [_ Hn]; [|done].
      exfalso. apply Hn. apply list_elem_of_fmap. by exists (key, v).
Qed.

Lemma containsKey_entries (m : HashMap) (key : KeyT) :
  wf m → (containsKey m key = true ↔ key ∈ (entries m).*1).
Proof.
  intros Hwf. unfold containsKey. split.
  - destruct (_getPairByKey m key) as [em|e] eqn:E; [|done].
    intros _. apply getPair_Ok in E as (E1 & E2 & _); [|done].
    apply list_elem_of_fmap. by exists (elem em).
  - intros Hin. destruct (_getPairByKey m key) as [em|e] eqn:E; [done|].
    by apply getPair_Throw in E as [_ ?].
Qed.

Lemma containsKey_false_entries (m : HashMap) (key : KeyT) :
  wf m → (containsKey m key = false ↔ key ∉ (entries m).*1).
Proof.
  intros Hwf. rewrite <- containsKey_entries by done.
  destruct (containsKey m key); naive_solver.
Qed.

(** ** The iterator walks the bucket array *)

Section iteration.

Variable m : HashMap.
Hypothesis m_capacity : 1 ≤ capacity m ≤ 2 ^ 30.
Hypothesis m_length : length (_hashTable m) = Z.to_nat (capacity m).

Lemma setEnd_eq :
  _setEnd m =
  mkIter (capacity m - 1) (length (bucket_at m (capacity m - 1))).
Proof. unfold _setEnd. by rewrite wrap_int_id by lia. Qed.

Lemma cend_setEnd : cend m = _setEnd m.
Proof.
  unfold cend, const_iterator_new.
  destruct (negb (empty m)); [|done].
  unfold _nextBucket; simpl.
  rewrite (wrap_int_id (capacity m - 1)) by lia.
  replace (capacity m - 1 + 1) with (capacity m) by lia.
  rewrite wrap_int_id by lia.
  by rewrite Z.sub_diag.
Qed.

Lemma bucket_at_lookup (i : Z) :
  0 ≤ i < capacity m →
  _hashTable m !! Z.to_nat i = Some (bucket_at m i).
Proof.
  intros Hi. unfold bucket_at.
  destruct (_hashTable m !! Z.to_nat i) eqn:E; [done|].
  apply lookup_ge_None in E. lia.
Qed.

Lemma nextBucket_from_spec (n : nat) (i : Z) :
  0 ≤ i → n = Z.to_nat (capacity m - i) →
  (_nextBucket_from m n i = _setEnd m ∧
   concat (drop (Z.to_nat i) (_hashTable m)) = [])
  ∨ (∃ i', i ≤ i' < capacity m ∧ _nextBucket_from m n i = mkIter i' 0 ∧
       (0 < length (bucket_at m i'))%nat ∧
       concat (drop (Z.to_nat i) (_hashTable m)) = remaining m i' 0).
Proof.
  revert i. induction n as [|n IH]; intros i Hi Hn; simpl.
  - left. split; [done|]. rewrite drop_ge by lia. done.
  - assert (Hlt : 0 ≤ i < capacity m) by lia.
    pose proof (bucket_at_lookup i Hlt) as Hb.
    rewrite (drop_S _ _ _ Hb). simpl.
    destruct (bucket_at m i) as [|x b'] eqn:E.
    + rewrite wrap_int_id by lia. simpl.
      destruct (IH (i + 1)) as [[E1 E2]|(i' & Hi' & E1 & E2 & E3)]; [lia|lia|..].
      * left. by rewrite Z2Nat.inj_add, Nat.add_1_r in E2 by lia.
      * right. exists i'. rewrite Z2Nat.inj_add, Nat.add_1_r in E3 by lia.
        split; [lia|]. split; [exact E1|]. split; [exact E2|exact E3].
    + right. exists i. split; [lia|]. split; [done|]. split; [rewrite E; simpl; lia|].
      unfold remaining. by rewrite E.
Qed.

Lemma iter_eqb_refl (it : const_iterator) : iter_eqb it it = true.
Proof. unfold iter_eqb. by rewrite Z.eqb_refl, Nat.eqb_refl. Qed.

Lemma for_each_end {A : Type} (budget : nat)
    (body : A → KeyT * ValueT → option A) (acc : A) :
  for_each (S budget) m (_setEnd m) body acc = Some acc.
Proof. simpl. by rewrite cend_setEnd, iter_eqb_refl. Qed.

Lemma position_not_end (i : Z) (j : nat) :
  (j < length (bucket_at m i))%nat → iter_eqb (mkIter i j) (cend m) = false.
Proof.
  intros Hj. rewrite cend_setEnd, setEnd_eq. unfold iter_eqb; simpl.
  destruct (Z.eqb_spec i (capacity m - 1)) as [->|]; [|done].
  simpl. apply Nat.eqb_neq. lia.
Qed.

Lemma for_each_position {A : Type} (budget : nat)
    (body : A → KeyT * ValueT → option A) (i : Z) (j : nat) (acc : A) :
  0 ≤ i < capacity m → (j < length (bucket_at m i))%nat →
  (length (remaining m i j) < budget)%nat →
  for_each budget m (mkIter i j) body acc = foldM body acc (remaining m i j).
Proof.
  revert i j acc. induction budget as [|budget IH]; intros i j acc Hi Hj Hb;
    [lia|].
  simpl. rewrite position_not_end by done.
  destruct (lookup_lt_is_Some_2 _ _ Hj) as [p Hp].
  unfold deref; simpl. rewrite Hp. simpl.
  unfold remaining in Hb |- *. rewrite (drop_S _ _ _ Hp) in Hb |- *.
  simpl in Hb |- *.
  destruct (body acc p) as [acc'|]; simpl; [|done].
  unfold _nextPair; cbn [_pairPtr _currBucket].
  destruct (Nat.eqb_spec (S j) (length (bucket_at m i))) as [Hlast|Hmore].
  - rewrite (drop_ge _ (S j)) in Hb |- * by lia. simpl in Hb |- *.
    unfold _nextBucket; simpl. rewrite wrap_int_id by lia.
    destruct (nextBucket_from_spec (Z.to_nat (capacity m - (i + 1))) (i + 1))
      as [[E1 E2]|(i' & Hi' & E1 & E2 & E3)]; [lia|done|..].
    all: rewrite Z2Nat.inj_add, Nat.add_1_r in * by lia.
    + rewrite E1, E2. destruct budget; [simpl in Hb; lia|].
      by rewrite for_each_end.
    + rewrite E1, E3. apply IH; [lia|done|].
      rewrite <- E3. lia.
  - apply IH; [done|lia|]. unfold remaining. lia.
Qed.

Lemma for_each_cbegin {A : Type}
    (body : A → KeyT * ValueT → option A) (acc : A) :
  size m = Z.of_nat (length (entries m)) →
  for_each (iteration_budget m) m (cbegin m) body acc =
  foldM body acc (entries m).
Proof.
  intros Hsize. unfold cbegin, const_iterator_new, empty, iteration_budget.
  fold (size m). destruct (Z.eqb_spec (size m) 0) as [H0|H0]; cbn [negb].
  - rewrite for_each_end.
    destruct (entries m); [done|]. simpl in Hsize. lia.
  - unfold _nextBucket; cbn [_currBucket].
    rewrite (wrap_int_id (0 - 1)) by lia.
    replace (0 - 1 + 1) with 0 by lia.
    rewrite (wrap_int_id 0) by lia. rewrite Z.sub_0_r.
    destruct (nextBucket_from_spec (Z.to_nat (capacity m)) 0)
      as [[E1 E2]|(i' & Hi' & E1 & E2 & E3)]; [lia|f_equal; lia|..].
    all: change (Z.to_nat 0) with 0%nat in *; rewrite drop_0 in *.
    all: fold (entries m) in *.
    + rewrite E1, E2. apply for_each_end.
    + rewrite E1, E3. apply for_each_position; [lia|done|].
      rewrite <- E3. lia.
Qed.

End iteration.

Lemma wf_for_each {A : Type} (m : HashMap)
    (body : A → KeyT * ValueT → option A) (acc : A) :
  wf m →
  for_each (iteration_budget m) m (cbegin m) body acc =
  foldM body acc (entries m).
Proof.
  intros Hwf. pose proof (pow2_capacity_range _ (wf_capacity _ Hwf)).
  apply for_each_cbegin; [done|apply Hwf..].
Qed.

Lemma foldM_snoc (l : list (KeyT * ValueT)) (acc : list (KeyT * ValueT)) :
  foldM (λ acc p, Some (acc ++ [p])) acc l = Some (acc ++ l).
Proof.
  revert acc. induction l as [|p l IH]; intros acc; simpl.
  - by rewrite app_nil_r.
  - rewrite IH. by rewrite <- (assoc_L (++)).
Qed.

Lemma wf_iterate (m : HashMap) : wf m → iterate m = Some (entries m).
Proof.
  intros Hwf. unfold iterate, begin_. fold (cbegin m).
  rewrite wf_for_each by done. apply foldM_snoc.
Qed.

(** ** Updating one bucket *)

Lemma wf_entries_nonneg (m : HashMap) : wf m → 0 ≤ size m.
Proof. intros Hwf. rewrite (wf_size _ Hwf). lia. Qed.

Lemma wf_capacity_range (m : HashMap) : wf m → 1 ≤ capacity m ≤ 2 ^ 30.
Proof. intros Hwf. apply pow2_capacity_range, Hwf. Qed.

Lemma alter_bucket_entries (m : HashMap) (key : KeyT)
    (f : list (KeyT * ValueT) → list (KeyT * ValueT)) :
  wf m →
  ∃ pre post,
    entries m = pre ++ bucket_at m (_hash m key) ++ post ∧
    concat (alter f (Z.to_nat (_hash m key)) (_hashTable m)) =
      pre ++ f (bucket_at m (_hash m key)) ++ post.
Proof.
  intros Hwf.
  destruct (concat_alter_split f _ _ _ (wf_bucket_lookup m key Hwf))
    as [E1 E2].
  eauto.
Qed.

Lemma alter_bucket_wf (m : HashMap) (key : KeyT)
    (f : list (KeyT * ValueT) → list (KeyT * ValueT)) (n' : Z) :
  wf m →
  (∀ p, p ∈ f (bucket_at m (_hash m key)) → _hash m p.1 = _hash m key) →
  NoDup (concat (alter f (Z.to_nat (_hash m key)) (_hashTable m))).*1 →
  n' = Z.of_nat
         (length (concat (alter f (Z.to_nat (_hash m key)) (_hashTable m)))) →
  n' ≤ INT_MAX →
  wf (mkHashMap n' (_capacity m)
        (alter f (Z.to_nat (_hash m key)) (_hashTable m))).
Proof.
  intros Hwf Hroute Hnd Hn Hmax.
  pose proof (wf_hash_range m key Hwf) as Hr.
  constructor; simpl.
  - apply Hwf.
  - rewrite length_alter. apply Hwf.
  - done.
  - done.
  - intros i b' p Hi Hp.
    rewrite (hash_capacity_eq _ m) by done.
    rewrite list_lookup_alter in Hi.
    destruct (decide (Z.to_nat (_hash m key) = i)) as [<-|Hne].
    + rewrite (wf_bucket_lookup m key Hwf) in Hi. simplify_eq/=.
      rewrite (Hroute p Hp). lia.
    + by apply (wf_route _ Hwf i b' p).
  - done.
Qed.

Lemma push_back_entries (m : HashMap) (key : KeyT) (value : ValueT) :
  wf m → entries (push_back m key value) ≡ₚ (key, value) :: entries m.
Proof.
  intros Hwf. unfold entries at 1, push_back; simpl.
  destruct (alter_bucket_entries m key (λ b, b ++ [(key, value)]) Hwf)
    as (pre & post & E1 & E2).
  rewrite E1, E2. rewrite <- (assoc_L (++) _ [(key, value)] post). simpl.
  rewrite (assoc_L (++) pre). rewrite <- Permutation_middle.
  by rewrite <- (assoc_L (++)).
Qed.

Lemma push_back_wf (m : HashMap) (key : KeyT) (value : ValueT) :
  wf m → key ∉ (entries m).*1 → size m < INT_MAX →
  wf (push_back m key value).
Proof.
  intros Hwf Hk Hlt.
  pose proof (push_back_entries m key value Hwf) as Hperm.
  unfold entries at 1, push_back in Hperm; simpl in Hperm.
  apply alter_bucket_wf; [done|..].
  - intros p [Hp| ->%list_elem_of_singleton]%elem_of_app; [|done].
    apply (wf_route _ Hwf (Z.to_nat (_hash m key)) _ p) in Hp;
      [|by apply wf_bucket_lookup].
    pose proof (wf_hash_range m key Hwf). lia.
  - rewrite Hperm. simpl. apply NoDup_cons. split; [done|apply Hwf].
  - rewrite Hperm. simpl. pose proof (wf_size _ Hwf) as Hs.
    unfold size, INT_MAX in *. rewrite wrap_int_id by lia. lia.
  - pose proof (wf_entries_nonneg m Hwf).
    unfold size, INT_MAX in *. rewrite wrap_int_id by lia. lia.
Qed.

Lemma push_back_size (m : HashMap) (key : KeyT) (value : ValueT) :
  wf m → size m < INT_MAX → size (push_back m key value) = size m + 1.
Proof.
  intros Hwf Hlt. pose proof (wf_entries_nonneg m Hwf).
  unfold push_back, size, INT_MAX in *; simpl.
  apply wrap_int_id. lia.
Qed.

Lemma getPair_bucket_split (m : HashMap) (key : KeyT) (em : ElemMeta) :
  wf m → _getPairByKey m key = Ok em →
  bucket_at m (_hash m key) =
    take (idxInBucket em) (bucket_at m (_hash m key)) ++
    elem em :: drop (S (idxInBucket em)) (bucket_at m (_hash m key)).
Proof.
  intros Hwf H. apply getPair_Ok in H as (_ & _ & H); [|done].
  by rewrite take_drop_middle.
Qed.

Lemma remove_at_entries (m : HashMap) (key : KeyT) (em : ElemMeta) :
  wf m → _getPairByKey m key = Ok em →
  elem em :: entries (remove_at m (_hash m key) (idxInBucket em))
    ≡ₚ entries m.
Proof.
  intros Hwf H. unfold entries at 1, remove_at; simpl.
  destruct (alter_bucket_entries m key (delete (idxInBucket em)) Hwf)
    as (pre & post & E1 & E2).
  rewrite E1, E2. rewrite delete_take_drop.
  rewrite (getPair_bucket_split m key em Hwf H) at 3.
  rewrite <- !(assoc_L (++)). simpl.
  rewrite !Permutation_middle. done.
Qed.

Lemma remove_at_wf (m : HashMap) (key : KeyT) (em : ElemMeta) :
  wf m → _getPairByKey m key = Ok em →
  wf (remove_at m (_hash m key) (idxInBucket em)).
Proof.
  intros Hwf H.
  pose proof (remove_at_entries m key em Hwf H) as Hperm.
  unfold entries at 1, remove_at in Hperm; simpl in Hperm.
  pose proof (wf_nodup _ Hwf) as Hnd. rewrite <- Hperm in Hnd.
  simpl in Hnd. apply NoDup_cons in Hnd as [_ Hnd].
  pose proof (wf_size _ Hwf) as Hs. rewrite <- Hperm in Hs.
  pose proof (wf_size_int _ Hwf) as Hmax.
  simpl in Hs. unfold size, INT_MAX in Hs, Hmax.
  apply alter_bucket_wf; [done| |done|..].
  - intros p Hp%list_elem_of_delete_inv.
    apply (wf_route _ Hwf (Z.to_nat (_hash m key)) _ p) in Hp;
      [|by apply wf_bucket_lookup].
    pose proof (wf_hash_range m key Hwf). lia.
  - rewrite wrap_int_id by lia. lia.
  - unfold INT_MAX. rewrite wrap_int_id by lia. lia.
Qed.

Lemma remove_at_size (m : HashMap) (key : KeyT) (em : ElemMeta) :
  wf m → _getPairByKey m key = Ok em →
  size (remove_at m (_hash m key) (idxInBucket em)) = size m - 1.
Proof.
  intros Hwf H.
  pose proof (wf_size _ (remove_at_wf m key em Hwf H)) as E.
  pose proof (remove_at_entries m key em Hwf H) as Hperm.
  pose proof (wf_size _ Hwf) as Hs. rewrite <- Hperm in Hs. simpl in Hs. lia.
Qed.

Lemma remove_at_absent (m : HashMap) (key : KeyT) (em : ElemMeta) :
  wf m → _getPairByKey m key = Ok em →
  key ∉ (entries (remove_at m (_hash m key) (idxInBucket em))).*1.
Proof.
  intros Hwf H.
  pose proof (remove_at_entries m key em Hwf H) as Hperm.
  pose proof (wf_nodup _ Hwf) as Hnd. rewrite <- Hperm in Hnd.
  simpl in Hnd. apply NoDup_cons in Hnd as [Hk _].
  apply getPair_Ok in H as (E & _); [|done]. by rewrite E in Hk.
Qed.

Lemma HashMap_new_wf (c : Z) : pow2_capacity c → wf (HashMap_new c).
Proof.
  intros Hc. constructor; simpl.
  - done.
  - by rewrite length_replicate.
  - unfold entries; simpl. by rewrite concat_replicate_nil.
  - done.
  - intros i b p [-> _]%lookup_replicate Hp. by apply elem_of_nil in Hp.
  - unfold entries; simpl. rewrite concat_replicate_nil. constructor.
Qed.

Lemma HashMap_new_entries (c : Z) : entries (HashMap_new c) = [].
Proof. unfold entries; simpl. apply concat_replicate_nil. Qed.

(** ** insert, _resizeTable and erase on well-formed tables *)

Lemma getLoadFactor_gt_upper (m : HashMap) :
  0 < capacity m →
  Qgtb (getLoadFactor m) UPPER_LOAD_FACTOR = (3 * capacity m <? 4 * size m).
Proof. apply Qgtb_upper. Qed.

Lemma getLoadFactor_lt_lower (m : HashMap) :
  0 < capacity m →
  Qltb (getLoadFactor m) LOWER_LOAD_FACTOR = (4 * size m <? capacity m).
Proof. apply Qltb_lower. Qed.

Lemma wf_perm_size (m m' : HashMap) (l : list (KeyT * ValueT)) :
  wf m → wf m' → entries m' ≡ₚ l ++ entries m →
  size m' = Z.of_nat (length l) + size m.
Proof.
  intros Hwf Hwf' Hperm.
  rewrite (wf_size _ Hwf), (wf_size _ Hwf'), Hperm, length_app. lia.
Qed.

Lemma insert_unfold (depth : nat) (m : HashMap) (key : KeyT) (value : ValueT) :
  insert (S depth) m key value =
  if containsKey m key then Some (false, m)
  else
    let m1 := push_back m key value in
    if Qgtb (getLoadFactor m1) UPPER_LOAD_FACTOR then
      m2 ← _resizeTable depth m1 (wrap_int (capacity m1 * TABLE_SIZE_FACTOR));
      Some (true, m2)
    else Some (true, m1).
Proof. done. Qed.

Lemma insert_present (depth : nat) (m : HashMap) (key : KeyT) (value : ValueT) :
  containsKey m key = true → insert (S depth) m key value = Some (false, m).
Proof. intros H. by rewrite insert_unfold, H. Qed.

Lemma insert_push (depth : nat) (m : HashMap) (key : KeyT) (value : ValueT) :
  0 < capacity m → containsKey m key = false →
  4 * size (push_back m key value) ≤ 3 * capacity m →
  insert (S depth) m key value = Some (true, push_back m key value).
Proof.
  intros Hc Hk Hle. rewrite insert_unfold, Hk. cbn zeta.
  rewrite getLoadFactor_gt_upper by done.
  change (capacity (push_back m key value)) with (capacity m).
  destruct (Z.ltb_spec (3 * capacity m) (4 * size (push_back m key value)));
    [lia|done].
Qed.

(** The rehash loop of [_resizeTable]: when the new table has room for
    all the pairs below the upper bound, every [insert] appends. *)
Lemma rehash_loop (depth : nat) (l : list (KeyT * ValueT)) (acc : HashMap) :
  wf acc → NoDup l.*1 →
  (∀ k, k ∈ l.*1 → k ∉ (entries acc).*1) →
  4 * (size acc + Z.of_nat (length l)) ≤ 3 * capacity acc →
  ∃ r, foldM (λ resized p, snd <$> insert (S depth) resized p.1 p.2) acc l
         = Some r ∧
       wf r ∧ entries r ≡ₚ entries acc ++ l ∧ capacity r = capacity acc.
Proof.
  revert acc. induction l as [|[k v] l IH]; intros acc Hwf Hnd Hdisj Hle.
  - exists acc. simpl. by rewrite app_nil_r.
  - rewrite fmap_cons in Hnd, Hdisj. cbn [length fst] in Hnd, Hdisj, Hle.
    cbn [foldM fst snd].
    apply NoDup_cons in Hnd as [Hk Hnd].
    pose proof (wf_capacity_range acc Hwf) as Hc.
    pose proof (wf_entries_nonneg acc Hwf) as H0.
    assert (Hlt : size acc < INT_MAX) by (unfold INT_MAX; lia).
    assert (Habs : k ∉ (entries acc).*1) by (apply Hdisj; left).
    rewrite insert_push;
      [|lia|by apply containsKey_false_entries|rewrite push_back_size by done; lia].
    cbn [fmap option_fmap option_map mbind option_bind snd].
    destruct (IH (push_back acc k v)) as (r & E & Hwfr & Hperm & Hcap).
    + by apply push_back_wf.
    + done.
    + intros k' Hk'. rewrite push_back_entries by done. simpl.
      apply not_elem_of_cons. split; [by intros ->|].
      apply Hdisj. by right.
    + rewrite push_back_size by done.
      change (capacity (push_back acc k v)) with (capacity acc). lia.
    + exists r. split_and!; [done|done| |done].
      rewrite Hperm, push_back_entries by done. simpl.
      apply Permutation_middle.
Qed.

Lemma resizeTable_spec (depth : nat) (m : HashMap) (c : Z) :
  wf m → pow2_capacity c → 4 * size m ≤ 3 * c →
  ∃ r, _resizeTable (S depth) m c = Some r ∧
       wf r ∧ entries r ≡ₚ entries m ∧ capacity r = c.
Proof.
  intros Hwf Hc Hle.
  pose proof (pow2_capacity_range c Hc) as Hr.
  pose proof (wf_entries_nonneg m Hwf) as H0.
  unfold _resizeTable, _resizeTable_with, MIN_CAPACITY.
  destruct (Z.leb_spec (size m) c); [|lia].
  destruct (Z.geb_spec c 1); [|lia]. cbn [andb].
  rewrite wf_for_each by done.
  destruct (rehash_loop depth (entries m) (HashMap_new c))
    as (r & E & Hwfr & Hperm & Hcap).
  - by apply HashMap_new_wf.
  - apply Hwf.
  - intros k _. rewrite HashMap_new_entries. apply not_elem_of_nil.
  - rewrite (wf_size _ Hwf) in Hle. simpl. unfold NO_ELEMS. lia.
  - exists r. split_and!; [done|done| |done].
    by rewrite Hperm, HashMap_new_entries.
Qed.

Lemma insert_absent (depth : nat) (m : HashMap) (key : KeyT) (value : ValueT) :
  Inv m → containsKey m key = false →
  ∃ m', insert (S (S depth)) m key value = Some (true, m') ∧
        wf m' ∧ entries m' ≡ₚ (key, value) :: entries m ∧
        capacity m' = capacity_after_insert (size m) (capacity m).
Proof.
  intros [Hwf Hlf] Hk.
  pose proof (wf_capacity_range m Hwf) as Hc.
  pose proof (wf_entries_nonneg m Hwf) as H0.
  assert (Hlt : size m < INT_MAX) by (unfold INT_MAX; lia).
  assert (Habs : key ∉ (entries m).*1) by by apply containsKey_false_entries.
  pose proof (push_back_wf m key value Hwf Habs Hlt) as Hwf1.
  pose proof (push_back_entries m key value Hwf) as Hperm1.
  pose proof (push_back_size m key value Hwf Hlt) as Hsize1.
  rewrite insert_unfold, Hk. cbn zeta.
  change (capacity (push_back m key value)) with (capacity m).
  rewrite getLoadFactor_gt_upper
    by (change (capacity (push_back m key value)) with (capacity m); lia).
  rewrite Hsize1.
  change (capacity (push_back m key value)) with (capacity m).
  unfold capacity_after_insert, TABLE_SIZE_FACTOR.
  destruct (Z.ltb_spec (3 * capacity m) (4 * (size m + 1))) as [Hx|Hx];
    cbn [andb]; [|by exists (push_back m key value)].
  destruct (Z.ltb_spec (capacity m) (2 ^ 30)) as [Hsmall|Hbig].
  - rewrite wrap_int_id by lia.
    destruct (resizeTable_spec depth (push_back m key value) (capacity m * 2))
      as (r & E & Hwfr & Hperm & Hcap);
      [done|apply pow2_capacity_double; [apply Hwf|done]|lia|].
    rewrite E. exists r. split_and!; [done|done| |done].
    by rewrite Hperm.
  - assert (capacity m = 2 ^ 30) as Hcap by lia.
    unfold _resizeTable, _resizeTable_with. rewrite Hcap.
    change (wrap_int (2 ^ 30 * 2)) with (- 2 ^ 31).
    destruct (Z.leb_spec (size (push_back m key value)) (- 2 ^ 31)); [lia|].
    by exists (push_back m key value).
Qed.

Lemma insert_absent_Inv (depth : nat) (m m' : HashMap) (key : KeyT)
    (value : ValueT) :
  Inv m → containsKey m key = false →
  capacity m < 2 ^ 30 ∨ 4 * (size m + 1) ≤ 3 * capacity m →
  insert (S (S depth)) m key value = Some (true, m') → Inv m'.
Proof.
  intros HInv Hk Hsmall E.
  destruct (insert_absent depth m key value HInv Hk)
    as (m2 & E2 & Hwf2 & Hperm & Hcap).
  rewrite E in E2. simplify_eq. split; [done|].
  destruct HInv as [Hwf Hlf].
  rewrite (wf_perm_size m m2 [(key, value)]) by done.
  rewrite Hcap. unfold capacity_after_insert. simpl.
  pose proof (wf_capacity_range m Hwf).
  destruct (Z.ltb_spec (3 * capacity m) (4 * (size m + 1)));
    destruct (Z.ltb_spec (capacity m) (2 ^ 30)); cbn [andb]; lia.
Qed.

Lemma erase_absent (depth : nat) (m : HashMap) (key : KeyT) :
  containsKey m key = false → erase depth m key = Some (false, m).
Proof.
  unfold containsKey, erase.
  by destruct (_getPairByKey m key).
Qed.

Lemma erase_present (depth : nat) (m : HashMap) (key : KeyT) (em : ElemMeta) :
  wf m → _getPairByKey m key = Ok em →
  ∃ m', erase (S depth) m key = Some (true, m') ∧
        wf m' ∧ elem em :: entries m' ≡ₚ entries m ∧
        capacity m' = capacity_after_erase (size m) (capacity m).
Proof.
  intros Hwf H.
  pose proof (wf_capacity_range m Hwf) as Hc.
  pose proof (remove_at_wf m key em Hwf H) as Hwf1.
  pose proof (remove_at_entries m key em Hwf H) as Hperm1.
  pose proof (remove_at_size m key em Hwf H) as Hsize1.
  pose proof (wf_entries_nonneg _ Hwf1) as H0.
  unfold erase. rewrite H.
  rewrite getLoadFactor_lt_lower
    by (change (capacity (remove_at m (_hash m key) (idxInBucket em)))
          with (capacity m); lia).
  rewrite Hsize1.
  change (capacity (remove_at m (_hash m key) (idxInBucket em)))
    with (capacity m).
  unfold capacity_after_erase, TABLE_SIZE_FACTOR.
  destruct (Z.ltb_spec (4 * (size m - 1)) (capacity m)) as [Hx|Hx];
    cbn [andb]; [|by eexists].
  destruct (Z.leb_spec 2 (capacity m)) as [Hge|Hone].
  - destruct (pow2_capacity_half (capacity m)) as [Hhalf Hdbl];
      [apply Hwf|done|].
    pose proof (pow2_capacity_range _ Hhalf).
    rewrite wrap_int_id by lia.
    destruct (resizeTable_spec depth
                (remove_at m (_hash m key) (idxInBucket em))
                (capacity m `quot` 2))
      as (r & E & Hwfr & Hperm & Hcap); [done|done|lia|].
    rewrite E. exists r. split_and!; [done|done| |done].
    by rewrite Hperm.
  - assert (capacity m = 1) as Hcap by lia.
    unfold _resizeTable, _resizeTable_with. rewrite Hcap.
    change (wrap_int (1 `quot` 2)) with 0.
    rewrite andb_false_r. by eexists.
Qed.

Lemma erase_present_Inv (depth : nat) (m m' : HashMap) (key : KeyT)
    (b : bool) :
  Inv m → erase (S depth) m key = Some (b, m') → Inv m'.
Proof.
  intros [Hwf Hlf] E.
  destruct (_getPairByKey m key) as [em|e] eqn:H.
  - destruct (erase_present depth m key em Hwf H)
      as (m2 & E2 & Hwf2 & Hperm & Hcap).
    rewrite E in E2. simplify_eq. split; [done|].
    pose proof (wf_size _ Hwf) as Hs. rewrite <- Hperm in Hs. simpl in Hs.
    rewrite (wf_size _ Hwf2), Hcap. unfold capacity_after_erase.
    pose proof (wf_capacity_range m Hwf).
    destruct (Z.ltb_spec (4 * (size m - 1)) (capacity m)); cbn [andb]; [|lia].
    destruct (Z.leb_spec 2 (capacity m)); [|lia].
    destruct (pow2_capacity_half (capacity m)) as [_ Hdbl];
      [apply Hwf|done|]. lia.
  - rewrite erase_absent in E by (unfold containsKey; by rewrite H).
    by simplify_eq.
Qed.

(** ** Results of lookups *)

Lemma at_cases (m : HashMap) (key : KeyT) :
  wf m →
  (at_ m key = Throw out_of_range ∧ key ∉ (entries m).*1) ∨
  (∃ v, at_ m key = Ok v ∧ (key, v) ∈ entries m).
Proof.
  intros Hwf. unfold at_.
  destruct (_getPairByKey m key) as [em|e] eqn:E.
  - right. exists (elem em).2. split; [done|].
    apply getPair_Ok in E as (E1 & E2 & _); [|done].
    destruct (elem em) as [k w]; simpl in *. by subst.
  - left. apply getPair_Throw in E as [-> Hn]; done.
Qed.

Lemma at_Throw_entries (m : HashMap) (key : KeyT) :
  wf m → (at_ m key = Throw out_of_range ↔ key ∉ (entries m).*1).
Proof.
  intros Hwf. destruct (at_cases m key Hwf) as [[E Hn]|(v & E & Hin)].
  - by rewrite E.
  - rewrite E. split; [done|]. intros Hn. exfalso. apply Hn.
    apply list_elem_of_fmap. by exists (key, v).
Qed.

Lemma at_containsKey (m : HashMap) (key : KeyT) (v : ValueT) :
  at_ m key = Ok v → containsKey m key = true.
Proof. unfold at_, containsKey. by destruct (_getPairByKey m key). Qed.

(** Two well-formed tables that store the same values for [key] answer
    [at] alike. *)
Lemma at_ext (m m' : HashMap) (key : KeyT) :
  wf m → wf m' →
  (∀ w, (key, w) ∈ entries m ↔ (key, w) ∈ entries m') →
  at_ m key = at_ m' key.
Proof.
  intros Hwf Hwf' Hiff.
  destruct (at_cases m key Hwf) as [[E Hn]|(v & E & Hin)].
  - rewrite E. symmetry. apply at_Throw_entries; [done|].
    intros (p & Hp & Hin)%list_elem_of_fmap. apply Hn.
    destruct p as [k w]; simpl in *; subst.
    apply list_elem_of_fmap. exists (k, w). split; [done|]. by apply Hiff.
  - rewrite E. symmetry. apply at_entries; [done|]. by apply Hiff.
Qed.

Lemma deref_cbegin (m : HashMap) :
  wf m → deref m (cbegin m) = head (entries m).
Proof.
  intros Hwf. pose proof (wf_capacity_range m Hwf) as Hc.
  pose proof (wf_length _ Hwf) as Hl. pose proof (wf_size _ Hwf) as Hsize.
  unfold cbegin, const_iterator_new, empty. fold (size m).
  destruct (Z.eqb_spec (size m) 0) as [H0|H0]; cbn [negb].
  - rewrite setEnd_eq by done. unfold deref; cbn [_currBucket _pairPtr].
    rewrite lookup_ge_None_2 by lia.
    destruct (entries m); [done|]. simpl in Hsize. lia.
  - unfold _nextBucket; cbn [_currBucket].
    rewrite (wrap_int_id (0 - 1)) by lia.
    replace (0 - 1 + 1) with 0 by lia.
    rewrite (wrap_int_id 0) by lia. rewrite Z.sub_0_r.
    destruct (nextBucket_from_spec m Hc Hl (Z.to_nat (capacity m)) 0)
      as [[E1 E2]|(i' & Hi' & E1 & E2 & E3)]; [lia|f_equal; lia|..].
    all: change (Z.to_nat 0) with 0%nat in *; rewrite drop_0 in *.
    all: fold (entries m) in *.
    + rewrite E2 in Hsize. simpl in Hsize. lia.
    + rewrite E1, E3. unfold deref, remaining; cbn [_currBucket _pairPtr].
      rewrite drop_0. destruct (bucket_at m i'); [simpl in E2; lia|done].
Qed.

(** ** The claims *)

(** C4: in a table where [k] is present with stored value [v],
    [insert(k, v')] returns false and changes nothing: the value stored for
    [k] is still [v], and [size()] and [capacity()] are as before. *)
Theorem insert_existing_key_is_noop (depth : nat) (m : HashMap) (k : KeyT)
    (v v' : ValueT) :
  at_ m k = Ok v →
  ∃ m', insert (S depth) m k v' = Some (false, m') ∧
        at_ m' k = Ok v ∧ size m' = size m ∧ capacity m' = capacity m ∧
        m' = m.
Proof.
  intros Hat. exists m.
  rewrite insert_present by (by eapply at_containsKey).
  done.
Qed.

(** C5: [at(key)], [bucketSize(key)] and [bucketIndex(key)] throw the
    key-not-found exception ([std::out_of_range]) exactly when no pair of
    the table has that key, and return a value when one has. *)
Theorem lookups_throw_iff_absent (m : HashMap) (k : KeyT) :
  wf m →
  (at_ m k = Throw out_of_range ↔ k ∉ (entries m).*1) ∧
  (bucketSize m k = Throw out_of_range ↔ k ∉ (entries m).*1) ∧
  (bucketIndex m k = Throw out_of_range ↔ k ∉ (entries m).*1) ∧
  (k ∈ (entries m).*1 →
     (∃ v, at_ m k = Ok v) ∧
     bucketSize m k = Ok (Z.of_nat (length (bucket_at m (_hash m k)))) ∧
     bucketIndex m k = Ok (_hash m k)).
Proof.
  intros Hwf.
  assert (Hidx : bucketIndex m k = Throw out_of_range ↔ k ∉ (entries m).*1).
  { rewrite <- containsKey_false_entries by done. unfold bucketIndex.
    by destruct (containsKey m k). }
  split_and!.
  - by apply at_Throw_entries.
  - rewrite <- Hidx. unfold bucketSize. by destruct (bucketIndex m k).
  - done.
  - intros Hin. apply containsKey_entries in Hin as Hc; [|done].
    split_and!.
    + destruct (at_cases m k Hwf) as [[_ Hn]|(v & E & _)]; [done|eauto].
    + unfold bucketSize, bucketIndex. by rewrite Hc.
    + unfold bucketIndex. by rewrite Hc.
Qed.

(** C6: if [k] is present, [erase(k)] returns true and [containsKey(k)] is
    false afterwards; if [k] is absent, [erase(k)] returns false and leaves
    [size()] (and the whole table) unchanged. *)
Theorem erase_present_and_absent (depth : nat) (m : HashMap) (k : KeyT) :
  wf m →
  (containsKey m k = true →
     ∃ m', erase (S depth) m k = Some (true, m') ∧
           containsKey m' k = false) ∧
  (containsKey m k = false →
     ∃ m', erase (S depth) m k = Some (false, m') ∧
           size m' = size m ∧ m' = m).
Proof.
  intros Hwf. split.
  - intros Hc. unfold containsKey in Hc.
    destruct (_getPairByKey m k) as [em|e] eqn:E; [|done].
    destruct (erase_present depth m k em Hwf E)
      as (m' & E' & Hwf' & Hperm & _).
    exists m'. split; [done|].
    apply containsKey_false_entries; [done|].
    pose proof (wf_nodup _ Hwf) as Hnd. rewrite <- Hperm in Hnd.
    rewrite fmap_cons in Hnd. apply NoDup_cons in Hnd as [Hk _].
    apply getPair_Ok in E as (E1 & _); [|done]. by rewrite E1 in Hk.
  - intros Hc. exists m. by rewrite erase_absent.
Qed.

(** C3: on a non-empty table, the const [operator[]] applied to an absent
    key does not throw: it returns the value of the first pair that an
    iteration from [begin()] visits. *)
Theorem const_index_of_absent_key (m : HashMap) (k : KeyT) :
  wf m → empty m = false → containsKey m k = false →
  ∃ p rest, iterate m = Some (p :: rest) ∧ index_const m k = Some p.2.
Proof.
  intros Hwf Hne Hk. rewrite wf_iterate by done.
  unfold index_const. unfold containsKey in Hk.
  destruct (_getPairByKey m k) as [em|e]; [done|].
  rewrite deref_cbegin by done.
  unfold empty in Hne. apply Z.eqb_neq in Hne.
  pose proof (wf_size _ Hwf) as Hs. unfold size in Hs.
  destruct (entries m) as [|p rest]; [simpl in Hs; lia|].
  by exists p, rest.
Qed.

(** C9: an iteration from [begin()] to [end()] ends and yields exactly
    [size()] pairs, no pair (and no key) twice, and a pair [(k, v)] is
    yielded exactly when the table stores [v] for [k]. *)
Theorem iteration_yields_the_table (m : HashMap) :
  wf m →
  ∃ l, iterate m = Some l ∧
       Z.of_nat (length l) = size m ∧
       NoDup l ∧ NoDup l.*1 ∧
       (∀ k v, (k, v) ∈ l ↔ at_ m k = Ok v).
Proof.
  intros Hwf. exists (entries m). split_and!.
  - by apply wf_iterate.
  - by rewrite (wf_size _ Hwf).
  - eapply NoDup_fmap_1. apply Hwf.
  - apply Hwf.
  - intros k v. by rewrite at_entries.
Qed.

(** C10: a key [k2] stored with value [v2] is still stored with [v2] after
    [insert(k1, v1)] and after [erase(k1)] for any other key [k1], whether
    or not the call resizes the table. *)
Theorem other_keys_are_preserved (depth : nat) (m : HashMap) (k1 k2 : KeyT)
    (v1 v2 : ValueT) :
  Inv m → k1 ≠ k2 → at_ m k2 = Ok v2 →
  (∃ b m', insert (S (S depth)) m k1 v1 = Some (b, m') ∧
           containsKey m' k2 = true ∧ at_ m' k2 = Ok v2) ∧
  (∃ b m', erase (S depth) m k1 = Some (b, m') ∧
           containsKey m' k2 = true ∧ at_ m' k2 = Ok v2).
Proof.
  intros HInv Hne Hat. pose proof HInv as [Hwf _].
  apply at_containsKey in Hat as Hc2.
  apply at_entries in Hat as Hin; [|done].
  split.
  - destruct (containsKey m k1) eqn:Hc1.
    + exists false, m. by rewrite insert_present.
    + destruct (insert_absent depth m k1 v1 HInv Hc1)
        as (m' & E & Hwf' & Hperm & _).
      exists true, m'. split; [done|].
      assert (at_ m' k2 = Ok v2) as Hat'.
      { apply at_entries; [done|]. rewrite Hperm. by right. }
      split; [by eapply at_containsKey|done].
  - destruct (_getPairByKey m k1) as [em|e] eqn:E1.
    + destruct (erase_present depth m k1 em Hwf E1)
        as (m' & E & Hwf' & Hperm & _).
      exists true, m'. split; [done|].
      assert (at_ m' k2 = Ok v2) as Hat'.
      { apply at_entries; [done|]. rewrite <- Hperm in Hin.
        apply elem_of_cons in Hin as [Hin|Hin]; [|done].
        apply getPair_Ok in E1 as (E1 & _); [|done].
        rewrite <- Hin in E1. simpl in E1. congruence. }
      split; [by eapply at_containsKey|done].
    + exists false, m. rewrite erase_absent; [done|].
      unfold containsKey. by rewrite E1.
Qed.

(** ** Growth from capacity 16 *)

Lemma insert_all_cons (depth : nat) (m : HashMap) (k : KeyT) (v : ValueT)
    (kvs : list (KeyT * ValueT)) :
  insert_all depth m ((k, v) :: kvs) =
  m' ← snd <$> insert depth m k v; insert_all depth m' kvs.
Proof. done. Qed.

Lemma insert_all_16_32 (depth : nat) (kvs : list (KeyT * ValueT))
    (m : HashMap) :
  Inv m → capacity m = (if size m <=? 12 then 16 else 32) →
  NoDup kvs.*1 → (∀ k, k ∈ kvs.*1 → containsKey m k = false) →
  size m + Z.of_nat (length kvs) ≤ 24 →
  ∃ m', insert_all (S (S depth)) m kvs = Some m' ∧ Inv m' ∧
        size m' = size m + Z.of_nat (length kvs) ∧
        capacity m' = (if size m' <=? 12 then 16 else 32).
Proof.
  revert m. induction kvs as [|[k v] kvs IH]; intros m HInv Hcap Hnd Habs Hle.
  - exists m. simpl. rewrite Z.add_0_r. done.
  - rewrite fmap_cons in Hnd, Habs. cbn [length fst] in Hnd, Habs, Hle.
    apply NoDup_cons in Hnd as [Hk Hnd].
    pose proof HInv as [Hwf Hlf].
    assert (Hck : containsKey m k = false) by (apply Habs; left).
    destruct (insert_absent depth m k v HInv Hck)
      as (m1 & E & Hwf1 & Hperm & Hcap1).
    assert (Hsmall : capacity m < 2 ^ 30)
      by (rewrite Hcap; destruct (size m <=? 12); lia).
    pose proof (insert_absent_Inv depth m m1 k v HInv Hck (or_introl Hsmall) E)
      as HInv1.
    pose proof (wf_perm_size m m1 [(k, v)] Hwf Hwf1 Hperm) as Hsize1.
    cbn [length] in Hsize1.
    destruct (IH m1) as (m' & E' & HInv' & Hsize' & Hcap'); [done| |done|..].
    + rewrite Hcap1, Hcap. unfold capacity_after_insert.
      replace (size m1) with (size m + 1) by lia.
      repeat match goal with
             | |- context [?a <=? ?b] => destruct (Z.leb_spec a b)
             | |- context [?a <? ?b] => destruct (Z.ltb_spec a b)
             end; cbn [andb]; lia.
    + intros k' Hk'. apply containsKey_false_entries; [done|].
      rewrite Hperm, fmap_cons. apply not_elem_of_cons.
      split; [by intros ->|].
      apply containsKey_false_entries; [done|]. apply Habs. by right.
    + lia.
    + exists m'. rewrite insert_all_cons, E. cbn [length].
      split_and!; [done|done|lia|done].
Qed.

(** C8: from a table of capacity 16, inserting distinct new keys one after
    the other leaves [capacity()] at 16 as long as the table holds at most
    12 pairs, doubles it to 32 at the insert that brings the table to 13
    pairs (13/16 > 3/4), and leaves it at 32 for every later insert up to
    24 pairs: one doubling, seen as 16 before and 32 after that insert. *)
Theorem one_doubling_from_16 (depth : nat) (m : HashMap)
    (kvs : list (KeyT * ValueT)) (i : nat) :
  Inv m → capacity m = 16 →
  NoDup kvs.*1 → (∀ k, k ∈ kvs.*1 → containsKey m k = false) →
  size m + Z.of_nat (length kvs) ≤ 24 → (i ≤ length kvs)%nat →
  ∃ mi, insert_all (S (S depth)) m (take i kvs) = Some mi ∧
        size mi = size m + Z.of_nat i ∧
        capacity mi = (if size m + Z.of_nat i <=? 12 then 16 else 32).
Proof.
  intros HInv Hcap Hnd Habs Hle Hi.
  destruct (insert_all_16_32 depth (take i kvs) m)
    as (mi & E & _ & Hsize & Hcapi).
  - done.
  - destruct HInv as [_ Hlf]. rewrite Hcap in Hlf |- *.
    destruct (Z.leb_spec (size m) 12); [done|lia].
  - rewrite fmap_take. eapply sublist_NoDup; [done|]. apply sublist_take.
  - intros k Hk. apply Habs. rewrite fmap_take in Hk.
    apply elem_of_take in Hk as (j & Hj & _).
    apply list_elem_of_lookup. eauto.
  - rewrite length_take. lia.
  - rewrite length_take, Nat.min_l in Hsize by done.
    exists mi. rewrite Hsize in Hcapi. done.
Qed.

(** ** Sequences of mutating calls *)

Lemma clear_loop (t : list (list (KeyT * ValueT))) (n : nat) :
  (n ≤ length t)%nat →
  foldl (λ t' i, <[i := []]> t') t (seq 0 n) = replicate n [] ++ drop n t.
Proof.
  induction n as [|n IH]; intros Hn; [done|].
  rewrite seq_S, foldl_snoc, IH by lia. rewrite Nat.add_0_l.
  rewrite insert_app_r_alt by (rewrite length_replicate; lia).
  rewrite length_replicate, Nat.sub_diag.
  destruct (lookup_lt_is_Some_2 t n) as [b Hb]; [lia|].
  rewrite (drop_S _ _ _ Hb).
  rewrite replicate_S_end, <- (assoc_L (++)). done.
Qed.

Lemma clear_spec (m : HashMap) : wf m → clear m = HashMap_new (capacity m).
Proof.
  intros Hwf. unfold clear, HashMap_new, NO_ELEMS. f_equal.
  rewrite <- (wf_length _ Hwf).
  rewrite clear_loop, drop_all, app_nil_r; done.
Qed.

Lemma Qle_lower (n c : Z) :
  0 < c → (LOWER_LOAD_FACTOR <= inject_Z n / inject_Z c)%Q ↔ c ≤ 4 * n.
Proof.
  intros Hc. rewrite <- Qle_bool_iff.
  pose proof (Qltb_lower n c Hc) as H. unfold Qltb in H.
  destruct (Qle_bool _ _); simpl in H; symmetry in H.
  - apply Z.ltb_ge in H. done.
  - apply Z.ltb_lt in H. split; [done|lia].
Qed.

Lemma pow2_capacity_small_or_8 (c : Z) :
  pow2_capacity c → c = 1 ∨ c = 2 ∨ c = 4 ∨ ∃ k, 1 ≤ k ∧ c = 8 * k.
Proof.
  intros (e & He & ->).
  destruct (decide (e = 0)) as [->|]; [by left|].
  destruct (decide (e = 1)) as [->|]; [by right; left|].
  destruct (decide (e = 2)) as [->|]; [by right; right; left|].
  right; right; right. exists (2 ^ (e - 3)). split.
  - assert (0 < 2 ^ (e - 3)) by (apply Z.pow_pos_nonneg; lia). lia.
  - replace e with (3 + (e - 3)) at 1 by lia.
    rewrite Z.pow_add_r by lia. done.
Qed.

Lemma apply_op_Inv (depth : nat) (m : HashMap) (op : operation) :
  Inv m → size m < 3 * 2 ^ 28 →
  ∃ m', apply_op (S (S depth)) m op = Some m' ∧ Inv m' ∧
        size m' ≤ size m + 1 ∧
        (capacity m ≤ 4 * size m →
         size m' = 0 ∨ capacity m' ≤ 4 * size m').
Proof.
  intros HInv Hlt. pose proof HInv as [Hwf Hlf].
  pose proof (wf_capacity_range m Hwf) as Hc.
  pose proof (wf_entries_nonneg m Hwf) as H0.
  destruct op as [k v|k|]; cbn [apply_op].
  - destruct (containsKey m k) eqn:Hk.
    + rewrite insert_present by done. exists m.
      split_and!; [done|done|lia|by right].
    + destruct (insert_absent depth m k v HInv Hk)
        as (m' & E & Hwf' & Hperm & Hcap).
      assert (Hroom : capacity m < 2 ^ 30 ∨ 4 * (size m + 1) ≤ 3 * capacity m)
        by lia.
      pose proof (insert_absent_Inv depth m m' k v HInv Hk Hroom E) as HInv'.
      pose proof (wf_perm_size m m' [(k, v)] Hwf Hwf' Hperm) as Hsize.
      cbn [length] in Hsize.
      rewrite E. exists m'. split_and!; [done|done|lia|].
      intros Hlow. right. rewrite Hcap. unfold capacity_after_insert.
      destruct (Z.ltb_spec (3 * capacity m) (4 * (size m + 1)));
        destruct (Z.ltb_spec (capacity m) (2 ^ 30)); cbn [andb]; lia.
  - destruct (_getPairByKey m k) as [em|e] eqn:E1.
    + destruct (erase_present (S depth) m k em Hwf E1)
        as (m' & E & Hwf' & Hperm & Hcap).
      pose proof (erase_present_Inv (S depth) m m' k true HInv E) as HInv'.
      pose proof (wf_size _ Hwf) as Hs. rewrite <- Hperm in Hs.
      cbn [length] in Hs. pose proof (wf_size _ Hwf') as Hs'.
      rewrite E. exists m'. split_and!; [done|done|lia|].
      intros Hlow. rewrite Hcap. unfold capacity_after_erase.
      destruct (Z.ltb_spec (4 * (size m - 1)) (capacity m));
        cbn [andb]; [|right; lia].
      destruct (Z.leb_spec 2 (capacity m)); [|left; lia].
      destruct (pow2_capacity_half (capacity m)) as [_ Hdbl];
        [apply Hwf|done|].
      destruct (pow2_capacity_small_or_8 (capacity m))
        as [?|[?|[?|(j & Hj & Hj8)]]]; [apply Hwf|lia..].
    + rewrite erase_absent by (unfold containsKey; by rewrite E1).
      exists m. split_and!; [done|done|lia|by right].
  - rewrite clear_spec by done. exists (HashMap_new (capacity m)).
    split_and!; [done| |simpl; unfold NO_ELEMS; lia|by left].
    split; [apply HashMap_new_wf, Hwf|simpl; unfold NO_ELEMS; lia].
Qed.

Lemma HashMap_default_Inv : Inv HashMap_default.
Proof. split; [apply HashMap_new_wf; by exists 4|done]. Qed.

Lemma HashMap_default_absent (key : KeyT) :
  containsKey HashMap_default key = false.
Proof.
  apply containsKey_false_entries; [apply HashMap_default_Inv|].
  unfold HashMap_default. rewrite HashMap_new_entries. apply not_elem_of_nil.
Qed.

Lemma run_Inv (depth : nat) (ops : list operation) (m : HashMap) :
  Inv m → size m + Z.of_nat (length ops) ≤ 3 * 2 ^ 28 →
  ∃ m', run (S (S depth)) m ops = Some m' ∧ Inv m' ∧
        (length ops = 1%nat → capacity m ≤ 4 * size m →
         size m' = 0 ∨ capacity m' ≤ 4 * size m').
Proof.
  revert m. induction ops as [|op ops IH]; intros m HInv Hle.
  - exists m. by split_and!.
  - cbn [length] in Hle.
    destruct (apply_op_Inv depth m op HInv) as (m1 & E1 & HInv1 & Hs1 & Hlow1);
      [lia|].
    destruct (IH m1 HInv1) as (m' & E' & HInv' & _); [lia|].
    exists m'. unfold run in *. cbn [foldM]. rewrite E1.
    cbn [mbind option_bind]. split_and!; [done|done|].
    intros Hone Hlow. destruct ops; [|done].
    cbn [foldM] in E'. simplify_eq. by apply Hlow1.
Qed.

(** C1 (as the code has it): after every mutating call of a sequence of
    [insert], [erase] and [clear] calls on a table of at most 3 * 2^28
    pairs, [capacity()] is a power of two and the load factor is at most
    the upper bound 3/4, the bound itself included.  The lower bound 1/4 is
    not restored by these calls; a single [insert] or [erase] keeps it once
    it holds, unless it leaves the table empty. *)
Theorem capacity_and_load_factor_after_calls (depth : nat) (m : HashMap)
    (ops : list operation) :
  Inv m → size m + Z.of_nat (length ops) ≤ 3 * 2 ^ 28 →
  ∃ m', run (S (S depth)) m ops = Some m' ∧ Inv m' ∧
        (∃ e, 0 ≤ e ≤ 30 ∧ capacity m' = 2 ^ e) ∧
        (getLoadFactor m' <= UPPER_LOAD_FACTOR)%Q ∧
        (length ops = 1%nat →
         (LOWER_LOAD_FACTOR <= getLoadFactor m)%Q →
         size m' = 0 ∨ (LOWER_LOAD_FACTOR <= getLoadFactor m')%Q).
Proof.
  intros HInv Hle.
  destruct (run_Inv depth ops m HInv Hle) as (m' & E & HInv' & Hlow).
  pose proof HInv' as [Hwf' Hlf'].
  pose proof (wf_capacity_range m' Hwf').
  pose proof (wf_capacity_range m (proj1 HInv)).
  exists m'. split_and!; [done|done|apply Hwf'| |].
  - apply Qle_upper; [unfold capacity in *; lia|done].
  - intros Hone Hq. apply Qle_lower in Hq; [|unfold capacity in *; lia].
    destruct (Hlow Hone Hq) as [?|Hl]; [by left|right].
    apply Qle_lower; [unfold capacity in *; lia|done].
Qed.

(** ** operator[] and the bulk constructor *)

Lemma alter_take_drop_middle {A : Type} (g : A → A) (l : list A) (j : nat)
    (x : A) :
  l !! j = Some x → alter g j l = take j l ++ g x :: drop (S j) l.
Proof.
  revert j. induction l as [|y l IH]; intros [|j] H; simplify_eq/=; [done|].
  by rewrite (IH j H).
Qed.

Lemma assign_through_spec (m : HashMap) (key : KeyT) (em : ElemMeta)
    (value : ValueT) :
  wf m → _getPairByKey m key = Ok em →
  wf (assign_through m key em value) ∧
  ∃ rest, entries m ≡ₚ elem em :: rest ∧
          entries (assign_through m key em value) ≡ₚ (key, value) :: rest.
Proof.
  intros Hwf H.
  pose proof (getPair_Ok m key em Hwf H) as (Hkey & Hin & Hlook).
  pose proof (getPair_bucket_split m key em Hwf H) as Hsplit.
  destruct (alter_bucket_entries m key
              (alter (λ p, (p.1, value)) (idxInBucket em)) Hwf)
    as (pre & post & E1 & E2).
  rewrite (alter_take_drop_middle _ _ _ _ Hlook) in E2.
  cbn [fst] in E2. rewrite Hkey in E2.
  set (b := bucket_at m (_hash m key)) in *.
  set (rest := pre ++ take (idxInBucket em) b ++
               drop (S (idxInBucket em)) b ++ post).
  assert (P1 : entries m ≡ₚ elem em :: rest).
  { rewrite E1, Hsplit. unfold rest.
    rewrite <- !(assoc_L (++)). cbn [app].
    by rewrite <- !Permutation_middle. }
  assert (P2 : concat (alter (alter (λ p, (p.1, value)) (idxInBucket em))
                         (Z.to_nat (_hash m key)) (_hashTable m))
               ≡ₚ (key, value) :: rest).
  { rewrite E2. unfold rest.
    rewrite <- !(assoc_L (++)). cbn [app].
    by rewrite <- !Permutation_middle. }
  split; [|by exists rest].
  pose proof (wf_nodup _ Hwf) as Hnd. rewrite P1, fmap_cons, Hkey in Hnd.
  pose proof (wf_size _ Hwf) as Hs. rewrite P1 in Hs.
  apply alter_bucket_wf; [done|..].
  - intros p. rewrite (alter_take_drop_middle _ _ _ _ Hlook).
    cbn [fst]. rewrite Hkey. intros Hp.
    assert (p = (key, value) ∨ p ∈ b) as [->|Hpb]; [|done|].
    { apply elem_of_app in Hp as [Hp|Hp].
      - right. rewrite Hsplit. apply elem_of_app. by left.
      - apply elem_of_cons in Hp as [->|Hp]; [by left|right].
        rewrite Hsplit. apply elem_of_app. right. by right. }
    apply (wf_route _ Hwf (Z.to_nat (_hash m key)) _ p) in Hpb;
      [|by apply wf_bucket_lookup].
    pose proof (wf_hash_range m key Hwf). lia.
  - by rewrite P2, fmap_cons.
  - rewrite P2. done.
  - apply Hwf.
Qed.

Lemma index_spec (depth : nat) (m : HashMap) (key : KeyT) :
  Inv m →
  ∃ m1 em, index (S (S depth)) m key = Some (m1, em) ∧
           wf m1 ∧ _getPairByKey m1 key = Ok em ∧
           ((containsKey m key = true ∧ m1 = m) ∨
            (containsKey m key = false ∧
             entries m1 ≡ₚ (key, ValueT_default) :: entries m ∧
             capacity m1 = capacity_after_insert (size m) (capacity m))).
Proof.
  intros HInv. pose proof HInv as [Hwf _]. unfold index.
  destruct (_getPairByKey m key) as [em|e] eqn:E.
  - exists m, em. split_and!; [done..|].
    left. unfold containsKey. by rewrite E.
  - assert (Hk : containsKey m key = false)
      by (unfold containsKey; by rewrite E).
    destruct (insert_absent depth m key ValueT_default HInv Hk)
      as (m1 & E1 & Hwf1 & Hperm & Hcap).
    rewrite E1. cbn [mbind option_bind snd].
    destruct (_getPairByKey m1 key) as [em|e'] eqn:E2.
    + exists m1, em. split_and!; [done..|]. by right.
    + apply getPair_Throw in E2 as [_ Hn]; [|done].
      exfalso. apply Hn. rewrite Hperm, fmap_cons. by left.
Qed.

Lemma index_assign_spec (depth : nat) (m : HashMap) (key : KeyT)
    (value : ValueT) :
  Inv m → size m < 3 * 2 ^ 28 →
  ∃ r, index (S (S depth)) m key = Some r ∧
       Inv (assign_through r.1 key r.2 value) ∧
       size (assign_through r.1 key r.2 value) ≤ size m + 1 ∧
       at_ (assign_through r.1 key r.2 value) key = Ok value ∧
       (∀ k', k' ≠ key →
          at_ (assign_through r.1 key r.2 value) k' = at_ m k') ∧
       (∀ k', k' ∈ (entries (assign_through r.1 key r.2 value)).*1 ↔
              k' = key ∨ k' ∈ (entries m).*1).
Proof.
  intros HInv Hlt. pose proof HInv as [Hwf Hlf].
  pose proof (wf_capacity_range m Hwf) as Hc.
  pose proof (wf_entries_nonneg m Hwf) as H0.
  destruct (index_spec depth m key HInv) as (m1 & em & E & Hwf1 & Hget & Hcase).
  exists (m1, em). split; [done|]. cbn [fst snd].
  destruct (assign_through_spec m1 key em value Hwf1 Hget)
    as (Hwf2 & rest & P1 & P2).
  pose proof (getPair_Ok m1 key em Hwf1 Hget) as (Hkey & _).
  set (m2 := assign_through m1 key em value) in *.
  assert (Hsize2 : size m2 = size m1) by done.
  assert (Hcap2 : capacity m2 = capacity m1) by done.
  assert (Hnd : key ∉ rest.*1).
  { pose proof (wf_nodup _ Hwf2) as Hnd. rewrite P2, fmap_cons in Hnd.
    by apply NoDup_cons in Hnd as [? _]. }
  assert (Hm1 : ∀ p, p.1 ≠ key → p ∈ entries m1 ↔ p ∈ entries m).
  { intros p Hp. destruct Hcase as [[_ ->]|(_ & Hperm & _)]; [done|].
    rewrite Hperm. rewrite elem_of_cons. split; [|by right].
    intros [->|?]; [done|done]. }
  assert (Hkeys1 : ∀ k', k' ∈ (entries m1).*1 ↔ k' = key ∨ k' ∈ (entries m).*1).
  { intros k'. destruct Hcase as [[Hc1 ->]|(_ & Hperm & _)].
    - apply containsKey_entries in Hc1; [|done].
      split; [by right|]. by intros [->|?].
    - rewrite Hperm, fmap_cons, elem_of_cons. done. }
  split_and!.
  - split; [done|]. rewrite Hsize2, Hcap2.
    destruct Hcase as [[_ ->]|(Hk & Hperm & Hcap)]; [done|].
    pose proof (wf_perm_size m m1 [(key, ValueT_default)] Hwf Hwf1 Hperm)
      as Hs. cbn [length] in Hs.
    rewrite Hs, Hcap. unfold capacity_after_insert.
    destruct (Z.ltb_spec (3 * capacity m) (4 * (size m + 1)));
      destruct (Z.ltb_spec (capacity m) (2 ^ 30)); cbn [andb]; lia.
  - rewrite Hsize2. destruct Hcase as [[_ ->]|(Hk & Hperm & _)]; [lia|].
    pose proof (wf_perm_size m m1 [(key, ValueT_default)] Hwf Hwf1 Hperm)
      as Hs. cbn [length] in Hs. lia.
  - apply at_entries; [done|]. rewrite P2. by left.
  - intros k' Hne. apply at_ext; [done..|]. intros w.
    rewrite <- (Hm1 (k', w)) by done. rewrite P1, P2, !elem_of_cons.
    split; (intros [Heq|?]; [|by right]).
    + by simplify_eq.
    + rewrite <- Heq in Hkey. by simpl in Hkey.
  - intros k'. rewrite <- Hkeys1. rewrite P1, P2, !fmap_cons, Hkey. done.
Qed.

Lemma fill_spec (depth : nat) (keys : list KeyT) (values : list ValueT)
    (m : HashMap) :
  length keys = length values → Inv m →
  size m + Z.of_nat (length keys) ≤ 3 * 2 ^ 28 →
  ∃ m', fill (S (S depth)) m keys values = Some m' ∧ Inv m' ∧
        (∀ k, at_ m' k = match last_value keys values k with
                         | Some v => Ok v
                         | None => at_ m k
                         end) ∧
        (∀ k, k ∈ (entries m').*1 ↔ k ∈ keys ∨ k ∈ (entries m).*1).
Proof.
  revert values m.
  induction keys as [|k keys IH]; intros [|v values] m Hlen HInv Hle;
    simplify_eq/=.
  - exists m. split_and!; [done..|]. intros k. rewrite elem_of_nil. tauto.
  - destruct (index_assign_spec depth m k v HInv)
      as (r & E & HInv2 & Hs2 & Hat & Hother & Hkeys); [lia|].
    destruct (IH values (assign_through r.1 k r.2 v))
      as (m' & E' & HInv' & Hat' & Hkeys'); [done|done|lia|].
    exists m'. rewrite E. cbn [mbind option_bind]. split_and!; [done|done|..].
    + intros k'. rewrite Hat'.
      destruct (last_value keys values k'); [done|].
      destruct (decide (k = k')) as [->|Hne]; [done|].
      apply Hother. congruence.
    + intros k'. rewrite Hkeys', Hkeys, elem_of_cons. tauto.
Qed.

(** C7: the bulk constructor, given as many values as keys, builds a table
    in which every key of [keys] maps to the value supplied with its last
    occurrence and no other key is present; [keys = [x; x; y]] with
    [values = [v1; v2; v3]] gives two entries, [at(x) = v2] and
    [at(y) = v3]; given sequences of different lengths it throws
    [std::invalid_argument] and there is no table. *)
Theorem bulk_constructor_last_value_wins (depth : nat) (keys : list KeyT)
    (values : list ValueT) :
  (length keys = length values → Z.of_nat (length keys) ≤ 3 * 2 ^ 28 →
   ∃ m, HashMap_from_vectors (S (S depth)) keys values = Some (Ok m) ∧
        Inv m ∧
        size m = Z.of_nat (length (remove_dups keys)) ∧
        ∀ k, at_ m k = match last_value keys values k with
                       | Some v => Ok v
                       | None => Throw out_of_range
                       end) ∧
  (∀ (x y : KeyT) (v1 v2 v3 : ValueT), x ≠ y →
   ∃ m, HashMap_from_vectors (S (S depth)) [x; x; y] [v1; v2; v3]
          = Some (Ok m) ∧
        size m = 2 ∧ at_ m x = Ok v2 ∧ at_ m y = Ok v3) ∧
  (length keys ≠ length values →
   HashMap_from_vectors depth keys values = Some (Throw invalid_argument)).
Proof.
  pose proof HashMap_default_Inv as Hinit. unfold HashMap_default in Hinit.
  assert (Hgen : ∀ (ks : list KeyT) (vs : list ValueT),
    length ks = length vs → Z.of_nat (length ks) ≤ 3 * 2 ^ 28 →
    ∃ m, HashMap_from_vectors (S (S depth)) ks vs = Some (Ok m) ∧
         Inv m ∧
         size m = Z.of_nat (length (remove_dups ks)) ∧
         ∀ k, at_ m k = match last_value ks vs k with
                        | Some v => Ok v
                        | None => Throw out_of_range
                        end).
  { intros ks vs Hlen Hle. unfold HashMap_from_vectors.
    rewrite bool_decide_eq_false_2 by (by intros ?). cbn zeta.
    rewrite wrap_int_id, Nat2Z.id by lia.
    rewrite firstn_all, Hlen, firstn_all.
    destruct (fill_spec depth ks vs (HashMap_new INIT_CAPACITY) Hlen Hinit)
      as (m & E & HInv & Hat & Hkeys); [simpl; unfold NO_ELEMS; lia|].
    exists m. rewrite E. split_and!; [done|done|..].
    - destruct HInv as [Hwf _]. rewrite (wf_size _ Hwf).
      rewrite <- (length_fmap fst). f_equal. apply Permutation_length.
      apply NoDup_Permutation; [apply Hwf|apply NoDup_remove_dups|].
      intros k. rewrite Hkeys, elem_of_remove_dups, HashMap_new_entries.
      rewrite fmap_nil, elem_of_nil. tauto.
    - intros k. rewrite Hat. destruct (last_value ks vs k); [done|].
      apply at_Throw_entries; [apply Hinit|].
      rewrite HashMap_new_entries. apply not_elem_of_nil. }
  split_and!.
  - apply Hgen.
  - intros x y v1 v2 v3 Hne.
    destruct (Hgen [x; x; y] [v1; v2; v3]) as (m & E & _ & Hsize & Hat);
      [done|simpl; lia|].
    exists m. split; [done|].
    split_and!.
    + rewrite Hsize. cbn [remove_dups].
      destruct (decide_rel elem_of x [x; y]) as [_|Hn];
        [|exfalso; apply Hn; by left].
      destruct (decide_rel elem_of x [y]) as [Hx|_];
        [by apply list_elem_of_singleton in Hx|].
      destruct (decide_rel elem_of y []) as [Hy|_];
        [by apply elem_of_nil in Hy|]. done.
    + rewrite Hat. cbn [last_value].
      rewrite (decide_False (P := y = x)) by done.
      by rewrite decide_True.
    + rewrite Hat. cbn [last_value]. by rewrite decide_True.
  - intros Hne. unfold HashMap_from_vectors.
    by rewrite bool_decide_eq_true_2.
Qed.

(** ** Ownership through the move constructor and operator= *)

(** X15: [*this = std::move(resized)] in [_resizeTable]: [*this] takes over
    the array of [resized], its old array is released, and [resized] is
    left with the null pointer, so that its destructor releases nothing. *)
Lemma move_assign_spec (h : Heap) (this resized : object) (a b : address)
    (old : list (list (KeyT * ValueT))) :
  obj_hashTable this = Some a → obj_hashTable resized = Some b →
  a ≠ b → h !! a = Some old →
  ∃ this' resized',
    move_assign h this resized = Some (delete a h, this', resized') ∧
    view (delete a h) this' = view h resized ∧
    obj_hashTable resized' = None ∧
    destructor (delete a h) resized' = Some (delete a h).
Proof.
  intros Ha Hb Hne Hold. unfold move_assign, move_ctor, _swap, destructor.
  cbn [obj_hashTable]. rewrite Ha, Hold. cbn [mbind option_bind].
  eexists _, _. split; [done|]. split_and!; [|done|done].
  unfold view; cbn [obj_hashTable obj_nElements obj_capacity obj_size
                    obj_capacity_]. rewrite Hb. cbn [mbind option_bind].
  by rewrite lookup_delete_ne.
Qed.

(** C2 (as the code has it): move-constructing from a table [t] hands its
    bucket array to the new table, which then denotes the table [t]
    denoted, and leaves [t] with the null pointer: destroying [t] releases
    nothing and the new table is intact afterwards.  The members
    [_nElements] and [_capacity] of [t] are copied, not reset. *)
Theorem move_constructor_transfers_the_array (h : Heap) (t : object)
    (a : address) (tbl : list (list (KeyT * ValueT))) :
  obj_hashTable t = Some a → h !! a = Some tbl →
  ∃ d t', move_ctor t = (d, t') ∧
          obj_hashTable d = Some a ∧ obj_hashTable t' = None ∧
          view h d = view h t ∧
          obj_size t' = obj_size t ∧ obj_capacity_ t' = obj_capacity_ t ∧
          destructor h t' = Some h ∧
          view h d = Some (mkHashMap (obj_size t) (obj_capacity_ t) tbl).
Proof.
  intros Ha Htbl. unfold move_ctor.
  eexists _, _. split; [done|].
  unfold view, destructor, obj_size, obj_capacity_; cbn [obj_hashTable
    obj_nElements obj_capacity].
  rewrite Ha. cbn [mbind option_bind]. rewrite Htbl.
  by split_and!.
Qed.

(** ** Further properties of the table *)

(** X1: a key that is not in the table is stored by [insert]: the call
    returns true, [at(key)] then returns the inserted value,
    [containsKey(key)] holds and [size()] has grown by one. *)
Theorem insert_then_at (depth : nat) (m : HashMap) (k : KeyT) (v : ValueT) :
  Inv m → containsKey m k = false → size m < 3 * 2 ^ 28 →
  ∃ m', insert (S (S depth)) m k v = Some (true, m') ∧ Inv m' ∧
        containsKey m' k = true ∧ at_ m' k = Ok v ∧
        size m' = size m + 1.
Proof.
  intros HInv Hk Hlt. pose proof HInv as [Hwf Hlf].
  pose proof (wf_capacity_range m Hwf) as Hc.
  destruct (insert_absent depth m k v HInv Hk)
    as (m' & E & Hwf' & Hperm & Hcap).
  assert (Hroom : capacity m < 2 ^ 30 ∨ 4 * (size m + 1) ≤ 3 * capacity m)
    by lia.
  pose proof (insert_absent_Inv depth m m' k v HInv Hk Hroom E) as HInv'.
  pose proof (wf_perm_size m m' [(k, v)] Hwf Hwf' Hperm) as Hsize.
  cbn [length] in Hsize.
  assert (Hat : at_ m' k = Ok v).
  { apply at_entries; [done|]. rewrite Hperm. by left. }
  exists m'. split_and!; [done|done|by eapply at_containsKey|done|lia].
Qed.

(** X2: [insert] of a new key doubles [capacity()] exactly when the load
    factor with the new pair exceeds 3/4; otherwise the pair is appended
    to its bucket and nothing else changes. *)
Theorem insert_doubles_above_upper_bound (depth : nat) (m : HashMap)
    (k : KeyT) (v : ValueT) :
  Inv m → containsKey m k = false → capacity m < 2 ^ 30 →
  ∃ m', insert (S (S depth)) m k v = Some (true, m') ∧
        (3 * capacity m < 4 * (size m + 1) →
         capacity m' = 2 * capacity m) ∧
        (4 * (size m + 1) ≤ 3 * capacity m → m' = push_back m k v).
Proof.
  intros HInv Hk Hsmall. pose proof HInv as [Hwf Hlf].
  pose proof (wf_capacity_range m Hwf) as Hc.
  pose proof (wf_entries_nonneg m Hwf) as H0.
  destruct (insert_absent depth m k v HInv Hk)
    as (m' & E & Hwf' & Hperm & Hcap).
  exists m'. split; [done|]. split.
  - intros Hx. rewrite Hcap. unfold capacity_after_insert.
    destruct (Z.ltb_spec (3 * capacity m) (4 * (size m + 1))); [|lia].
    destruct (Z.ltb_spec (capacity m) (2 ^ 30)); [|lia]. cbn [andb]. lia.
  - intros Hx. rewrite insert_push in E; [by simplify_eq|lia|done|].
    rewrite push_back_size by (done || unfold INT_MAX; lia). lia.
Qed.

(** X3: [erase] of a present key lowers [size()] by one; it halves
    [capacity()] exactly when the load factor has fallen below 1/4 and the
    capacity is at least 2, and never takes it below 1. *)
Theorem erase_halves_below_lower_bound (depth : nat) (m : HashMap)
    (k : KeyT) :
  wf m → containsKey m k = true →
  ∃ m', erase (S depth) m k = Some (true, m') ∧ wf m' ∧
        size m' = size m - 1 ∧ 1 ≤ capacity m' ∧
        (4 * (size m - 1) < capacity m → 2 ≤ capacity m →
         2 * capacity m' = capacity m) ∧
        (capacity m ≤ 4 * (size m - 1) ∨ capacity m = 1 →
         capacity m' = capacity m).
Proof.
  intros Hwf Hc. unfold containsKey in Hc.
  destruct (_getPairByKey m k) as [em|e] eqn:E; [|done].
  destruct (erase_present depth m k em Hwf E)
    as (m' & E' & Hwf' & Hperm & Hcap).
  pose proof (wf_capacity_range m Hwf).
  pose proof (wf_capacity_range m' Hwf').
  pose proof (wf_size _ Hwf) as Hs. rewrite <- Hperm in Hs.
  cbn [length] in Hs. pose proof (wf_size _ Hwf') as Hs'.
  exists m'. split_and!; [done|done|lia|lia|..].
  - intros Hx Hge. rewrite Hcap. unfold capacity_after_erase.
    destruct (Z.ltb_spec (4 * (size m - 1)) (capacity m)); [|lia].
    destruct (Z.leb_spec 2 (capacity m)); [|lia]. cbn [andb].
    destruct (pow2_capacity_half (capacity m)) as [_ Hdbl];
      [apply Hwf|done|]. lia.
  - intros Hx. rewrite Hcap. unfold capacity_after_erase.
    destruct (Z.ltb_spec (4 * (size m - 1)) (capacity m)); [|done].
    destruct (Z.leb_spec 2 (capacity m)); [lia|done].
Qed.

(** X4: inserting a new key and erasing it again gives back a table of the
    same size in which every key has the value it had before (the capacity
    may differ). *)
Theorem erase_undoes_insert (depth : nat) (m : HashMap) (k : KeyT)
    (v : ValueT) :
  Inv m → containsKey m k = false → size m < 3 * 2 ^ 28 →
  ∃ m1 m2, insert (S (S depth)) m k v = Some (true, m1) ∧
           erase (S depth) m1 k = Some (true, m2) ∧
           size m2 = size m ∧ ∀ k', at_ m2 k' = at_ m k'.
Proof.
  intros HInv Hk Hlt. pose proof HInv as [Hwf Hlf].
  destruct (insert_absent depth m k v HInv Hk)
    as (m1 & E1 & Hwf1 & Hperm1 & _).
  assert (Hat : at_ m1 k = Ok v).
  { apply at_entries; [done|]. rewrite Hperm1. by left. }
  destruct (_getPairByKey m1 k) as [em|e] eqn:Eg;
    [|unfold at_ in Hat; by rewrite Eg in Hat].
  destruct (erase_present depth m1 k em Hwf1 Eg)
    as (m2 & E2 & Hwf2 & Hperm2 & _).
  assert (Hem : elem em = (k, v)).
  { unfold at_ in Hat. rewrite Eg in Hat.
    apply getPair_Ok in Eg as (Ek & _); [|done].
    destruct (elem em) as [k0 v0]; simpl in *. by simplify_eq. }
  rewrite Hem, Hperm1 in Hperm2. apply Permutation_cons_inv in Hperm2.
  exists m1, m2. split_and!; [done|done|..].
  - by rewrite (wf_size _ Hwf2), (wf_size _ Hwf), Hperm2.
  - intros k'. apply at_ext; [done..|]. intros w. by rewrite Hperm2.
Qed.

(** X5: [clear] leaves a table of the same capacity with no pair:
    [size()] is 0, [empty()] holds, no key is contained and an iteration
    yields nothing. *)
Theorem clear_empties_the_table (m : HashMap) :
  wf m →
  Inv (clear m) ∧ size (clear m) = 0 ∧ empty (clear m) = true ∧
  capacity (clear m) = capacity m ∧
  (∀ k, containsKey (clear m) k = false ∧
        at_ (clear m) k = Throw out_of_range) ∧
  iterate (clear m) = Some [].
Proof.
  intros Hwf. rewrite clear_spec by done.
  assert (Hwf' : wf (HashMap_new (capacity m)))
    by apply HashMap_new_wf, Hwf.
  split_and!; [|done..| |].
  - split; [done|]. pose proof (wf_capacity_range m Hwf).
    simpl. unfold NO_ELEMS. lia.
  - intros k. assert (k ∉ (entries (HashMap_new (capacity m))).*1)
      by (rewrite HashMap_new_entries; apply not_elem_of_nil).
    split; [by apply containsKey_false_entries|by apply at_Throw_entries].
  - rewrite wf_iterate by done. by rewrite HashMap_new_entries.
Qed.

(** X6: the non-const [operator[]] always returns a reference to the value
    stored for its key: on a present key the table is unchanged; on an
    absent key the default value is inserted first, [size()] grows by one
    and every other key keeps its value. *)
Theorem index_finds_or_inserts_default (depth : nat) (m : HashMap)
    (k : KeyT) :
  Inv m → size m < 3 * 2 ^ 28 →
  ∃ m' em, index (S (S depth)) m k = Some (m', em) ∧ Inv m' ∧
           (elem em).1 = k ∧ at_ m' k = Ok (elem em).2 ∧
           (containsKey m k = true → m' = m) ∧
           (containsKey m k = false →
              (elem em).2 = ValueT_default ∧ size m' = size m + 1 ∧
              ∀ k', k' ≠ k → at_ m' k' = at_ m k').
Proof.
  intros HInv Hlt. pose proof HInv as [Hwf Hlf].
  pose proof (wf_capacity_range m Hwf) as Hc.
  destruct (index_spec depth m k HInv) as (m' & em & E & Hwf' & Hget & Hcase).
  pose proof (getPair_Ok m' k em Hwf' Hget) as (Hkey & Hin & _).
  assert (Hat : at_ m' k = Ok (elem em).2)
    by (unfold at_; by rewrite Hget).
  exists m', em.
  destruct Hcase as [[Hc1 ->]|(Hc0 & Hperm & Hcap)].
  - split_and!; [done..| |]; [done|by rewrite Hc1].
  - pose proof (wf_perm_size m m' [(k, ValueT_default)] Hwf Hwf' Hperm)
      as Hs. cbn [length] in Hs.
    split_and!; [done| |done|done|by rewrite Hc0|].
    + split; [done|]. rewrite Hs, Hcap. unfold capacity_after_insert.
      destruct (Z.ltb_spec (3 * capacity m) (4 * (size m + 1)));
        destruct (Z.ltb_spec (capacity m) (2 ^ 30)); cbn [andb]; lia.
    + intros _. split_and!; [|lia|].
      * assert (at_ m' k = Ok ValueT_default) as Hd.
        { apply at_entries; [done|]. rewrite Hperm. by left. }
        rewrite Hat in Hd. by simplify_eq.
      * intros k' Hne. apply at_ext; [done..|]. intros w.
        rewrite Hperm, elem_of_cons. split; [|by right].
        intros [?|?]; [by simplify_eq|done].
Qed.

(** X7: for a present key, [bucketIndex] is the hash of the key reduced
    modulo [capacity()], an index below the capacity, and [bucketSize] is
    the length of that bucket, between 1 and [size()]. *)
Theorem bucket_index_and_size_bounds (m : HashMap) (k : KeyT) :
  wf m → containsKey m k = true →
  ∃ i s, bucketIndex m k = Ok i ∧ bucketSize m k = Ok s ∧
         i = to_size_t (std_hash k) `mod` capacity m ∧
         0 ≤ i < capacity m ∧ 1 ≤ s ≤ size m.
Proof.
  intros Hwf Hc. pose proof (wf_hash_range m k Hwf) as Hr.
  exists (_hash m k), (Z.of_nat (length (bucket_at m (_hash m k)))).
  unfold bucketSize, bucketIndex. rewrite Hc. cbn [negb].
  split_and!; [done|done|by apply hash_mod, Hwf|lia..| |].
  - unfold containsKey in Hc.
    destruct (_getPairByKey m k) as [em|e] eqn:E; [|done].
    apply getPair_Ok in E as (_ & _ & Hl); [|done].
    apply lookup_lt_Some in Hl. lia.
  - rewrite (wf_size _ Hwf).
    pose proof (concat_length_lookup _ _ _ (wf_bucket_lookup m k Hwf)).
    unfold entries. lia.
Qed.

(** X8: [begin()] equals [end()] exactly when the table is empty. *)
Theorem begin_is_end_iff_empty (m : HashMap) :
  wf m → iter_eqb (begin_ m) (end_ m) = empty m.
Proof.
  intros Hwf. pose proof (wf_capacity_range m Hwf) as Hc.
  pose proof (wf_length _ Hwf) as Hl. pose proof (wf_size _ Hwf) as Hsize.
  change (end_ m) with (cend m). rewrite cend_setEnd by done.
  unfold begin_, const_iterator_new, empty. fold (size m).
  destruct (Z.eqb_spec (size m) 0) as [H0|H0]; cbn [negb].
  - apply iter_eqb_refl.
  - unfold _nextBucket; cbn [_currBucket].
    rewrite (wrap_int_id (0 - 1)) by lia.
    replace (0 - 1 + 1) with 0 by lia.
    rewrite (wrap_int_id 0) by lia. rewrite Z.sub_0_r.
    destruct (nextBucket_from_spec m Hc Hl (Z.to_nat (capacity m)) 0)
      as [[E1 E2]|(i' & Hi' & E1 & E2 & E3)]; [lia|f_equal; lia|..].
    + change (Z.to_nat 0) with 0%nat in E2. rewrite drop_0 in E2.
      fold (entries m) in E2. rewrite E2 in Hsize. simpl in Hsize. lia.
    + rewrite E1, <- (cend_setEnd m) by done.
      by apply position_not_end.
Qed.

(** X9: an iteration visits the pairs in ascending order of their bucket
    index: a pair yielded earlier never has a larger [bucketIndex]. *)
Theorem iteration_is_in_bucket_order (m : HashMap) (l : list (KeyT * ValueT))
    (i j : nat) (p q : KeyT * ValueT) :
  wf m → iterate m = Some l →
  l !! i = Some p → l !! j = Some q → (i ≤ j)%nat →
  ∃ bp bq, bucketIndex m p.1 = Ok bp ∧ bucketIndex m q.1 = Ok bq ∧
           bp ≤ bq.
Proof.
  intros Hwf Hit Hp Hq Hij. rewrite wf_iterate in Hit by done.
  simplify_eq.
  assert (Hin : ∀ n x, entries m !! n = Some x →
            bucketIndex m x.1 = Ok (_hash m x.1)).
  { intros n x Hx. unfold bucketIndex.
    rewrite (proj2 (containsKey_entries m x.1 Hwf)); [done|].
    apply list_elem_of_fmap. exists x. split; [done|].
    apply list_elem_of_lookup. eauto. }
  exists (_hash m p.1), (_hash m q.1).
  split_and!; [by eapply Hin|by eapply Hin|].
  assert (Hord : ∀ (t : list (list (KeyT * ValueT))) (off : nat),
    (∀ n b x, t !! n = Some b → x ∈ b → _hash m x.1 = Z.of_nat (off + n)) →
    ∀ i j p q, concat t !! i = Some p → concat t !! j = Some q →
      (i ≤ j)%nat → _hash m p.1 ≤ _hash m q.1).
  { clear. induction t as [|b t IH]; intros off Hroute i j p q Hp Hq Hij;
      [done|]. cbn [concat] in Hp, Hq.
    assert (Hb : ∀ x, x ∈ b → _hash m x.1 = Z.of_nat off).
    { intros x Hx. rewrite (Hroute 0%nat b x); [f_equal; lia|done|done]. }
    assert (Ht : ∀ n x, concat t !! n = Some x →
              Z.of_nat off < _hash m x.1).
    { intros n x Hx. apply list_elem_of_lookup_2 in Hx.
      apply concat_lookup_elem in Hx as (n' & b' & Hn' & Hx).
      rewrite (Hroute (S n') b' x); [lia|done|done]. }
    destruct (decide (j < length b)%nat) as [Hj|Hj].
    - rewrite lookup_app_l in Hp, Hq by lia.
      rewrite (Hb p), (Hb q); [lia|..]; by eapply list_elem_of_lookup_2.
    - rewrite (lookup_app_r b) in Hq by lia.
      destruct (decide (i < length b)%nat) as [Hi|Hi].
      + rewrite lookup_app_l in Hp by lia.
        rewrite (Hb p) by (by eapply list_elem_of_lookup_2).
        specialize (Ht _ _ Hq). lia.
      + rewrite (lookup_app_r b) in Hp by lia.
        apply (IH (S off)) with (i := (i - length b)%nat)
                                (j := (j - length b)%nat); [|done|done|lia].
        intros n b' x Hn Hx.
        rewrite (Hroute (S n) b' x); [f_equal; lia|done|done]. }
  apply (Hord (_hashTable m) 0%nat) with (i := i) (j := j); [|done|done|done].
  intros n b x Hn Hx. by apply (wf_route _ Hwf n b x).
Qed.

(** The table after the insert of a new key, as [at] sees it. *)
Lemma insert_then_at' (depth : nat) (m : HashMap) (k : KeyT) (v : ValueT) :
  Inv m → containsKey m k = false → size m < 3 * 2 ^ 28 →
  ∃ m', insert (S (S depth)) m k v = Some (true, m') ∧ Inv m' ∧
        at_ m' k = Ok v ∧ size m' = size m + 1 ∧
        ∀ k', k' ≠ k → at_ m' k' = at_ m k'.
Proof.
  intros HInv Hk Hlt. pose proof HInv as [Hwf Hlf].
  pose proof (wf_capacity_range m Hwf) as Hc.
  destruct (insert_absent depth m k v HInv Hk)
    as (m' & E & Hwf' & Hperm & Hcap).
  assert (Hroom : capacity m < 2 ^ 30 ∨ 4 * (size m + 1) ≤ 3 * capacity m)
    by lia.
  pose proof (insert_absent_Inv depth m m' k v HInv Hk Hroom E) as HInv'.
  pose proof (wf_perm_size m m' [(k, v)] Hwf Hwf' Hperm) as Hsize.
  cbn [length] in Hsize.
  exists m'. split_and!; [done|done| |lia|].
  - apply at_entries; [done|]. rewrite Hperm. by left.
  - intros k' Hne. apply at_ext; [done..|]. intros w.
    rewrite Hperm, elem_of_cons. split; [|by right].
    intros [?|?]; [by simplify_eq|done].
Qed.
Lemma insert_all_first_value (depth : nat) (kvs : list (KeyT * ValueT))
    (m : HashMap) :
  Inv m → size m + Z.of_nat (length kvs) ≤ 3 * 2 ^ 28 →
  ∃ m', insert_all (S (S depth)) m kvs = Some m' ∧ Inv m' ∧
        size m' ≤ size m + Z.of_nat (length kvs) ∧
        ∀ k, at_ m' k = match at_ m k with
                        | Ok v => Ok v
                        | Throw _ =>
                            match first_value kvs k with
                            | Some v => Ok v
                            | None => Throw out_of_range
                            end
                        end.
Proof.
  revert m. induction kvs as [|[k v] kvs IH]; intros m HInv Hle.
  - exists m. split_and!; [done|done|simpl; lia|].
    intros k. destruct (at_cases m k (proj1 HInv)) as [[-> _]|(w & -> & _)];
      done.
  - cbn [length] in Hle. rewrite insert_all_cons.
    pose proof HInv as [Hwf _].
    destruct (containsKey m k) eqn:Hk.
    + rewrite insert_present by done. cbn [fmap option_fmap option_map snd
        mbind option_bind].
      destruct (IH m HInv) as (m' & E & HInv' & Hs & Hat); [lia|].
      exists m'. split_and!; [done|done|cbn [length]; lia|].
      intros k'. rewrite Hat. cbn [first_value fst snd].
      destruct (at_cases m k' Hwf) as [[-> Hn]|(w & -> & _)]; [|done].
      destruct (decide (k = k')) as [->|]; [|done].
      by apply containsKey_entries in Hk.
    + destruct (insert_then_at' depth m k v HInv Hk)
        as (m1 & E1 & HInv1 & Hat1 & Hs1 & Hother); [lia|].
      rewrite E1. cbn [fmap option_fmap option_map snd mbind option_bind].
      destruct (IH m1 HInv1) as (m' & E & HInv' & Hs & Hat); [lia|].
      exists m'. split_and!; [done|done|cbn [length]; lia|].
      intros k'. rewrite Hat. cbn [first_value fst snd].
      destruct (decide (k = k')) as [<-|Hne].
      * rewrite Hat1.
        apply containsKey_false_entries in Hk; [|done].
        apply at_Throw_entries in Hk; [|done]. by rewrite Hk.
      * by rewrite Hother.
Qed.

Lemma insert_all_distinct_size (depth : nat) (kvs : list (KeyT * ValueT))
    (m : HashMap) :
  Inv m → size m + Z.of_nat (length kvs) ≤ 3 * 2 ^ 28 →
  NoDup kvs.*1 → (∀ k, k ∈ kvs.*1 → containsKey m k = false) →
  ∃ m', insert_all (S (S depth)) m kvs = Some m' ∧
        size m' = size m + Z.of_nat (length kvs).
Proof.
  revert m. induction kvs as [|[k v] kvs IH]; intros m HInv Hle Hnd Habs.
  - exists m. split; [done|]. simpl. lia.
  - rewrite fmap_cons in Hnd, Habs. cbn [length fst] in Hnd, Habs, Hle.
    apply NoDup_cons in Hnd as [Hk Hnd].
    assert (Hck : containsKey m k = false) by (apply Habs; left).
    destruct (insert_then_at' depth m k v HInv Hck)
      as (m1 & E1 & HInv1 & Hat1 & Hs1 & Hother); [lia|].
    destruct (IH m1 HInv1) as (m' & E & Hs); [lia|done| |].
    + intros k' Hk'. assert (k' ≠ k) by (by intros ->).
      assert (Hthrow : at_ m k' = Throw out_of_range).
      { apply at_Throw_entries; [apply HInv|].
        apply containsKey_false_entries; [apply HInv|].
        apply Habs. by right. }
      rewrite <- Hother in Hthrow by done.
      apply containsKey_false_entries; [apply HInv1|].
      by apply at_Throw_entries; [apply HInv1|].
    + exists m'. rewrite insert_all_cons, E1. cbn [length].
      split; [done|lia].
Qed.

(** X10: a sequence of [insert] calls never overwrites: afterwards a key
    that was in the table keeps its value, a new key has the value of its
    first occurrence in the sequence, and no other key is present.  When
    the keys are distinct and new, [size()] grows by their number. *)
Theorem insert_sequence_first_value_wins (depth : nat) (m : HashMap)
    (kvs : list (KeyT * ValueT)) :
  Inv m → size m + Z.of_nat (length kvs) ≤ 3 * 2 ^ 28 →
  ∃ m', insert_all (S (S depth)) m kvs = Some m' ∧ Inv m' ∧
        (∀ k, at_ m' k = match at_ m k with
                         | Ok v => Ok v
                         | Throw _ =>
                             match first_value kvs k with
                             | Some v => Ok v
                             | None => Throw out_of_range
                             end
                         end) ∧
        (NoDup kvs.*1 → (∀ k, k ∈ kvs.*1 → containsKey m k = false) →
         size m' = size m + Z.of_nat (length kvs)).
Proof.
  intros HInv Hle.
  destruct (insert_all_first_value depth kvs m HInv Hle)
    as (m' & E & HInv' & _ & Hat).
  exists m'. split_and!; [done..|].
  intros Hnd Habs.
  destruct (insert_all_distinct_size depth kvs m HInv Hle Hnd Habs)
    as (m2 & E2 & Hs).
  rewrite E in E2. by simplify_eq.
Qed.

(** ** operator== *)

Section equality_theory.

Context `{EqDecision ValueT}.

Lemma equals_loop_end (budget : nat) (this other : HashMap) :
  1 ≤ capacity other ≤ 2 ^ 30 →
  length (_hashTable other) = Z.to_nat (capacity other) →
  equals_loop (S budget) this other (_setEnd other) = Some true.
Proof.
  intros Hc Hl. cbn [equals_loop].
  by rewrite cend_setEnd, iter_eqb_refl.
Qed.

Lemma equals_loop_position (budget : nat) (this other : HashMap) (i : Z)
    (j : nat) :
  1 ≤ capacity other ≤ 2 ^ 30 →
  length (_hashTable other) = Z.to_nat (capacity other) →
  0 ≤ i < capacity other → (j < length (bucket_at other i))%nat →
  (length (remaining other i j) < budget)%nat →
  equals_loop budget this other (mkIter i j) =
  Some (forallb (agrees this) (remaining other i j)).
Proof.
  intros Hc Hl. revert i j.
  induction budget as [|budget IH]; intros i j Hi Hj Hb; [lia|].
  cbn [equals_loop]. rewrite position_not_end by done.
  destruct (lookup_lt_is_Some_2 _ _ Hj) as [p Hp].
  unfold deref; cbn [_currBucket _pairPtr]. rewrite Hp.
  cbn [mbind option_bind].
  unfold remaining in Hb |- *. rewrite (drop_S _ _ _ Hp) in Hb |- *.
  cbn [app forallb length] in Hb |- *. unfold agrees at 1.
  destruct (_getPairByKey this p.1) as [em|e]; [|done].
  destruct (decide ((elem em).2 ≠ p.2)) as [Hne|Heq].
  { by rewrite bool_decide_eq_false_2. }
  rewrite bool_decide_eq_true_2 by (by destruct (decide ((elem em).2 = p.2))).
  cbn [andb]. unfold _nextPair; cbn [_pairPtr _currBucket].
  destruct (Nat.eqb_spec (S j) (length (bucket_at other i))) as [Hlast|Hmore].
  - rewrite (drop_ge _ (S j)) in Hb |- * by lia. cbn [app] in Hb |- *.
    unfold _nextBucket; cbn [_currBucket]. rewrite wrap_int_id by lia.
    destruct (nextBucket_from_spec other Hc Hl
                (Z.to_nat (capacity other - (i + 1))) (i + 1))
      as [[E1 E2]|(i' & Hi' & E1 & E2 & E3)]; [lia|done|..].
    all: rewrite Z2Nat.inj_add, Nat.add_1_r in * by lia.
    + rewrite E1, E2. destruct budget; [simpl in Hb; lia|].
      by rewrite equals_loop_end.
    + rewrite E1, E3. apply IH; [lia|done|].
      rewrite <- E3. lia.
  - apply IH; [done|lia|]. unfold remaining. lia.
Qed.

Lemma equals_spec (this other : HashMap) :
  wf other →
  equals this other =
  Some ((size this =? size other) && forallb (agrees this) (entries other)).
Proof.
  intros Hwf. pose proof (wf_capacity_range other Hwf) as Hc.
  pose proof (wf_length _ Hwf) as Hl. pose proof (wf_size _ Hwf) as Hsize.
  unfold equals. destruct (size this =? size other); [|done]. cbn [andb].
  unfold cbegin, const_iterator_new, empty, iteration_budget.
  fold (size other).
  destruct (Z.eqb_spec (size other) 0) as [H0|H0]; cbn [negb].
  - rewrite equals_loop_end by done.
    destruct (entries other); [done|]. simpl in Hsize. lia.
  - unfold _nextBucket; cbn [_currBucket].
    rewrite (wrap_int_id (0 - 1)) by lia.
    replace (0 - 1 + 1) with 0 by lia.
    rewrite (wrap_int_id 0) by lia. rewrite Z.sub_0_r.
    destruct (nextBucket_from_spec other Hc Hl (Z.to_nat (capacity other)) 0)
      as [[E1 E2]|(i' & Hi' & E1 & E2 & E3)]; [lia|f_equal; lia|..].
    all: change (Z.to_nat 0) with 0%nat in *; rewrite drop_0 in *.
    all: fold (entries other) in *.
    + rewrite E1, E2. by apply equals_loop_end.
    + rewrite E1, E3. apply equals_loop_position; [done|done|lia|done|].
      rewrite <- E3. lia.
Qed.

Lemma agrees_at (this : HashMap) (p : KeyT * ValueT) :
  agrees this p = true ↔ at_ this p.1 = Ok p.2.
Proof.
  unfold agrees, at_. destruct (_getPairByKey this p.1) as [em|e].
  - rewrite bool_decide_eq_true. split; [by intros ->|by intros [= ->]].
  - done.
Qed.

Lemma wf_NoDup_entries (m : HashMap) : wf m → NoDup (entries m).
Proof. intros Hwf. eapply NoDup_fmap_1. apply Hwf. Qed.

Lemma equals_true_iff (this other : HashMap) :
  wf this → wf other →
  (size this =? size other) && forallb (agrees this) (entries other) = true
  ↔ ∀ k, at_ this k = at_ other k.
Proof.
  intros Hwf1 Hwf2. rewrite andb_true_iff, Z.eqb_eq, forallb_forall.
  split.
  - intros [Hsize Hall].
    assert (Hperm : entries other ≡ₚ entries this).
    { apply submseteq_length_Permutation.
      - apply NoDup_submseteq; [by apply wf_NoDup_entries|].
        intros [k v] Hin. apply at_entries; [done|].
        apply (agrees_at this (k, v)). apply Hall.
        by apply list_elem_of_In.
      - rewrite (wf_size _ Hwf1), (wf_size _ Hwf2) in Hsize. lia. }
    intros k. apply at_ext; [done..|]. intros w. by rewrite Hperm.
  - intros Hat.
    assert (Hperm : entries other ≡ₚ entries this).
    { apply NoDup_Permutation; [by apply wf_NoDup_entries..|].
      intros [k v]. rewrite <- !at_entries by done. by rewrite Hat. }
    split.
    + by rewrite (wf_size _ Hwf1), (wf_size _ Hwf2), Hperm.
    + intros [k v] Hin. apply list_elem_of_In in Hin.
      apply agrees_at. cbn [fst snd]. rewrite Hat. by apply at_entries.
Qed.

(** X11: [operator==] on two tables returns true exactly when they answer
    [at] alike for every key (same keys, same values), whatever their
    capacities and the order of their buckets; [operator!=] returns the
    opposite. *)
Theorem equals_iff_same_lookups (this other : HashMap) :
  wf this → wf other →
  ∃ b, equals this other = Some b ∧ not_equals this other = Some (negb b) ∧
       (b = true ↔ ∀ k, at_ this k = at_ other k).
Proof.
  intros Hwf1 Hwf2. eexists. split_and!.
  - by apply equals_spec.
  - unfold not_equals. by rewrite equals_spec.
  - by apply equals_true_iff.
Qed.

Lemma first_value_elem (kvs : list (KeyT * ValueT)) (k : KeyT) (v : ValueT) :
  NoDup kvs.*1 → first_value kvs k = Some v ↔ (k, v) ∈ kvs.
Proof.
  induction kvs as [|[k0 v0] kvs IH]; intros Hnd; cbn [first_value fst snd].
  - split; [done|by intros ?%elem_of_nil].
  - rewrite fmap_cons in Hnd. apply NoDup_cons in Hnd as [Hk Hnd].
    rewrite elem_of_cons. destruct (decide (k0 = k)) as [->|Hne].
    + split; [intros [= ->]; by left|].
      intros [[= ->]|Hin]; [done|].
      exfalso. apply Hk. apply list_elem_of_fmap. by exists (k, v).
    + rewrite IH by done. split; [by right|].
      intros [[= ? ?]|?]; [by simplify_eq|done].
Qed.

Lemma first_value_Permutation (kvs1 kvs2 : list (KeyT * ValueT)) (k : KeyT) :
  NoDup kvs1.*1 → kvs1 ≡ₚ kvs2 → first_value kvs1 k = first_value kvs2 k.
Proof.
  intros Hnd Hperm.
  assert (Hnd2 : NoDup kvs2.*1) by (by rewrite <- Hperm).
  destruct (first_value kvs1 k) as [v|] eqn:E1.
  - apply first_value_elem in E1; [|done]. rewrite Hperm in E1.
    symmetry. by apply first_value_elem.
  - destruct (first_value kvs2 k) as [v|] eqn:E2; [|done].
    apply first_value_elem in E2; [|done]. rewrite <- Hperm in E2.
    apply first_value_elem in E2; [|done]. congruence.
Qed.

(** X12: two default-constructed tables filled by [insert] with the same
    pairs of distinct keys, in any two orders, compare equal, from either
    side. *)
Theorem equals_ignores_insertion_order (depth : nat)
    (kvs1 kvs2 : list (KeyT * ValueT)) :
  NoDup kvs1.*1 → kvs1 ≡ₚ kvs2 →
  Z.of_nat (length kvs1) ≤ 3 * 2 ^ 28 →
  ∃ m1 m2, insert_all (S (S depth)) HashMap_default kvs1 = Some m1 ∧
           insert_all (S (S depth)) HashMap_default kvs2 = Some m2 ∧
           equals m1 m2 = Some true ∧ equals m2 m1 = Some true.
Proof.
  intros Hnd Hperm Hle.
  destruct (insert_all_first_value depth kvs1 HashMap_default)
    as (m1 & E1 & [Hwf1 _] & _ & Hat1);
    [apply HashMap_default_Inv|simpl; unfold NO_ELEMS; lia|].
  destruct (insert_all_first_value depth kvs2 HashMap_default)
    as (m2 & E2 & [Hwf2 _] & _ & Hat2);
    [apply HashMap_default_Inv|rewrite <- Hperm; simpl; unfold NO_ELEMS; lia|].
  assert (Hsame : ∀ k, at_ m1 k = at_ m2 k).
  { intros k. rewrite Hat1, Hat2.
    by rewrite (first_value_Permutation kvs1 kvs2 k Hnd Hperm). }
  exists m1, m2. split_and!; [done|done|..].
  - rewrite equals_spec by done. f_equal. by apply equals_true_iff.
  - rewrite equals_spec by done. f_equal. by apply equals_true_iff.
Qed.

End equality_theory.

(** ** The copy constructor and copy assignment *)

Lemma copy_loop (src arr : list (list (KeyT * ValueT))) (n : nat) :
  (n ≤ length src)%nat → (n ≤ length arr)%nat →
  foldl (λ arr' i, <[i := default [] (src !! i)]> arr') arr (seq 0 n) =
  take n src ++ drop n arr.
Proof.
  induction n as [|n IH]; intros Hs Ha; [done|].
  rewrite seq_S, foldl_snoc, IH by lia. rewrite Nat.add_0_l.
  destruct (lookup_lt_is_Some_2 src n) as [b Hb]; [lia|].
  destruct (lookup_lt_is_Some_2 arr n) as [b' Hb']; [lia|].
  rewrite Hb. cbn [default].
  rewrite insert_app_r_alt by (rewrite length_take; lia).
  rewrite length_take, Nat.min_l, Nat.sub_diag by lia.
  rewrite (drop_S _ _ _ Hb'), (take_S_r _ _ _ Hb).
  rewrite <- (assoc_L (++)). done.
Qed.

Lemma copy_buckets_spec (cap : Z) (src : list (list (KeyT * ValueT))) :
  length src = Z.to_nat cap → copy_buckets cap src = src.
Proof.
  intros Hl. unfold copy_buckets. rewrite <- Hl.
  rewrite copy_loop by (rewrite ?length_replicate; lia).
  rewrite firstn_all, drop_ge by (rewrite length_replicate; lia).
  apply app_nil_r.
Qed.

(** X13: the copy constructor makes a deep copy: the new table denotes the
    same table as its source and owns an array of its own, so that
    destroying either of the two leaves the other intact. *)
Theorem copy_constructor_is_deep (a : address) (h : Heap) (other : object)
    (b : address) (m : HashMap) :
  obj_hashTable other = Some b → view h other = Some m →
  length (_hashTable m) = Z.to_nat (capacity m) → h !! a = None →
  ∃ h' c, copy_ctor a h other = Some (h', c) ∧
          obj_hashTable c = Some a ∧ a ≠ b ∧
          view h' c = Some m ∧ view h' other = Some m ∧
          destructor h' c = Some h ∧
          ∃ h'', destructor h' other = Some h'' ∧ view h'' c = Some m.
Proof.
  intros Hb Hview Hlen Ha. unfold view in Hview. rewrite Hb in Hview.
  cbn [mbind option_bind] in Hview.
  destruct (h !! b) as [t|] eqn:Ht; [|done]. cbn in Hview. simplify_eq.
  cbn [_hashTable capacity _capacity] in Hlen.
  assert (a ≠ b) as Hne by (intros ->; congruence).
  unfold copy_ctor. rewrite Hb. cbn [mbind option_bind]. rewrite Ht.
  cbn [mbind option_bind]. unfold obj_capacity_, obj_size.
  rewrite copy_buckets_spec by done.
  eexists _, _. split; [done|]. cbn [obj_hashTable].
  split_and!; [done|done|..].
  - unfold view; cbn [obj_hashTable obj_nElements obj_capacity
      mbind option_bind]. by rewrite lookup_insert_eq.
  - unfold view. rewrite Hb. cbn [mbind option_bind].
    by rewrite lookup_insert_ne, Ht.
  - unfold destructor; cbn [obj_hashTable].
    by rewrite lookup_insert_eq, delete_insert_id.
  - unfold destructor. rewrite Hb, lookup_insert_ne, Ht by done.
    eexists. split; [done|].
    unfold view; cbn [obj_hashTable obj_nElements obj_capacity
      mbind option_bind].
    by rewrite lookup_delete_ne, lookup_insert_eq.
Qed.

(** X14: copy assignment [*this = rhs] leaves [*this] denoting the table
    of [rhs] on an array of its own, releases the array [*this] held
    before and leaves [rhs] as it was; this covers the assignment of a
    table to itself. *)
Theorem copy_assignment_replaces_the_table (a : address) (h : Heap)
    (this rhs : object) (b1 b2 : address)
    (old : list (list (KeyT * ValueT))) (m : HashMap) :
  obj_hashTable this = Some b1 → h !! b1 = Some old →
  obj_hashTable rhs = Some b2 → view h rhs = Some m →
  length (_hashTable m) = Z.to_nat (capacity m) → h !! a = None →
  ∃ h' this', copy_assign a h this rhs = Some (h', this') ∧
              obj_hashTable this' = Some a ∧
              view h' this' = Some m ∧
              h' !! b1 = None ∧
              (b1 ≠ b2 → view h' rhs = Some m) ∧
              (∀ c, c ≠ a → c ≠ b1 → h' !! c = h !! c).
Proof.
  intros Hb1 Hold Hb2 Hview Hlen Ha.
  assert (a ≠ b1) as Hne by (intros ->; congruence).
  unfold view in Hview. rewrite Hb2 in Hview.
  cbn [mbind option_bind] in Hview.
  destruct (h !! b2) as [t|] eqn:Ht; [|done]. cbn in Hview. simplify_eq.
  cbn [_hashTable capacity _capacity] in Hlen.
  unfold copy_assign, copy_ctor. rewrite Hb2. cbn [mbind option_bind].
  rewrite Ht. cbn [mbind option_bind fst snd _swap].
  unfold obj_capacity_, obj_size. rewrite copy_buckets_spec by done.
  unfold destructor. rewrite Hb1, lookup_insert_ne, Hold by done.
  cbn [mbind option_bind].
  eexists _, _. split; [done|]. cbn [obj_hashTable].
  split_and!; [done|..].
  - unfold view; cbn [obj_hashTable obj_nElements obj_capacity
      mbind option_bind].
    by rewrite lookup_delete_ne, lookup_insert_eq.
  - apply lookup_delete_eq.
  - intros Hb. unfold view. rewrite Hb2. cbn [mbind option_bind].
    assert (a ≠ b2) by (intros ->; congruence).
    by rewrite lookup_delete_ne, lookup_insert_ne, Ht.
  - intros c Hc1 Hc2. by rewrite lookup_delete_ne, lookup_insert_ne.
Qed.

End HashMap.

(** ** Concrete tables

    Keys and values are integers and the hash of a key is the key itself;
    [table1] is the default-constructed table after [insert(1, 10)], and
    [table12] after the inserts of the keys 0 to 11. *)

Local Abbreviation hashZ := (λ z : Z, z) (only parsing).
Local Abbreviation empty16 := (@HashMap_default Z Z) (only parsing).
Local Abbreviation table1 := (push_back hashZ empty16 1 10) (only parsing).
Local Abbreviation inserts n :=
  ((λ k, @op_insert Z Z k (10 * k)) <$> seqZ 0 n) (only parsing).
Local Abbreviation table12 :=
  (default empty16 (run hashZ 2 empty16 (inserts 12))) (only parsing).

Lemma table1_Inv : Inv hashZ table1.
Proof.
  split; [|by vm_compute].
  apply push_back_wf; [apply HashMap_default_Inv| |done].
  unfold HashMap_default. rewrite HashMap_new_entries. apply not_elem_of_nil.
Qed.

Lemma table12_Inv : Inv hashZ table12.
Proof.
  destruct (run_Inv hashZ 0 (inserts 12) empty16) as (m' & E & HInv & _);
    [apply HashMap_default_Inv|by vm_compute|].
  rewrite E. exact HInv.
Qed.

(** Thirteen inserts, an erase and a clear on the default-constructed
    table: the capacity ends at 32 and the load factor within the bound. *)
Lemma capacity_and_load_factor_after_calls_witness :
  Inv hashZ empty16 ∧
  ∃ m', run hashZ 2 empty16 (inserts 13 ++ [op_erase 3; op_clear]) = Some m' ∧
        capacity m' = 32 ∧ (getLoadFactor m' <= UPPER_LOAD_FACTOR)%Q.
Proof.
  split; [apply HashMap_default_Inv|].
  destruct (capacity_and_load_factor_after_calls hashZ 0 empty16
              (inserts 13 ++ [op_erase 3; op_clear]))
    as (m' & E & _ & _ & Hq & _);
    [apply HashMap_default_Inv|by vm_compute|].
  exists m'. split; [exact E|]. split; [|exact Hq].
  vm_compute in E. injection E as <-. reflexivity.
Defined.

(** The load factor leaves the interval [1/4, 3/4) away from the minimum
    capacity: 1/16 after the first insert into the default-constructed
    table, exactly 3/4 after twelve inserts, and 0 at capacity 32 after
    thirteen inserts and a clear. *)
Lemma load_factor_interval_counterexample :
  (∃ m', insert hashZ 2 empty16 1 10 = Some (true, m') ∧
         capacity m' = 16 ∧ capacity m' ≠ MIN_CAPACITY ∧
         ¬ (LOWER_LOAD_FACTOR <= getLoadFactor m')%Q) ∧
  (∃ m', run hashZ 2 empty16 (inserts 12) = Some m' ∧
         capacity m' = 16 ∧
         ¬ (getLoadFactor m' < UPPER_LOAD_FACTOR)%Q) ∧
  (∃ m', run hashZ 2 empty16 (inserts 13 ++ [op_clear]) = Some m' ∧
         capacity m' = 32 ∧
         ¬ (LOWER_LOAD_FACTOR <= getLoadFactor m')%Q).
Proof.
  split_and!.
  - exists table1. split; [by vm_compute|]. by vm_compute.
  - exists table12. split; [by vm_compute|]. by vm_compute.
  - exists (HashMap_new 32). split; [by vm_compute|]. by vm_compute.
Qed.
(** An object that owns the array of [table1] at address 1. *)
Local Abbreviation heap1 :=
  ({[ 1%positive := _hashTable table1 ]} : gmap positive (list (list (Z * Z))))
  (only parsing).
Local Abbreviation object1 := (mkObject 1 16 (Some 1%positive)) (only parsing).

(** Moving from [object1]: the new object denotes [table1] and the
    destructor of the source leaves the heap as it is. *)
Lemma move_constructor_transfers_the_array_witness :
  view heap1 object1 = Some table1 ∧
  ∃ d t', move_ctor object1 = (d, t') ∧
          view heap1 d = Some table1 ∧ destructor heap1 t' = Some heap1.
Proof.
  split; [by vm_compute|].
  destruct (move_constructor_transfers_the_array heap1 object1 1%positive
              (_hashTable table1))
    as (d & t' & E & _ & _ & _ & _ & _ & Hd & Hv); [done|by vm_compute|].
  exists d, t'. split; [exact E|]. split; [exact Hv|exact Hd].
Defined.

(** After the move the source [object1], which held one pair, still
    answers [size() = 1] and [empty() = false]. *)
Lemma moved_from_table_keeps_its_size :
  view heap1 object1 = Some table1 ∧
  ¬ (obj_size (move_ctor object1).2 = 0 ∧
     obj_empty (move_ctor object1).2 = true).
Proof.
  split; [by vm_compute|]. intros [H _]. vm_compute in H. discriminate H.
Qed.

(** The const [operator[]] of [table1] at the absent key 2. *)
Lemma const_index_of_absent_key_witness :
  empty table1 = false ∧ containsKey hashZ table1 2 = false ∧
  ∃ p rest, iterate table1 = Some (p :: rest) ∧
            index_const hashZ table1 2 = Some p.2.
Proof.
  split; [reflexivity|]. split; [reflexivity|].
  apply (const_index_of_absent_key hashZ table1 2);
    [apply table1_Inv|reflexivity|reflexivity].
Defined.

(** [insert(1, 99)] on [table1], where key 1 holds 10. *)
Lemma insert_existing_key_is_noop_witness :
  at_ hashZ table1 1 = Ok 10 ∧
  ∃ m', insert hashZ 1 table1 1 99 = Some (false, m') ∧
        at_ hashZ m' 1 = Ok 10 ∧ size m' = size table1 ∧
        capacity m' = capacity table1 ∧ m' = table1.
Proof.
  split; [reflexivity|].
  apply (insert_existing_key_is_noop hashZ 0 table1 1 10 99). reflexivity.
Defined.

(** Lookups of the present key 1 and the absent key 17 in [table1]. *)
Lemma lookups_throw_iff_absent_witness :
  at_ hashZ table1 1 = Ok 10 ∧ at_ hashZ table1 17 = Throw out_of_range ∧
  (bucketIndex hashZ table1 17 = Throw out_of_range ↔
   17 ∉ (entries table1).*1).
Proof.
  split; [reflexivity|]. split; [reflexivity|].
  apply (lookups_throw_iff_absent hashZ table1 17). apply table1_Inv.
Defined.

(** [erase(1)] on [table1]. *)
Lemma erase_present_and_absent_witness :
  containsKey hashZ table1 1 = true ∧
  ∃ m', erase hashZ 1 table1 1 = Some (true, m') ∧
        containsKey hashZ m' 1 = false.
Proof.
  split; [reflexivity|].
  apply (erase_present_and_absent hashZ 0 table1 1);
    [apply table1_Inv|reflexivity].
Defined.

(** The iteration over the twelve pairs of [table12]. *)
Lemma iteration_yields_the_table_witness :
  ∃ l, iterate table12 = Some l ∧ Z.of_nat (length l) = size table12 ∧
       NoDup l ∧ NoDup l.*1 ∧
       (∀ k v, (k, v) ∈ l ↔ at_ hashZ table12 k = Ok v).
Proof.
  apply (iteration_yields_the_table hashZ table12). apply table12_Inv.
Defined.

(** The insert of key 12 into [table12] doubles the capacity. *)
Lemma other_keys_are_preserved_witness :
  at_ hashZ table12 5 = Ok 50 ∧
  (∃ m', insert hashZ 2 table12 12 120 = Some (true, m') ∧
         capacity table12 = 16 ∧ capacity m' = 32 ∧
         at_ hashZ m' 5 = Ok 50) ∧
  (∃ b m', erase hashZ 1 table12 12 = Some (b, m') ∧
           containsKey hashZ m' 5 = true ∧ at_ hashZ m' 5 = Ok 50).
Proof.
  split; [by vm_compute|].
  destruct (other_keys_are_preserved hashZ 0 table12 12 5 120 50)
    as [(b & m' & E & _ & Hat) He]; [apply table12_Inv|done|by vm_compute|].
  split; [|exact He].
  vm_compute in E. injection E as <- <-.
  eexists. split; [by vm_compute|]. split; [by vm_compute|].
  split; [by vm_compute|exact Hat].
Defined.

Local Abbreviation pairs n := ((λ k, (k, 10 * k)) <$> seqZ 0 n) (only parsing).

(** Twenty-four inserts into the default-constructed table: capacity 16
    after the twelfth, 32 after the thirteenth and after the last. *)
Lemma one_doubling_from_16_witness :
  Inv hashZ empty16 ∧ capacity empty16 = 16 ∧
  (∃ m12, insert_all hashZ 2 empty16 (take 12 (pairs 24)) = Some m12 ∧
          capacity m12 = 16) ∧
  (∃ m13, insert_all hashZ 2 empty16 (take 13 (pairs 24)) = Some m13 ∧
          capacity m13 = 32) ∧
  (∃ m24, insert_all hashZ 2 empty16 (take 24 (pairs 24)) = Some m24 ∧
          capacity m24 = 32).
Proof.
  assert (H : ∀ i, (i ≤ 24)%nat →
    ∃ mi, insert_all hashZ 2 empty16 (take i (pairs 24)) = Some mi ∧
          size mi = size empty16 + Z.of_nat i ∧
          capacity mi = (if size empty16 + Z.of_nat i <=? 12 then 16 else 32)).
  { intros i Hi.
    apply (one_doubling_from_16 hashZ 0 empty16 (pairs 24) i).
    - apply HashMap_default_Inv.
    - reflexivity.
    - apply (bool_decide_unpack _). vm_compute. exact I.
    - intros k _. apply HashMap_default_absent.
    - vm_compute. discriminate.
    - exact Hi. }
  split; [apply HashMap_default_Inv|]. split; [reflexivity|].
  split; [|split].
  - destruct (H 12%nat) as (mi & E & _ & Hc); [lia|].
    exists mi. split; [exact E|exact Hc].
  - destruct (H 13%nat) as (mi & E & _ & Hc); [lia|].
    exists mi. split; [exact E|exact Hc].
  - destruct (H 24%nat) as (mi & E & _ & Hc); [lia|].
    exists mi. split; [exact E|exact Hc].
Defined.

(** String keys, hashed by their length. *)
Local Abbreviation hashS := (λ s : string, Z.of_nat (String.length s))
  (only parsing).

(** The bulk constructor on the keys x, x, y with the values 10, 20, 30,
    and on two keys with one value. *)
Lemma bulk_constructor_last_value_wins_witness :
  (∃ m, HashMap_from_vectors hashS 0 2 ["x"; "x"; "y"]%string [10; 20; 30]
          = Some (Ok m) ∧
        size m = 2 ∧ at_ hashS m "x"%string = Ok 20 ∧
        at_ hashS m "y"%string = Ok 30) ∧
  HashMap_from_vectors hashS 0 2 ["x"; "y"]%string [10]
    = Some (Throw invalid_argument).
Proof.
  destruct (bulk_constructor_last_value_wins hashS 0 0
              ["x"; "y"]%string [10]) as (_ & Hscenario & Hmismatch).
  split.
  - apply (Hscenario "x"%string "y"%string 10 20 30). discriminate.
  - apply Hmismatch. simpl. discriminate.
Defined.

(** ** Instances of the further properties *)

(** The insert of key 12 into [table12], which doubles the capacity. *)
Lemma insert_then_at_witness :
  containsKey hashZ table12 12 = false ∧
  ∃ m', insert hashZ 2 table12 12 120 = Some (true, m') ∧
        at_ hashZ m' 12 = Ok 120 ∧ size m' = 13.
Proof.
  split; [by vm_compute|].
  destruct (insert_then_at hashZ 0 table12 12 120)
    as (m' & E & _ & _ & Hat & Hs);
    [apply table12_Inv|by vm_compute|by vm_compute|].
  exists m'. split; [exact E|]. split; [exact Hat|exact Hs].
Defined.

Lemma insert_doubles_above_upper_bound_witness :
  capacity table12 = 16 ∧
  ∃ m', insert hashZ 2 table12 12 120 = Some (true, m') ∧ capacity m' = 32.
Proof.
  split; [by vm_compute|].
  destruct (insert_doubles_above_upper_bound hashZ 0 table12 12 120)
    as (m' & E & Hgrow & _);
    [apply table12_Inv|by vm_compute|by vm_compute|].
  exists m'. split; [exact E|]. apply Hgrow. by vm_compute.
Defined.

(** The erase of the only key of [table1], which halves the capacity. *)
Lemma erase_halves_below_lower_bound_witness :
  containsKey hashZ table1 1 = true ∧
  ∃ m', erase hashZ 1 table1 1 = Some (true, m') ∧
        size m' = 0 ∧ 2 * capacity m' = 16.
Proof.
  split; [reflexivity|].
  destruct (erase_halves_below_lower_bound hashZ 0 table1 1)
    as (m' & E & _ & Hs & _ & Hhalf & _); [apply table1_Inv|reflexivity|].
  exists m'. split; [exact E|]. split; [exact Hs|].
  apply Hhalf; by vm_compute.
Defined.

Lemma erase_undoes_insert_witness :
  containsKey hashZ table12 12 = false ∧
  ∃ m1 m2, insert hashZ 2 table12 12 120 = Some (true, m1) ∧
           erase hashZ 1 m1 12 = Some (true, m2) ∧
           size m2 = size table12 ∧
           ∀ k', at_ hashZ m2 k' = at_ hashZ table12 k'.
Proof.
  split; [by vm_compute|].
  apply (erase_undoes_insert hashZ 0 table12 12 120);
    [apply table12_Inv|by vm_compute|by vm_compute].
Defined.

Lemma clear_empties_the_table_witness :
  size (clear table12) = 0 ∧ capacity (clear table12) = capacity table12 ∧
  iterate (clear table12) = Some [].
Proof.
  destruct (clear_empties_the_table hashZ table12)
    as (_ & Hs & _ & Hc & _ & Hit); [apply table12_Inv|].
  split; [exact Hs|]. split; [exact Hc|exact Hit].
Defined.

(** [operator[]] of [table1] at the absent key 7, with 0 for [int()]. *)
Lemma index_finds_or_inserts_default_witness :
  containsKey hashZ table1 7 = false ∧
  ∃ m' em, index hashZ 0 2 table1 7 = Some (m', em) ∧
           at_ hashZ m' 7 = Ok (elem em).2 ∧ (elem em).2 = 0 ∧
           size m' = size table1 + 1.
Proof.
  split; [reflexivity|].
  destruct (index_finds_or_inserts_default hashZ 0 0 table1 7)
    as (m' & em & E & _ & _ & Hat & _ & Hnew);
    [apply table1_Inv|by vm_compute|].
  destruct (Hnew eq_refl) as (Hd & Hs & _).
  exists m', em. split; [exact E|]. split; [exact Hat|].
  split; [exact Hd|exact Hs].
Defined.

Lemma bucket_index_and_size_bounds_witness :
  containsKey hashZ table12 5 = true ∧
  ∃ i s, bucketIndex hashZ table12 5 = Ok i ∧
         bucketSize hashZ table12 5 = Ok s ∧
         0 ≤ i < capacity table12 ∧ 1 ≤ s ≤ size table12.
Proof.
  split; [by vm_compute|].
  destruct (bucket_index_and_size_bounds hashZ table12 5)
    as (i & s & Ei & Es & _ & Hi & Hs); [apply table12_Inv|by vm_compute|].
  exists i, s. split; [exact Ei|]. split; [exact Es|].
  split; [exact Hi|exact Hs].
Defined.

Lemma begin_is_end_iff_empty_witness :
  iter_eqb (begin_ table1) (end_ table1) = false.
Proof.
  rewrite (begin_is_end_iff_empty hashZ table1); [reflexivity|].
  apply table1_Inv.
Defined.

Lemma iteration_is_in_bucket_order_witness :
  iterate table12 = Some (entries table12) ∧
  ∃ bp bq, bucketIndex hashZ table12 0 = Ok bp ∧
           bucketIndex hashZ table12 11 = Ok bq ∧ bp ≤ bq.
Proof.
  split; [by vm_compute|].
  apply (iteration_is_in_bucket_order hashZ table12 (entries table12)
           0 11 (0, 0) (11, 110));
    [apply table12_Inv|by vm_compute|by vm_compute|by vm_compute|lia].
Defined.

Lemma insert_sequence_first_value_wins_witness :
  ∃ m', insert_all hashZ 2 empty16 [(1, 10); (1, 20); (2, 30)] = Some m' ∧
        at_ hashZ m' 1 = Ok 10 ∧ at_ hashZ m' 2 = Ok 30 ∧
        at_ hashZ m' 3 = Throw out_of_range.
Proof.
  destruct (insert_sequence_first_value_wins hashZ 0 empty16
              [(1, 10); (1, 20); (2, 30)])
    as (m' & E & _ & Hat & _);
    [apply HashMap_default_Inv|by vm_compute|].
  exists m'. split; [exact E|].
  split; [|split]; rewrite Hat; reflexivity.
Defined.

Lemma equals_iff_same_lookups_witness :
  ∃ b, equals hashZ table12 table1 = Some b ∧
       not_equals hashZ table12 table1 = Some (negb b) ∧
       (b = true ↔ ∀ k, at_ hashZ table12 k = at_ hashZ table1 k).
Proof.
  apply (equals_iff_same_lookups hashZ table12 table1);
    [apply table12_Inv|apply table1_Inv].
Defined.

Lemma equals_ignores_insertion_order_witness :
  ∃ m1 m2,
    insert_all hashZ 2 empty16 [(1, 10); (17, 20)] = Some m1 ∧
    insert_all hashZ 2 empty16 [(17, 20); (1, 10)] = Some m2 ∧
    equals hashZ m1 m2 = Some true ∧ equals hashZ m2 m1 = Some true.
Proof.
  apply (equals_ignores_insertion_order hashZ 0
           [(1, 10); (17, 20)] [(17, 20); (1, 10)]).
  - apply (bool_decide_unpack _). vm_compute. exact I.
  - apply perm_swap.
  - vm_compute. discriminate.
Defined.

Lemma copy_constructor_is_deep_witness :
  view heap1 object1 = Some table1 ∧
  ∃ h' c, copy_ctor 2%positive heap1 object1 = Some (h', c) ∧
          view h' c = Some table1 ∧ view h' object1 = Some table1 ∧
          destructor h' c = Some heap1.
Proof.
  split; [by vm_compute|].
  destruct (copy_constructor_is_deep 2%positive heap1 object1 1%positive
              table1)
    as (h' & c & E & _ & _ & Hc & Ho & Hd & _);
    [reflexivity|by vm_compute|reflexivity|by vm_compute|].
  exists h', c. split; [exact E|]. split; [exact Hc|].
  split; [exact Ho|exact Hd].
Defined.

(** The assignment of the table of [object1] to itself. *)
Lemma copy_assignment_replaces_the_table_witness :
  view heap1 object1 = Some table1 ∧
  ∃ h' this', copy_assign 2%positive heap1 object1 object1
                = Some (h', this') ∧
              view h' this' = Some table1 ∧ h' !! 1%positive = None.
Proof.
  split; [by vm_compute|].
  destruct (copy_assignment_replaces_the_table 2%positive heap1 object1
              object1 1%positive 1%positive (_hashTable table1) table1)
    as (h' & this' & E & _ & Hv & Hfree & _);
    [reflexivity|by vm_compute|reflexivity|by vm_compute|reflexivity
    |by vm_compute|].
  exists h', this'. split; [exact E|]. split; [exact Hv|exact Hfree].
Defined.

(** A heap with the arrays of [table1] at address 1 and of [table12] at
    address 2, and the object that owns the second. *)
Local Abbreviation heap2 :=
  (<[ 2%positive := _hashTable table12 ]> heap1) (only parsing).
Local Abbreviation object12 := (mkObject 12 16 (Some 2%positive))
  (only parsing).

Lemma move_assign_spec_witness :
  view heap2 object12 = Some table12 ∧
  ∃ this' resized',
    move_assign heap2 object1 object12
      = Some (delete 1%positive heap2, this', resized') ∧
    view (delete 1%positive heap2) this' = Some table12 ∧
    obj_hashTable resized' = None.
Proof.
  split; [by vm_compute|].
  destruct (move_assign_spec heap2 object1 object12 1%positive 2%positive
              (_hashTable table1))
    as (this' & resized' & E & Hv & Hnull & _);
    [reflexivity|reflexivity|discriminate|by vm_compute|].
  exists this', resized'. split; [exact E|]. split; [|exact Hnull].
  rewrite Hv. by vm_compute.
Defined.

(** * SpamDetector.cpp: the rank of a message

    [Filter] is [HashMap<string, int>]: the keys are strings (of bytes)
    and the values are [int]s.  [msg.find(str, pos)] is [String.index pos str msg]
    of the standard library, the lowest position not below [pos] at which
    [str] occurs in [msg] ([index_correct1] to [index_correct4]); [None] is
    [string::npos].  Positions are below the length of the message, so the
    [size_t] arithmetic on them never wraps. *)

Module SpamDetector.

Abbreviation Filter := (@HashMap string Z) (only parsing).

(** [msg.find(str, pos)] *)
Definition find (msg str : string) (pos : nat) : option nat :=
  String.index pos str msg.

(** The while loop of [rankMsg] for one phrase, from position [pos] with
    [occurrences] matches counted so far; [None] when the loop has not
    ended within the budget. *)
Fixpoint count_occurrences (budget : nat) (msg phrase : string) (pos : nat)
    (occurrences : Z) : option Z :=
  match budget with
  | O => None
  | S budget' =>
      match find msg phrase pos with
      | None => Some occurrences
      | Some pos' =>
          count_occurrences budget' msg phrase (pos' + String.length phrase)
            (wrap_int (occurrences + 1))
      end
  end.

(** The body of the range-for loop of [rankMsg] for the pair [elem]. *)
Definition rank_elem (msg : string) (rank : Z) (elem : string * Z)
  : option Z :=
  occurrences ← count_occurrences (S (String.length msg)) msg elem.1 0 0;
  Some (wrap_int (rank + wrap_int (elem.2 * occurrences))).

Definition rankMsg (msg : string) (filter : Filter) (threshold : Z)
  : option bool :=
  rank ← for_each (iteration_budget filter) filter (begin_ filter)
           (rank_elem msg) 0;
  Some (rank >=? threshold).

(** [phrase] occurs in [msg] at position [p]. *)
Definition occurs_at (msg phrase : string) (p : nat) : Prop :=
  String.substring p (String.length phrase) msg = phrase.

(** ** std::string::find *)

Lemma prefix_length (s1 s2 : string) :
  String.prefix s1 s2 = true → (String.length s1 ≤ String.length s2)%nat.
Proof.
  revert s2. induction s1 as [|c s1 IH]; intros [|d s2] H; simpl in *;
    try lia; try done.
  destruct (Ascii.ascii_dec c d); [|done]. specialize (IH _ H). lia.
Qed.

Lemma find_range (msg str : string) (pos p : nat) :
  find msg str pos = Some p →
  (pos ≤ p ∧ p + String.length str ≤ String.length msg)%nat.
Proof.
  unfold find. revert pos p.
  induction msg as [|c msg IH]; intros pos p H; cbn [String.index] in H.
  - destruct pos; [|done]. destruct str; [|done]. simplify_eq. simpl. lia.
  - destruct pos as [|pos].
    + destruct (String.prefix str (String c msg)) eqn:Hp.
      * simplify_eq. apply prefix_length in Hp. lia.
      * destruct (String.index 0 str msg) as [q|] eqn:Hq; [|done]. simplify_eq.
        destruct (IH _ _ Hq). simpl. lia.
    + destruct (String.index pos str msg) as [q|] eqn:Hq; [|done]. simplify_eq.
      destruct (IH _ _ Hq). simpl. lia.
Qed.

(** ** The loop over one phrase *)

Lemma wrap_int_add_l (a b : Z) : wrap_int (wrap_int a + b) = wrap_int (a + b).
Proof.
  unfold wrap_int. f_equal.
  replace ((a + 2 ^ 31) `mod` 2 ^ 32 - 2 ^ 31 + b + 2 ^ 31)
    with ((a + 2 ^ 31) `mod` 2 ^ 32 + b) by lia.
  rewrite Zplus_mod_idemp_l. f_equal. lia.
Qed.

Lemma count_occurrences_spec (budget : nat) (msg phrase : string) (pos : nat)
    (occ : Z) :
  phrase ≠ ""%string →
  (pos ≤ String.length msg < pos + budget)%nat →
  0 ≤ occ → occ + Z.of_nat (String.length msg) < 2 ^ 31 + Z.of_nat pos →
  ∃ n : nat,
    count_occurrences budget msg phrase pos occ = Some (occ + Z.of_nat n) ∧
    (pos + n * String.length phrase ≤ String.length msg ∨ n = 0)%nat ∧
    (n = 0%nat ↔ ∀ p, (pos ≤ p)%nat → ¬ occurs_at msg phrase p).
Proof.
  intros Hne. assert (Hlen : (1 ≤ String.length phrase)%nat)
    by (destruct phrase; [done|simpl; lia]).
  revert pos occ. induction budget as [|budget IH]; intros pos occ Hb H0 Hocc.
  - lia.
  - cbn [count_occurrences]. destruct (find msg phrase pos) as [p|] eqn:Hf.
    + pose proof (find_range _ _ _ _ Hf) as [Hp1 Hp2].
      destruct (IH (p + String.length phrase)%nat (wrap_int (occ + 1)))
        as (n & E & Hn & _); [lia|rewrite wrap_int_id by lia; lia
                             |rewrite wrap_int_id by lia; lia|].
      rewrite wrap_int_id in E by lia.
      exists (S n). rewrite wrap_int_id by lia. rewrite E. split; [f_equal; lia|]. split.
      * left. destruct Hn as [Hn| ->]; [|lia].
        cbn [Nat.mul]. lia.
      * split; [done|]. intros Hno. exfalso. apply (Hno p Hp1).
        by apply String.index_correct1 in Hf.
    + exists 0%nat. split; [f_equal; lia|]. split; [by right|].
      split; [|done]. intros _ p Hp.
      by apply (String.index_correct3 pos p phrase msg).
Qed.

(** X16: for a non-empty phrase the loop of [rankMsg] ends and counts
    occurrences that do not overlap: the count times the length of the
    phrase is at most the length of the message, and the count is 0
    exactly when the phrase occurs nowhere in the message. *)
Theorem count_occurrences_bound (msg phrase : string) :
  phrase ≠ ""%string → Z.of_nat (String.length msg) < 2 ^ 31 →
  ∃ n : nat,
    count_occurrences (S (String.length msg)) msg phrase 0 0
      = Some (Z.of_nat n) ∧
    (n * String.length phrase ≤ String.length msg)%nat ∧
    (n = 0%nat ↔ ∀ p, ¬ occurs_at msg phrase p).
Proof.
  intros Hne Hlen.
  destruct (count_occurrences_spec (S (String.length msg)) msg phrase 0 0)
    as (n & E & Hn & Hz); [done|lia|lia|lia|].
  exists n. split; [exact E|]. split.
  - destruct Hn as [?| ->]; lia.
  - rewrite Hz. split; intros H p; [apply H; lia|intros _; apply H].
Qed.

Lemma find_empty (msg : string) (pos : nat) :
  (pos ≤ String.length msg)%nat → find msg "" pos = Some pos.
Proof.
  intros Hp. unfold find. destruct (String.index pos "" msg) as [p|] eqn:E.
  - destruct (decide (p = pos)) as [->|Hne]; [done|].
    pose proof (find_range msg "" pos p E) as [H1 _].
    exfalso. apply (String.index_correct2 _ _ _ _ E pos); [lia|lia|].
    simpl. clear. revert pos. induction msg; intros [|pos]; simpl; auto.
  - apply String.index_correct4 in E. lia.
Qed.

Lemma count_occurrences_empty (budget : nat) (msg : string) (pos : nat)
    (occ : Z) :
  (pos ≤ String.length msg)%nat →
  count_occurrences budget msg "" pos occ = None.
Proof.
  revert pos occ. induction budget as [|budget IH]; intros pos occ Hp;
    [done|].
  cbn [count_occurrences]. rewrite find_empty by done.
  apply IH. simpl. lia.
Qed.

(** ** The loop over the filter *)

Lemma rank_elem_swap (msg : string) (r : Z) (x y : string * Z) :
  (r1 ← rank_elem msg r x; rank_elem msg r1 y) =
  (r1 ← rank_elem msg r y; rank_elem msg r1 x).
Proof.
  unfold rank_elem.
  destruct (count_occurrences _ msg x.1 0 0) as [cx|],
    (count_occurrences _ msg y.1 0 0) as [cy|];
    cbn [mbind option_bind]; try done.
  f_equal. rewrite !wrap_int_add_l. f_equal. lia.
Qed.

Lemma rank_fold_Permutation (msg : string) (l1 l2 : list (string * Z)) :
  l1 ≡ₚ l2 →
  ∀ r, foldM (rank_elem msg) r l1 = foldM (rank_elem msg) r l2.
Proof.
  induction 1 as [|x l1 l2 _ IH|x y l|l1 l2 l3 _ IH1 _ IH2]; intros r.
  - done.
  - cbn [foldM]. destruct (rank_elem msg r x); cbn [mbind option_bind];
      [apply IH|done].
  - cbn [foldM]. pose proof (rank_elem_swap msg r x y) as Hs.
    destruct (rank_elem msg r y) as [ry|], (rank_elem msg r x) as [rx|];
      cbn [mbind option_bind] in Hs |- *.
    + by rewrite Hs.
    + by rewrite <- Hs.
    + by rewrite Hs.
    + done.
  - by rewrite IH1.
Qed.

Lemma rankMsg_entries (std_hash : string → Z) (msg : string)
    (filter : Filter) (threshold : Z) :
  wf std_hash filter →
  rankMsg msg filter threshold =
  (rank ← foldM (rank_elem msg) 0 (entries filter);
   Some (rank >=? threshold)).
Proof.
  intros Hwf. unfold rankMsg, begin_. fold (cbegin filter).
  by rewrite (wf_for_each std_hash).
Qed.

Lemma entries_of_lookups (h1 h2 : string → Z) (f1 f2 : Filter) :
  wf h1 f1 → wf h2 f2 →
  (∀ k, at_ h1 f1 k = at_ h2 f2 k) ↔ entries f1 ≡ₚ entries f2.
Proof.
  intros Hwf1 Hwf2. split.
  - intros Hat. apply NoDup_Permutation.
    + by apply (wf_NoDup_entries h1).
    + by apply (wf_NoDup_entries h2).
    + intros [k v]. rewrite <- (at_entries h1), <- (at_entries h2) by done.
      by rewrite Hat.
  - intros Hperm k.
    destruct (at_cases h1 f1 k Hwf1) as [[E Hn]|(v & E & Hin)]; rewrite E.
    + symmetry. apply at_Throw_entries; [done|]. by rewrite <- Hperm.
    + symmetry. apply at_entries; [done|]. by rewrite <- Hperm.
Qed.

(** X17: the verdict of [rankMsg] depends only on the pairs the filter
    holds: two filters that answer [at] alike for every phrase give the
    same result on every message, whatever their hash functions,
    capacities and insertion orders. *)
Theorem rank_depends_on_the_pairs_only (h1 h2 : string → Z) (msg : string)
    (f1 f2 : Filter) (threshold : Z) :
  wf h1 f1 → wf h2 f2 → (∀ k, at_ h1 f1 k = at_ h2 f2 k) →
  rankMsg msg f1 threshold = rankMsg msg f2 threshold.
Proof.
  intros Hwf1 Hwf2 Hat.
  rewrite (rankMsg_entries h1), (rankMsg_entries h2) by done.
  by rewrite (rank_fold_Permutation msg (entries f1) (entries f2))
    by (by apply (entries_of_lookups h1 h2)).
Qed.

Lemma foldM_None {A B : Type} (f : A → B → option A) (l : list B) (x : B) :
  x ∈ l → (∀ a, f a x = None) → ∀ a, foldM f a l = None.
Proof.
  intros Hin Hx. induction l as [|y l IH]; intros a.
  - by apply elem_of_nil in Hin.
  - cbn [foldM]. apply elem_of_cons in Hin as [<-|Hin].
    + by rewrite Hx.
    + destruct (f a y); cbn [mbind option_bind]; [by apply IH|done].
Qed.

(** X18: the loop of [rankMsg] never ends on the empty phrase: [find]
    succeeds at every position and the position does not advance.
    [rankMsg] therefore has no result on a filter that holds the empty
    phrase. *)
Theorem rank_diverges_on_the_empty_phrase (std_hash : string → Z)
    (msg : string) (filter : Filter) (threshold : Z) :
  wf std_hash filter → containsKey std_hash filter ""%string = true →
  (∀ budget, count_occurrences budget msg "" 0 0 = None) ∧
  rankMsg msg filter threshold = None.
Proof.
  intros Hwf Hc. split.
  - intros budget. apply count_occurrences_empty. lia.
  - rewrite (rankMsg_entries std_hash) by done.
    apply containsKey_entries in Hc; [|done].
    apply list_elem_of_fmap in Hc as ([k v] & Hk & Hin). simpl in Hk. subst k.
    rewrite (foldM_None _ _ (""%string, v) Hin); [done|].
    intros r. unfold rank_elem. cbn [fst].
    by rewrite count_occurrences_empty by lia.
Qed.

(** X19: when no phrase of the filter occurs in the message, the rank is 0
    and [rankMsg] returns whether the threshold is at most 0. *)
Theorem rank_of_a_clean_message (std_hash : string → Z) (msg : string)
    (filter : Filter) (threshold : Z) :
  wf std_hash filter → Z.of_nat (String.length msg) < 2 ^ 31 →
  (∀ k v, at_ std_hash filter k = Ok v → ∀ p, ¬ occurs_at msg k p) →
  rankMsg msg filter threshold = Some (0 >=? threshold).
Proof.
  intros Hwf Hlen Hclean. rewrite (rankMsg_entries std_hash) by done.
  assert (Hall : ∀ p, p ∈ entries filter → rank_elem msg 0 p = Some 0).
  { intros [k v] Hin. apply (at_entries std_hash) in Hin; [|done].
    assert (k ≠ ""%string) as Hne.
    { intros ->. apply (Hclean _ _ Hin 0%nat). unfold occurs_at.
      by destruct msg. }
    destruct (count_occurrences_spec (S (String.length msg)) msg k 0 0)
      as (n & E & _ & Hz); [done|lia|lia|lia|].
    unfold rank_elem. cbn [fst snd]. rewrite E. cbn [mbind option_bind].
    rewrite (proj2 Hz) by (intros p _; by apply (Hclean _ _ Hin)).
    by rewrite Z.mul_0_r. }
  induction (entries filter) as [|p l IH]; [done|].
  cbn [foldM]. rewrite Hall by (by left). cbn [mbind option_bind].
  apply IH. intros q Hq. apply Hall. by right.
Qed.

(** ** Instances

    Filters of one phrase, built with two hash functions. *)

Local Abbreviation hash_length := (λ s : string, Z.of_nat (String.length s))
  (only parsing).
Local Abbreviation hash_zero := (λ _ : string, 0) (only parsing).
Local Abbreviation one_phrase h phrase score :=
  (push_back h (@HashMap_default string Z) phrase score) (only parsing).

Lemma one_phrase_wf (h : string → Z) (phrase : string) (score : Z) :
  wf h (one_phrase h phrase score).
Proof.
  apply push_back_wf; [apply HashMap_default_Inv| |done].
  unfold HashMap_default. rewrite HashMap_new_entries. apply not_elem_of_nil.
Qed.

Lemma count_occurrences_bound_witness :
  ∃ n : nat, count_occurrences 4 "aaa" "aa" 0 0 = Some (Z.of_nat n) ∧
             (n * 2 ≤ 3)%nat.
Proof.
  destruct (count_occurrences_bound "aaa" "aa") as (n & E & Hn & _);
    [discriminate|simpl; lia|].
  exists n. split; [exact E|exact Hn].
Defined.

Lemma rank_depends_on_the_pairs_only_witness :
  rankMsg "buy spam, more spam" (one_phrase hash_length "spam" 5) 10 =
  rankMsg "buy spam, more spam" (one_phrase hash_zero "spam" 5) 10.
Proof.
  apply (rank_depends_on_the_pairs_only hash_length hash_zero);
    [apply one_phrase_wf|apply one_phrase_wf|].
  apply entries_of_lookups; [apply one_phrase_wf|apply one_phrase_wf|].
  by vm_compute.
Defined.

Lemma rank_diverges_on_the_empty_phrase_witness :
  rankMsg "any message" (one_phrase hash_length "" 1) 1 = None.
Proof.
  apply (rank_diverges_on_the_empty_phrase hash_length);
    [apply one_phrase_wf|reflexivity].
Defined.

Lemma rank_of_a_clean_message_witness :
  rankMsg "hello" (one_phrase hash_length "spam" 5) 1 = Some false.
Proof.
  apply (rank_of_a_clean_message hash_length "hello"
           (one_phrase hash_length "spam" 5) 1);
    [apply one_phrase_wf|simpl; lia|].
  intros k v Hat. apply at_entries in Hat; [|apply one_phrase_wf].
  vm_compute in Hat. apply list_elem_of_singleton in Hat. simplify_eq.
  intros p. unfold occurs_at.
  do 6 (destruct p as [|p]; [vm_compute; discriminate|]).
  vm_compute. discriminate.
Defined.

End SpamDetector.

(** * Fractal.h, Fractal.cpp: the boards of the three fractals

    The class hierarchy under [Fractal] has three leaves that differ in the
    dimension factor, in [createBaseCase] and in [gapCondition]; a value of
    [SupportedTypes] selects the leaf, and the virtual calls are matches on
    it.  The board [_outputBoard] ([vector<string>]) is a list of rows, a
    row a list of characters.  An access outside the board and a thrown
    [std::out_of_range] both leave no board ([None]), and so does a loop
    or a recursion that has not ended within its budget.
    [pow(dimFactor, dim)] converted to [int] is the integer power (0 for
    a negative [dim]); the conversion is defined while the power fits an
    [int], and the theorems on the drawn board assume that it does. *)

Module Fractal.

Import Stdlib.Strings.Ascii.

Definition CARPET_DIM_FACTOR : Z := 3.
Definition CARPET_FILL : list ascii := ["#"; "#"; "#"]%char.
Definition CARPET_GAP : list ascii := ["#"; " "; "#"]%char.
Definition TRIANGLE_DIM_FACTOR : Z := 2.
Definition TRIANGLE_FILL : list ascii := ["#"; "#"]%char.
Definition TRIANGLE_GAP : list ascii := ["#"; " "]%char.
Definition VICSEK_DIM_FACTOR : Z := 3.
Definition VICSEK_FILL : list ascii := ["#"; " "; "#"]%char.
Definition VICSEK_GAP : list ascii := [" "; "#"; " "]%char.

Inductive SupportedTypes : Type :=
  | SIERPINSKI_CARPET
  | SIERPINSKI_TRIANGLE
  | VICSEK_FRACTAL.

Abbreviation Board := (list (list ascii)) (only parsing).

(** The member [_dimFactor] that the constructor of each leaf passes. *)
Definition dimFactor (t : SupportedTypes) : Z :=
  match t with
  | SIERPINSKI_CARPET => CARPET_DIM_FACTOR
  | SIERPINSKI_TRIANGLE => TRIANGLE_DIM_FACTOR
  | VICSEK_FRACTAL => VICSEK_DIM_FACTOR
  end.

(** [gapCondition]: the default of [Fractal], overridden by
    [VicsekFractal]. *)
Definition gapCondition (t : SupportedTypes) (i j subSize : Z) : bool :=
  match t with
  | VICSEK_FRACTAL => negb (i =? j) && ((i =? subSize) || (j =? subSize))
  | _ => (i =? subSize) && (j =? subSize)
  end.

(** [s.replace(pos, len, str)]: [std::out_of_range] when [pos] exceeds the
    size of [s] (a negative [int] converts to a [size_t] beyond any size). *)
Definition replace (s : list ascii) (pos len : Z) (str : list ascii)
  : option (list ascii) :=
  if (pos <? 0) || (Z.of_nat (length s) <? pos) then None
  else Some (take (Z.to_nat pos) s ++ str ++ drop (Z.to_nat (pos + len)) s).

(** [_outputBoard[row].replace(col, len, str)] *)
Definition replace_row (board : Board) (row col len : Z) (str : list ascii)
  : option Board :=
  if row <? 0 then None
  else
    s ← board !! Z.to_nat row;
    s' ← replace s col len str;
    Some (<[Z.to_nat row := s']> board).

Definition createBaseCase (t : SupportedTypes) (row col : Z) (board : Board)
  : option Board :=
  match t with
  | SIERPINSKI_CARPET =>
      b1 ← replace_row board row col CARPET_DIM_FACTOR CARPET_FILL;
      b2 ← replace_row b1 (wrap_int (row + 1)) col CARPET_DIM_FACTOR CARPET_GAP;
      replace_row b2 (wrap_int (row + 2)) col CARPET_DIM_FACTOR CARPET_FILL
  | SIERPINSKI_TRIANGLE =>
      b1 ← replace_row board row col TRIANGLE_DIM_FACTOR TRIANGLE_FILL;
      replace_row b1 (wrap_int (row + 1)) col TRIANGLE_DIM_FACTOR TRIANGLE_GAP
  | VICSEK_FRACTAL =>
      b1 ← replace_row board row col VICSEK_DIM_FACTOR VICSEK_FILL;
      b2 ← replace_row b1 (wrap_int (row + 1)) col VICSEK_DIM_FACTOR VICSEK_GAP;
      replace_row b2 (wrap_int (row + 2)) col VICSEK_DIM_FACTOR VICSEK_FILL
  end.

(** [for (int i = start; i < bound; i += step) acc = body(i, acc)] *)
Fixpoint for_step {A : Type} (budget : nat) (i bound step : Z)
    (body : Z → A → option A) (acc : A) : option A :=
  match budget with
  | O => None
  | S budget' =>
      if i <? bound then
        acc' ← body i acc;
        for_step budget' (wrap_int (i + step)) bound step body acc'
      else Some acc
  end.

(** [Fractal::build].  The recursion and the two loops share the budget
    [depth]: a loop needs one step more than the dimension factor, the
    recursion one level for each dimension. *)
Fixpoint build (depth : nat) (t : SupportedTypes) (dim fractalSize row col : Z)
    (board : Board) : option Board :=
  match depth with
  | O => None
  | S depth' =>
      if dim =? 1 then createBaseCase t row col board
      else
        let subSize := fractalSize `quot` dimFactor t in
        for_step depth 0 fractalSize subSize
          (λ i b,
             for_step depth 0 fractalSize subSize
               (λ j b',
                  if gapCondition t i j subSize then Some b'
                  else build depth' t (wrap_int (dim - 1)) subSize
                         (wrap_int (row + i)) (wrap_int (col + j)) b')
               b)
          board
  end.

(** The constructor of [Fractal]: a board of [_boardDim] rows of
    [_boardDim] spaces. *)
Definition Fractal_new (dim dimFactor : Z) : Board :=
  let boardDim := dimFactor ^ dim in
  replicate (Z.to_nat boardDim) (replicate (Z.to_nat boardDim) " "%char).

(** The constructors of the three leaves: the board after
    [build(dim, _outputBoard.size(), 0, 0)]. *)
Definition Fractal_of (depth : nat) (t : SupportedTypes) (dim : Z)
  : option Board :=
  let board := Fractal_new dim (dimFactor t) in
  build depth t dim (wrap_int (Z.of_nat (length board))) 0 0 board.

(** The character at row [r] and column [c] of a board. *)
Definition cell (board : Board) (r c : Z) : option ascii :=
  row ← board !! Z.to_nat r; row !! Z.to_nat c.

(** The block at block-row [bi] and block-column [bj] of a subdivision is
    drawn, and not skipped as a gap. *)
Definition kept (t : SupportedTypes) (bi bj : Z) : bool :=
  negb (gapCondition t bi bj 1).

(** The fractal of [n] levels has a mark at row [r] and column [c]: at
    every scale the block that holds the position is a kept one. *)
Fixpoint pattern (t : SupportedTypes) (n : nat) (r c : Z) : bool :=
  match n with
  | O => true
  | S n' =>
      let s := dimFactor t ^ Z.of_nat n' in
      kept t (r `div` s) (c `div` s) && pattern t n' (r `mod` s) (c `mod` s)
  end.

Definition pixel (mark : bool) : ascii := if mark then "#"%char else " "%char.

(** A board of [H] rows of [W] characters each. *)
Definition shape (board : Board) (H W : Z) : Prop :=
  Z.of_nat (length board) = H
  ∧ Forall (λ row, Z.of_nat (length row) = W) board.

(** The square of side [size] whose upper left corner is at [row],
    [col]. *)
Definition in_block (row col size r c : Z) : Prop :=
  (row ≤ r < row + size) ∧ (col ≤ c < col + size).

(** The board [b'] while [build] draws [n + 1] levels in the square at
    [row], [col] of the board [b]: of the blocks of side [dimFactor ^ n],
    counted row by row, the first [p] are done. *)
Definition drawn_blocks (t : SupportedTypes) (n : nat) (b : Board)
    (H W row col p : Z) (b' : Board) : Prop :=
  let f := dimFactor t in
  let s := f ^ Z.of_nat n in
  shape b' H W
  ∧ ∀ r c, 0 ≤ r → 0 ≤ c →
      cell b' r c =
        if bool_decide (in_block row col (f * s) r c
                        ∧ (r - row) `div` s * f + (c - col) `div` s < p
                        ∧ kept t ((r - row) `div` s) ((c - col) `div` s) = true)
        then Some (pixel (pattern t n ((r - row) `mod` s) ((c - col) `mod` s)))
        else cell b r c.

(** ** Rows and blocks *)

Lemma shape_lookup (b : Board) (H W r : Z) :
  shape b H W → 0 ≤ r < H →
  ∃ s, b !! Z.to_nat r = Some s ∧ Z.of_nat (length s) = W.
Proof.
  intros [Hlen Hall] Hr.
  destruct (lookup_lt_is_Some_2 b (Z.to_nat r)) as [s Hs]; [lia|].
  exists s. split; [done|].
  by apply (proj1 (Forall_lookup _ _) Hall _ _ Hs).
Qed.

Lemma replace_row_spec (b : Board) (H W row col : Z) (str : list ascii) :
  shape b H W → 0 ≤ row < H → 0 ≤ col → col + Z.of_nat (length str) ≤ W →
  ∃ b', replace_row b row col (Z.of_nat (length str)) str = Some b'
    ∧ shape b' H W
    ∧ ∀ r c, 0 ≤ r → 0 ≤ c →
        cell b' r c =
          if bool_decide (r = row ∧ col ≤ c < col + Z.of_nat (length str))
          then str !! Z.to_nat (c - col)
          else cell b r c.
Proof.
  intros Hb Hrow Hcol Hfit.
  destruct (shape_lookup b H W row Hb Hrow) as (s & Hs & Hlen).
  unfold replace_row, replace.
  destruct (Z.ltb_spec row 0) as [?|_]; [lia|].
  rewrite Hs. cbn [mbind option_bind].
  destruct (Z.ltb_spec col 0) as [?|_]; [lia|].
  destruct (Z.ltb_spec (Z.of_nat (length s)) col) as [?|_]; [lia|].
  cbn [orb mbind option_bind].
  eexists. split; [done|].
  set (s' := take (Z.to_nat col) s ++ str
               ++ drop (Z.to_nat (col + Z.of_nat (length str))) s).
  assert (length s' = length s) as Hlen'.
  { unfold s'. rewrite !length_app, length_take, length_drop. lia. }
  destruct Hb as [HH Hall]. split.
  - split; [by rewrite length_insert|].
    apply Forall_insert; [done|]. by rewrite Hlen'.
  - intros r c Hr Hc. unfold cell.
    destruct (decide (r = row)) as [->|Hne].
    + rewrite list_lookup_insert_eq by lia. rewrite Hs.
      cbn [mbind option_bind].
      case_bool_decide as Hin.
      * destruct Hin as [_ Hin]. unfold s'.
        rewrite lookup_app_r by (rewrite length_take; lia).
        rewrite lookup_app_l by (rewrite length_take; lia).
        f_equal. rewrite length_take. lia.
      * unfold s'.
        destruct (Z.lt_ge_cases c col) as [Hlt|Hge].
        -- rewrite lookup_app_l by (rewrite length_take; lia).
           apply lookup_take_lt. lia.
        -- rewrite lookup_app_r by (rewrite length_take; lia).
           rewrite lookup_app_r by (rewrite length_take; lia).
           rewrite lookup_drop. f_equal. rewrite length_take. lia.
    + rewrite list_lookup_insert_ne by lia.
      case_bool_decide as Hin; [|done]. lia.
Qed.

Local Ltac row_step b H W row col str b' Hb' Hc' :=
  let E := fresh "E" in
  destruct (replace_row_spec b H W row col str) as (b' & E & Hb' & Hc');
  [done|lia|lia|cbn; lia|];
  let n := eval vm_compute in (Z.of_nat (length str)) in
  change (Z.of_nat (length str)) with n in E, Hc';
  rewrite E; cbn [mbind option_bind].

Local Ltac block_cases :=
  unfold in_block; repeat case_bool_decide; try lia; try done;
  match goal with
  | |- context [pixel (kept _ (?r - ?row) (?c - ?col))] =>
      assert (r - row = 0 ∨ r - row = 1 ∨ r - row = 2) as [Hdr|[Hdr|Hdr]]
        by lia;
      assert (c - col = 0 ∨ c - col = 1 ∨ c - col = 2) as [Hdc|[Hdc|Hdc]]
        by lia;
      rewrite Hdr, Hdc; try lia; done
  end.

Lemma createBaseCase_spec (t : SupportedTypes) (b : Board) (H W row col : Z) :
  shape b H W → H ≤ INT_MAX →
  0 ≤ row → row + dimFactor t ≤ H → 0 ≤ col → col + dimFactor t ≤ W →
  ∃ b', createBaseCase t row col b = Some b'
    ∧ shape b' H W
    ∧ ∀ r c, 0 ≤ r → 0 ≤ c →
        cell b' r c =
          if bool_decide (in_block row col (dimFactor t) r c)
          then Some (pixel (kept t (r - row) (c - col)))
          else cell b r c.
Proof.
  intros Hb HH Hrow Hrow' Hcol Hcol'. unfold INT_MAX in HH.
  unfold createBaseCase.
  destruct t; cbn [dimFactor] in *;
    unfold CARPET_DIM_FACTOR, TRIANGLE_DIM_FACTOR, VICSEK_DIM_FACTOR in *;
    rewrite ?wrap_int_id by lia.
  - row_step b H W row col CARPET_FILL b1 Hb1 Hc1.
    row_step b1 H W (row + 1) col CARPET_GAP b2 Hb2 Hc2.
    row_step b2 H W (row + 2) col CARPET_FILL b3 Hb3 Hc3.
    exists b3. split; [done|]. split; [done|].
    intros r c Hr Hc. rewrite Hc3, Hc2, Hc1 by done. block_cases.
  - row_step b H W row col TRIANGLE_FILL b1 Hb1 Hc1.
    row_step b1 H W (row + 1) col TRIANGLE_GAP b2 Hb2 Hc2.
    exists b2. split; [done|]. split; [done|].
    intros r c Hr Hc. rewrite Hc2, Hc1 by done. block_cases.
  - row_step b H W row col VICSEK_FILL b1 Hb1 Hc1.
    row_step b1 H W (row + 1) col VICSEK_GAP b2 Hb2 Hc2.
    row_step b2 H W (row + 2) col VICSEK_FILL b3 Hb3 Hc3.
    exists b3. split; [done|]. split; [done|].
    intros r c Hr Hc. rewrite Hc3, Hc2, Hc1 by done. block_cases.
Qed.

(** ** The loops of [build] *)

(** A loop with a positive step over a multiple of the step runs its body
    at the multiples below the bound, within a budget above their
    number. *)
Lemma for_step_seq {A : Type} (body : Z → A → option A) (step : Z) (k : nat) :
  0 < step → Z.of_nat k * step ≤ INT_MAX →
  ∀ (n budget i : nat) (acc : A),
    (i + n = k)%nat → (n < budget)%nat →
    for_step budget (Z.of_nat i * step) (Z.of_nat k * step) step body acc
    = foldM (λ a j, body (Z.of_nat j * step) a) acc (seq i n).
Proof.
  intros Hstep Hmax. unfold INT_MAX in Hmax.
  induction n as [|n IH]; intros budget i acc Hk Hb;
    (destruct budget as [|budget]; [lia|]); cbn [for_step seq foldM].
  - destruct (Z.ltb_spec (Z.of_nat i * step) (Z.of_nat k * step)) as [Hlt|_];
      [|done].
    replace k with i in Hlt by lia. lia.
  - destruct (Z.ltb_spec (Z.of_nat i * step) (Z.of_nat k * step)) as [_|Hge].
    + destruct (body _ acc) as [acc'|]; [|done]. cbn [mbind option_bind].
      assert (Z.of_nat i * step + step = Z.of_nat (S i) * step) as -> by lia.
      rewrite wrap_int_id by nia.
      apply IH; lia.
    + nia.
Qed.

(** A loop whose step is not positive never leaves a bound above its
    start, whatever its budget. *)
Lemma for_step_stuck {A : Type} (body : Z → A → option A) (i bound : Z) :
  i < bound → - 2 ^ 31 ≤ i < 2 ^ 31 →
  ∀ (budget : nat) (acc : A), for_step budget i bound 0 body acc = None.
Proof.
  intros Hlt Hi. induction budget as [|budget IH]; intros acc; [done|].
  cbn [for_step]. destruct (Z.ltb_spec i bound) as [_|?]; [|lia].
  destruct (body i acc) as [acc'|]; [|done]. cbn [mbind option_bind].
  rewrite Z.add_0_r, wrap_int_id by done. apply IH.
Qed.

Lemma foldM_seq_inv {A : Type} (P : nat → A → Prop)
    (body : A → nat → option A) :
  ∀ (n i : nat) (acc : A),
    (∀ j a, (i ≤ j < i + n)%nat → P j a → ∃ a', body a j = Some a' ∧ P (S j) a') →
    P i acc →
    ∃ acc', foldM body acc (seq i n) = Some acc' ∧ P (i + n)%nat acc'.
Proof.
  induction n as [|n IH]; intros i acc Hstep Hacc; cbn [seq foldM].
  - exists acc. by rewrite Nat.add_0_r.
  - destruct (Hstep i acc) as (a' & -> & Ha'); [lia|done|].
    cbn [mbind option_bind].
    destruct (IH (S i) a') as (acc' & E & Hacc'); [|done|].
    + intros j a Hj. apply Hstep. lia.
    + exists acc'. split; [done|]. by replace (i + S n)%nat with (S i + n)%nat by lia.
Qed.

(** ** Blocks of a subdivision *)

Lemma div_block (s x q : Z) : 0 < s → (q * s ≤ x < q * s + s) ↔ x `div` s = q.
Proof.
  intros Hs. split.
  - intros Hx. symmetry. apply (Z.div_unique_pos x s q (x - q * s)); lia.
  - intros <-. pose proof (Z.mod_pos_bound x s Hs).
    pose proof (Z.div_mod x s). lia.
Qed.

Lemma mod_block (s x : Z) : 0 < s → x `mod` s = x - x `div` s * s.
Proof. intros Hs. rewrite Z.mod_eq by lia. lia. Qed.

Lemma gapCondition_scale (t : SupportedTypes) (bi bj s : Z) :
  0 < s → gapCondition t (bi * s) (bj * s) s = gapCondition t bi bj 1.
Proof.
  intros Hs.
  assert (∀ x, (x * s =? s) = (x =? 1)) as E1.
  { intros x. destruct (Z.eqb_spec x 1) as [->|Hne].
    - apply Z.eqb_eq. lia.
    - apply Z.eqb_neq. nia. }
  assert ((bi * s =? bj * s) = (bi =? bj)) as E2.
  { destruct (Z.eqb_spec bi bj) as [->|Hne].
    - apply Z.eqb_eq. lia.
    - apply Z.eqb_neq. nia. }
  destruct t; cbn [gapCondition]; by rewrite ?E1, ?E2.
Qed.

Lemma dimFactor_cases (t : SupportedTypes) : dimFactor t = 2 ∨ dimFactor t = 3.
Proof. destruct t; auto. Qed.

Lemma dimFactor_pow_pos (t : SupportedTypes) (n : nat) :
  0 < dimFactor t ^ Z.of_nat n.
Proof. apply Z.pow_pos_nonneg; [destruct t; done|lia]. Qed.

Lemma dimFactor_pow_S (t : SupportedTypes) (n : nat) :
  dimFactor t ^ Z.of_nat (S n) = dimFactor t * dimFactor t ^ Z.of_nat n.
Proof. rewrite Nat2Z.inj_succ, Z.pow_succ_r by lia. done. Qed.

Lemma dim_lt_pow (t : SupportedTypes) (n : nat) :
  Z.of_nat n < dimFactor t ^ Z.of_nat n.
Proof.
  induction n as [|n IH]; [done|].
  rewrite dimFactor_pow_S.
  pose proof (dimFactor_pow_pos t n).
  set (x := dimFactor t ^ Z.of_nat n) in *.
  destruct (dimFactor_cases t) as [->| ->]; lia.
Qed.

Lemma for_step_inv {A : Type} (P : nat → A → Prop) (body : Z → A → option A)
    (step bound : Z) (k budget : nat) (acc : A) :
  0 < step → bound = Z.of_nat k * step → bound ≤ INT_MAX → (k < budget)%nat →
  (∀ j a, (j < k)%nat → P j a →
     ∃ a', body (Z.of_nat j * step) a = Some a' ∧ P (S j) a') →
  P 0%nat acc →
  ∃ acc', for_step budget 0 bound step body acc = Some acc' ∧ P k acc'.
Proof.
  intros Hstep -> Hmax Hk Hbody Hacc.
  pose proof (for_step_seq body step k Hstep Hmax k budget 0%nat acc) as E.
  change (Z.of_nat 0 * step) with 0 in E. rewrite E by lia.
  apply (foldM_seq_inv P (λ a j, body (Z.of_nat j * step) a) k 0%nat acc);
    [|done].
  intros j a Hj. apply Hbody. lia.
Qed.

Lemma block_of (f s x : Z) : 0 < s → 0 ≤ x < f * s → 0 ≤ x `div` s < f.
Proof.
  intros Hs Hx. split; [apply Z.div_pos; lia|].
  apply Z.div_lt_upper_bound; lia.
Qed.

Lemma in_sub_block (f s row col bi bj r c : Z) :
  0 < s → 0 ≤ bi < f → 0 ≤ bj < f →
  in_block (row + bi * s) (col + bj * s) s r c
  ↔ in_block row col (f * s) r c
    ∧ (r - row) `div` s = bi ∧ (c - col) `div` s = bj.
Proof.
  intros Hs Hbi Hbj. unfold in_block.
  rewrite <- !(div_block s) by done.
  assert (0 ≤ bi * s ∧ bi * s + s ≤ f * s) by nia.
  assert (0 ≤ bj * s ∧ bj * s + s ≤ f * s) by nia.
  lia.
Qed.

Lemma if_bool_decide_ext {A : Type} (P Q : Prop) `{!Decision P, !Decision Q}
    (x y : A) :
  (P ↔ Q) →
  (if bool_decide P then x else y) = (if bool_decide Q then x else y).
Proof. intros HPQ. by rewrite (bool_decide_ext P Q HPQ). Qed.

Section subdivision.
Variables (t : SupportedTypes) (n : nat) (b : Board) (H W row col : Z).

Let f := dimFactor t.
Let s := f ^ Z.of_nat n.

Hypothesis blank :
  ∀ r c, in_block row col (f * s) r c → cell b r c = Some " "%char.
Hypothesis row_col : 0 ≤ row ∧ 0 ≤ col.

Lemma drawn_blocks_start : shape b H W → drawn_blocks t n b H W row col 0 b.
Proof.
  intros Hb. split; [done|]. intros r c Hr Hc. fold f s.
  case_bool_decide as Hin; [|done].
  destruct Hin as (Hin & Hp & _).
  pose proof (dimFactor_pow_pos t n) as Hs. fold f s in Hs.
  destruct Hin as [Hx Hy].
  pose proof (block_of f s (r - row) Hs ltac:(lia)).
  pose proof (block_of f s (c - col) Hs ltac:(lia)).
  destruct (dimFactor_cases t) as [Ef|Ef]; fold f in Ef; rewrite Ef in *; lia.
Qed.

Lemma drawn_blocks_blank (p bi bj : Z) (bk : Board) :
  drawn_blocks t n b H W row col p bk →
  p = bi * f + bj → 0 ≤ bi < f → 0 ≤ bj < f →
  ∀ r c, in_block (row + bi * s) (col + bj * s) s r c →
    cell bk r c = Some " "%char.
Proof.
  intros [_ Hcell] -> Hbi Hbj r c Hin.
  pose proof (dimFactor_pow_pos t n) as Hs. fold f s in Hs.
  apply (in_sub_block f) in Hin as (Hin & Hx & Hy); [|done..].
  assert (0 ≤ r ∧ 0 ≤ c) as [Hr Hc] by (unfold in_block in Hin; lia).
  rewrite Hcell by done. fold f s.
  case_bool_decide as Hd; [lia|]. by apply blank.
Qed.

Lemma drawn_blocks_skip (p bi bj : Z) (bk : Board) :
  drawn_blocks t n b H W row col p bk →
  p = bi * f + bj → 0 ≤ bi < f → 0 ≤ bj < f →
  kept t bi bj = false →
  drawn_blocks t n b H W row col (p + 1) bk.
Proof.
  intros [Hshape Hcell] -> Hbi Hbj Hgap. split; [done|].
  intros r c Hr Hc. rewrite Hcell by done. fold f s.
  pose proof (dimFactor_pow_pos t n) as Hs. fold f s in Hs.
  apply if_bool_decide_ext. split.
  - intros (Hin & Hp & Hk). split; [done|]. split; [lia|done].
  - intros (Hin & Hp & Hk). split; [done|]. split; [|done].
    destruct Hin as [Hx Hy].
    pose proof (block_of f s (r - row) Hs ltac:(lia)).
    pose proof (block_of f s (c - col) Hs ltac:(lia)).
    assert (¬ ((r - row) `div` s = bi ∧ (c - col) `div` s = bj)).
    { intros [E1 E2]. rewrite E1, E2 in Hk. congruence. }
    destruct (dimFactor_cases t) as [Ef|Ef]; fold f in Ef; rewrite Ef in *;
      lia.
Qed.

Lemma drawn_blocks_fill (p bi bj : Z) (bk b' : Board) :
  drawn_blocks t n b H W row col p bk →
  p = bi * f + bj → 0 ≤ bi < f → 0 ≤ bj < f →
  kept t bi bj = true →
  shape b' H W →
  (∀ r c, 0 ≤ r → 0 ≤ c →
     cell b' r c =
       if bool_decide (in_block (row + bi * s) (col + bj * s) s r c)
       then Some (pixel (pattern t n (r - (row + bi * s)) (c - (col + bj * s))))
       else cell bk r c) →
  drawn_blocks t n b H W row col (p + 1) b'.
Proof.
  intros [_ Hcell] -> Hbi Hbj Hkept Hshape Hcell'. split; [done|].
  intros r c Hr Hc. rewrite Hcell', Hcell by done. fold f s.
  pose proof (dimFactor_pow_pos t n) as Hs. fold f s in Hs.
  pose proof (in_sub_block f s row col bi bj r c Hs Hbi Hbj) as Hsub.
  case_bool_decide as Hin.
  - apply Hsub in Hin as (Hin & Hx & Hy).
    rewrite bool_decide_true.
    + rewrite !mod_block by done. rewrite Hx, Hy.
      do 3 f_equal; lia.
    + rewrite Hx, Hy. split; [done|]. split; [lia|done].
  - apply if_bool_decide_ext. split.
    + intros (Hb & Hp & Hk). split; [done|]. split; [lia|done].
    + intros (Hb & Hp & Hk). split; [done|]. split; [|done].
      assert (¬ ((r - row) `div` s = bi ∧ (c - col) `div` s = bj)) by tauto.
      destruct Hb as [Hx Hy].
      pose proof (block_of f s (r - row) Hs ltac:(lia)).
      pose proof (block_of f s (c - col) Hs ltac:(lia)).
      destruct (dimFactor_cases t) as [Ef|Ef]; fold f in Ef; rewrite Ef in *;
        lia.
Qed.

Lemma drawn_blocks_all (b' : Board) :
  drawn_blocks t n b H W row col (f * f) b' →
  ∀ r c, 0 ≤ r → 0 ≤ c →
    cell b' r c =
      if bool_decide (in_block row col (f * s) r c)
      then Some (pixel (pattern t (S n) (r - row) (c - col)))
      else cell b r c.
Proof.
  intros [_ Hcell] r c Hr Hc. rewrite Hcell by done. fold f s.
  pose proof (dimFactor_pow_pos t n) as Hs. fold f s in Hs.
  cbn [pattern]. fold f s.
  case_bool_decide as Hd.
  - destruct Hd as (Hin & _ & Hk). rewrite bool_decide_true by done.
    by rewrite Hk.
  - case_bool_decide as Hin; [|done].
    destruct (kept t ((r - row) `div` s) ((c - col) `div` s)) eqn:Hk.
    + exfalso. apply Hd. split; [done|]. split; [|done].
      destruct Hin as [Hx Hy].
      pose proof (block_of f s (r - row) Hs ltac:(lia)).
      pose proof (block_of f s (c - col) Hs ltac:(lia)).
      destruct (dimFactor_cases t) as [Ef|Ef]; fold f in Ef; rewrite Ef in *;
        lia.
    + cbn [andb pixel]. by apply blank.
Qed.
End subdivision.

(** ** [build] *)

Lemma build_spec (t : SupportedTypes) (H W : Z) :
  H ≤ INT_MAX → W ≤ INT_MAX →
  ∀ (n depth : nat) (b : Board) (row col : Z),
    (n + 3 < depth)%nat →
    shape b H W →
    0 ≤ row → row + dimFactor t ^ Z.of_nat (S n) ≤ H →
    0 ≤ col → col + dimFactor t ^ Z.of_nat (S n) ≤ W →
    (∀ r c, in_block row col (dimFactor t ^ Z.of_nat (S n)) r c →
       cell b r c = Some " "%char) →
    ∃ b', build depth t (Z.of_nat (S n)) (dimFactor t ^ Z.of_nat (S n))
            row col b = Some b'
      ∧ shape b' H W
      ∧ ∀ r c, 0 ≤ r → 0 ≤ c →
          cell b' r c =
            if bool_decide (in_block row col (dimFactor t ^ Z.of_nat (S n)) r c)
            then Some (pixel (pattern t (S n) (r - row) (c - col)))
            else cell b r c.
Proof.
  intros HH HW. unfold INT_MAX in HH, HW.
  induction n as [|n IH]; intros depth b row col Hdepth Hb Hrow Hrow' Hcol Hcol'
    Hblank; (destruct depth as [|depth]; [lia|]).
  - change (dimFactor t ^ Z.of_nat 1) with (dimFactor t ^ 1) in *.
    rewrite Z.pow_1_r in *. cbn [build].
    change (Z.of_nat 1 =? 1) with true. cbn match.
    destruct (createBaseCase_spec t b H W row col) as (b' & E & Hb' & Hcell);
      [done|unfold INT_MAX; lia|done..|].
    exists b'. split; [done|]. split; [done|].
    intros r c Hr Hc. rewrite Hcell by done.
    cbn [pattern]. change (dimFactor t ^ Z.of_nat 0) with 1.
    by rewrite !Z.div_1_r, andb_true_r.
  - set (f := dimFactor t) in *. set (s := f ^ Z.of_nat (S n)) in *.
    assert (f ^ Z.of_nat (S (S n)) = f * s) as Efs
      by apply dimFactor_pow_S.
    rewrite Efs in *.
    pose proof (dimFactor_pow_pos t (S n)) as Hs. fold f s in Hs.
    assert (0 < f ≤ 3 ∧ f = Z.of_nat (Z.to_nat f)) as [Hf Ek]
      by (destruct (dimFactor_cases t); fold f; lia).
    cbn [build].
    destruct (Z.eqb_spec (Z.of_nat (S (S n))) 1) as [?|_]; [lia|].
    fold f.
    replace ((f * s) `quot` f) with s by (rewrite Z.mul_comm, Z.quot_mul; lia).
    match goal with
    | |- ∃ b', for_step ?budget 0 ?bound ?step ?body b = Some b' ∧ _ =>
        destruct (for_step_inv
                    (λ i bk, drawn_blocks t (S n) b H W row col
                               (Z.of_nat i * f) bk)
                    body step bound (Z.to_nat f) budget b)
          as (b' & E & Hall)
    end.
    { done. }
    { by rewrite <- Ek. }
    { unfold INT_MAX. lia. }
    { lia. }
    2:{ by apply drawn_blocks_start. }
    2:{ exists b'. split; [done|]. split; [by destruct Hall|].
        rewrite <- Ek in Hall.
        by apply drawn_blocks_all with (H := H) (W := W). }
    intros i bk Hi Hbk.
    match goal with
    | |- ∃ a', for_step ?budget 0 ?bound ?step ?body bk = Some a' ∧ _ =>
        destruct (for_step_inv
                    (λ j bk', drawn_blocks t (S n) b H W row col
                                (Z.of_nat i * f + Z.of_nat j) bk')
                    body step bound (Z.to_nat f) budget bk)
          as (a' & E & Hrow_done)
    end.
    { done. }
    { by rewrite <- Ek. }
    { unfold INT_MAX. lia. }
    { lia. }
    2:{ by rewrite Z.add_0_r. }
    2:{ exists a'. split; [done|]. rewrite <- Ek in Hrow_done.
        by replace (Z.of_nat (S i) * f) with (Z.of_nat i * f + f) by lia. }
    intros j bk' Hj Hbk'.
    replace (Z.of_nat i * f + Z.of_nat (S j))
      with (Z.of_nat i * f + Z.of_nat j + 1) by lia.
    assert (0 ≤ Z.of_nat i < f) as Hbi by lia.
    assert (0 ≤ Z.of_nat j < f) as Hbj by lia.
    assert (0 ≤ Z.of_nat i * s ∧ Z.of_nat i * s + s ≤ f * s) by nia.
    assert (0 ≤ Z.of_nat j * s ∧ Z.of_nat j * s + s ≤ f * s) by nia.
    rewrite gapCondition_scale by done.
    destruct (gapCondition t (Z.of_nat i) (Z.of_nat j) 1) eqn:Hgap.
    + exists bk'. split; [done|].
      apply drawn_blocks_skip with (bi := Z.of_nat i) (bj := Z.of_nat j);
        try done.
      unfold kept. by rewrite Hgap.
    + pose proof (dim_lt_pow t (S (S n))) as Hdim. fold f in Hdim.
      rewrite Efs in Hdim.
      rewrite !wrap_int_id by lia.
      replace (Z.of_nat (S (S n)) - 1) with (Z.of_nat (S n)) by lia.
      destruct (IH depth bk' (row + Z.of_nat i * s) (col + Z.of_nat j * s))
        as (b' & E & Hb' & Hcell); [lia|by destruct Hbk'|fold f s; lia..| |].
      { fold f s.
        by apply drawn_blocks_blank
             with (b := b) (H := H) (W := W) (bk := bk')
                  (p := Z.of_nat i * f + Z.of_nat j). }
      fold f s in E, Hcell. exists b'. split; [done|].
      apply drawn_blocks_fill
        with (bi := Z.of_nat i) (bj := Z.of_nat j) (bk := bk'); try done.
      unfold kept. by rewrite Hgap.
Qed.

(** ** The constructors *)

Lemma Fractal_new_shape (dim dimFactor : Z) :
  0 ≤ dimFactor ^ dim →
  shape (Fractal_new dim dimFactor) (dimFactor ^ dim) (dimFactor ^ dim).
Proof.
  intros Hp. unfold Fractal_new. split.
  - rewrite length_replicate. lia.
  - apply Forall_replicate. rewrite length_replicate. lia.
Qed.

Lemma Fractal_new_blank (dim dimFactor r c : Z) :
  0 ≤ r < dimFactor ^ dim → 0 ≤ c < dimFactor ^ dim →
  cell (Fractal_new dim dimFactor) r c = Some " "%char.
Proof.
  intros Hr Hc. unfold cell, Fractal_new.
  rewrite lookup_replicate_2 by lia. cbn [mbind option_bind].
  apply lookup_replicate_2. lia.
Qed.

Lemma Fractal_of_spec (t : SupportedTypes) (n depth : nat) :
  dimFactor t ^ Z.of_nat (S n) ≤ INT_MAX → (n + 4 ≤ depth)%nat →
  ∃ board,
    Fractal_of depth t (Z.of_nat (S n)) = Some board
    ∧ shape board (dimFactor t ^ Z.of_nat (S n)) (dimFactor t ^ Z.of_nat (S n))
    ∧ ∀ r c, 0 ≤ r < dimFactor t ^ Z.of_nat (S n) →
             0 ≤ c < dimFactor t ^ Z.of_nat (S n) →
        cell board r c = Some (pixel (pattern t (S n) r c)).
Proof.
  intros Hmax Hdepth.
  pose proof (dimFactor_pow_pos t (S n)) as Hpos.
  set (size := dimFactor t ^ Z.of_nat (S n)) in *.
  pose proof (Fractal_new_shape (Z.of_nat (S n)) (dimFactor t)) as Hshape.
  fold size in Hshape. specialize (Hshape ltac:(lia)).
  unfold Fractal_of.
  destruct Hshape as [Hlen Hrows]. rewrite Hlen.
  unfold INT_MAX in Hmax. rewrite wrap_int_id by lia.
  destruct (build_spec t size size Hmax Hmax n depth
              (Fractal_new (Z.of_nat (S n)) (dimFactor t)) 0 0)
    as (b' & E & Hb' & Hcell); [lia|done|lia|fold size; lia..| |].
  { intros r c [Hr Hc]. fold size in Hr, Hc.
    apply Fractal_new_blank; fold size; lia. }
  fold size in E, Hcell. exists b'. split; [done|]. split; [done|].
  intros r c Hr Hc. rewrite Hcell by lia.
  rewrite bool_decide_true by (unfold in_block; lia).
  by rewrite !Z.sub_0_r.
Qed.

(** X20.  For a dimension [dim >= 1] whose board side
    [dimFactor ^ dim] fits an [int], the constructor of each of the three
    fractals returns, within a budget of [dim + 3], a board of
    [dimFactor ^ dim] rows of [dimFactor ^ dim] characters, and the
    character at row [r] and column [c] is ['#'] exactly when at each of
    the [dim] scales the block that holds the position is not one that
    [gapCondition] skips; every other cell keeps its space. *)
Theorem fractal_board_is_the_pattern (t : SupportedTypes) (dim : Z)
    (depth : nat) :
  1 ≤ dim → dimFactor t ^ dim ≤ INT_MAX → (Z.to_nat dim + 3 ≤ depth)%nat →
  ∃ board,
    Fractal_of depth t dim = Some board
    ∧ shape board (dimFactor t ^ dim) (dimFactor t ^ dim)
    ∧ ∀ r c, 0 ≤ r < dimFactor t ^ dim → 0 ≤ c < dimFactor t ^ dim →
        cell board r c = Some (pixel (pattern t (Z.to_nat dim) r c)).
Proof.
  intros Hdim Hmax Hdepth.
  destruct (Z.to_nat dim) as [|n] eqn:En; [lia|].
  assert (dim = Z.of_nat (S n)) as -> by lia.
  apply Fractal_of_spec; [done|lia].
Qed.

(** X21.  For the dimension 0 no constructor returns: the board has one
    cell, [subSize] is [1 / dimFactor = 0], and the loops of [build] step
    by 0 below the bound 1, whatever the budget. *)
Theorem fractal_of_dimension_zero_diverges (t : SupportedTypes) (depth : nat) :
  Fractal_of depth t 0 = None.
Proof.
  unfold Fractal_of, Fractal_new. rewrite Z.pow_0_r.
  change (wrap_int _) with 1.
  destruct depth as [|depth]; [done|]. cbn [build].
  change (0 =? 1) with false. cbn match.
  assert (1 `quot` dimFactor t = 0) as -> by (by destruct t).
  by apply for_step_stuck.
Qed.

(** X22.  For a negative dimension every constructor returns at once with
    the empty board: [pow] gives a fraction below 1, the board has no
    row, and the loops of [build] have the bound 0. *)
Theorem fractal_of_negative_dimension_is_empty (t : SupportedTypes) (dim : Z)
    (depth : nat) :
  dim < 0 → (0 < depth)%nat → Fractal_of depth t dim = Some [].
Proof.
  intros Hdim Hdepth. unfold Fractal_of, Fractal_new.
  rewrite Z.pow_neg_r by done. cbn [Z.to_nat replicate length].
  change (wrap_int _) with 0.
  destruct depth as [|depth]; [lia|]. cbn [build].
  destruct (Z.eqb_spec dim 1) as [?|_]; [lia|].
  by cbn [for_step].
Qed.

(** X23.  [build] for [dim >= 1] over a blank square of side
    [dimFactor ^ dim] that lies inside the board returns (no row or
    column outside the board is touched), keeps the shape of the board
    and changes no cell outside the square. *)
Theorem build_stays_in_its_square (t : SupportedTypes) (dim H W row col : Z)
    (depth : nat) (board : Board) :
  1 ≤ dim → (Z.to_nat dim + 3 ≤ depth)%nat →
  shape board H W → H ≤ INT_MAX → W ≤ INT_MAX →
  0 ≤ row → row + dimFactor t ^ dim ≤ H →
  0 ≤ col → col + dimFactor t ^ dim ≤ W →
  (∀ r c, in_block row col (dimFactor t ^ dim) r c →
     cell board r c = Some " "%char) →
  ∃ board',
    build depth t dim (dimFactor t ^ dim) row col board = Some board'
    ∧ shape board' H W
    ∧ ∀ r c, 0 ≤ r → 0 ≤ c → ¬ in_block row col (dimFactor t ^ dim) r c →
        cell board' r c = cell board r c.
Proof.
  intros Hdim Hdepth Hshape HH HW Hrow Hrow' Hcol Hcol' Hblank.
  destruct (Z.to_nat dim) as [|n] eqn:En; [lia|].
  assert (dim = Z.of_nat (S n)) as -> by lia.
  destruct (build_spec t H W HH HW n depth board row col)
    as (b' & E & Hb' & Hcell); [lia|done..|].
  exists b'. split; [done|]. split; [done|].
  intros r c Hr Hc Hout. rewrite Hcell by done.
  by rewrite bool_decide_false.
Qed.

(** X24.  The board of dimension [dim + 1] is made of the board of
    dimension [dim]: each of its [dimFactor * dimFactor] blocks of side
    [s = dimFactor ^ dim] is blank where [gapCondition] holds for the
    offsets of the block, and a copy of the board of dimension [dim]
    otherwise. *)
Theorem fractal_is_self_similar (t : SupportedTypes) (dim : Z)
    (depth depth' : nat) :
  1 ≤ dim → dimFactor t ^ (dim + 1) ≤ INT_MAX →
  (Z.to_nat dim + 3 ≤ depth)%nat → (Z.to_nat dim + 4 ≤ depth')%nat →
  ∃ small large,
    Fractal_of depth t dim = Some small
    ∧ Fractal_of depth' t (dim + 1) = Some large
    ∧ ∀ bi bj r c,
        0 ≤ bi < dimFactor t → 0 ≤ bj < dimFactor t →
        0 ≤ r < dimFactor t ^ dim → 0 ≤ c < dimFactor t ^ dim →
        let s := dimFactor t ^ dim in
        cell large (bi * s + r) (bj * s + c) =
          if gapCondition t (bi * s) (bj * s) s then Some " "%char
          else cell small r c.
Proof.
  intros Hdim Hmax Hdepth Hdepth'.
  destruct (Z.to_nat dim) as [|m] eqn:Em; [lia|].
  assert (dim = Z.of_nat (S m)) as -> by lia.
  replace (Z.of_nat (S m) + 1) with (Z.of_nat (S (S m))) in * by lia.
  pose proof (dimFactor_pow_pos t (S m)) as Hs.
  pose proof (dimFactor_pow_S t (S m)) as ES.
  set (f := dimFactor t) in *. set (s := f ^ Z.of_nat (S m)) in *.
  assert (0 < f ≤ 3) as Hf by (destruct (dimFactor_cases t); fold f; lia).
  destruct (Fractal_of_spec t m depth)
    as (small & E1 & _ & Hsmall); [fold f s; nia|lia|].
  destruct (Fractal_of_spec t (S m) depth')
    as (large & E2 & _ & Hlarge); [done|lia|].
  exists small, large. split; [done|]. split; [done|].
  fold f s in Hsmall. fold f in Hlarge. rewrite ES in Hlarge.
  intros bi bj r c Hbi Hbj Hr Hc. cbv zeta.
  assert (0 ≤ bi * s ∧ bi * s + s ≤ f * s) by nia.
  assert (0 ≤ bj * s ∧ bj * s + s ≤ f * s) by nia.
  rewrite Hlarge, Hsmall by lia.
  cbn [pattern]. fold f s.
  assert ((bi * s + r) `div` s = bi) as -> by (apply div_block; lia).
  assert ((bj * s + c) `div` s = bj) as -> by (apply div_block; lia).
  rewrite !mod_block by done.
  assert ((bi * s + r) `div` s = bi) as -> by (apply div_block; lia).
  assert ((bj * s + c) `div` s = bj) as -> by (apply div_block; lia).
  replace (bi * s + r - bi * s) with r by lia.
  replace (bj * s + c - bj * s) with c by lia.
  rewrite gapCondition_scale by done. unfold kept.
  by destruct (gapCondition t bi bj 1).
Qed.


(** ** Instances *)

Lemma fractal_board_is_the_pattern_witness :
  ∃ board,
    Fractal_of 5 VICSEK_FRACTAL 2 = Some board
    ∧ shape board (dimFactor VICSEK_FRACTAL ^ 2) (dimFactor VICSEK_FRACTAL ^ 2)
    ∧ ∀ r c, 0 ≤ r < dimFactor VICSEK_FRACTAL ^ 2 →
             0 ≤ c < dimFactor VICSEK_FRACTAL ^ 2 →
        cell board r c = Some (pixel (pattern VICSEK_FRACTAL (Z.to_nat 2) r c)).
Proof.
  apply (fractal_board_is_the_pattern VICSEK_FRACTAL 2 5);
    [lia|vm_compute; discriminate|simpl; lia].
Defined.

Lemma fractal_of_negative_dimension_is_empty_witness :
  Fractal_of 1 SIERPINSKI_TRIANGLE (-1) = Some [].
Proof.
  apply (fractal_of_negative_dimension_is_empty SIERPINSKI_TRIANGLE (-1) 1);
    lia.
Defined.

Lemma build_stays_in_its_square_witness :
  ∃ board',
    build 5 SIERPINSKI_TRIANGLE 2 (dimFactor SIERPINSKI_TRIANGLE ^ 2) 1 3
      (Fractal_new 2 3) = Some board'
    ∧ shape board' (3 ^ 2) (3 ^ 2)
    ∧ ∀ r c, 0 ≤ r → 0 ≤ c →
        ¬ in_block 1 3 (dimFactor SIERPINSKI_TRIANGLE ^ 2) r c →
        cell board' r c = cell (Fractal_new 2 3) r c.
Proof.
  apply (build_stays_in_its_square SIERPINSKI_TRIANGLE 2 (3 ^ 2) (3 ^ 2) 1 3 5
           (Fractal_new 2 3));
    [lia|simpl; lia|by apply Fractal_new_shape
    |vm_compute; discriminate|vm_compute; discriminate
    |lia|vm_compute; discriminate|lia|vm_compute; discriminate|].
  intros r c [Hr Hc]. apply Fractal_new_blank.
  - change (dimFactor SIERPINSKI_TRIANGLE ^ 2) with 4 in Hr. lia.
  - change (dimFactor SIERPINSKI_TRIANGLE ^ 2) with 4 in Hc. lia.
Defined.

Lemma fractal_is_self_similar_witness :
  ∃ small large,
    Fractal_of 4 SIERPINSKI_CARPET 1 = Some small
    ∧ Fractal_of 5 SIERPINSKI_CARPET (1 + 1) = Some large
    ∧ ∀ bi bj r c,
        0 ≤ bi < dimFactor SIERPINSKI_CARPET →
        0 ≤ bj < dimFactor SIERPINSKI_CARPET →
        0 ≤ r < dimFactor SIERPINSKI_CARPET ^ 1 →
        0 ≤ c < dimFactor SIERPINSKI_CARPET ^ 1 →
        let s := dimFactor SIERPINSKI_CARPET ^ 1 in
        cell large (bi * s + r) (bj * s + c) =
          if gapCondition SIERPINSKI_CARPET (bi * s) (bj * s) s
          then Some " "%char
          else cell small r c.
Proof.
  apply (fractal_is_self_similar SIERPINSKI_CARPET 1 4 5);
    [lia|vm_compute; discriminate|simpl; lia|simpl; lia].
Defined.

End Fractal.

(** * FractalDrawer.cpp: the factory of the fractals

    [fractalFactory] screens the requests of the command file before it
    constructs a fractal.  [invalidInput] ends the program with
    [exit(EXIT_FAILURE)], which is the outcome [Exit_failure]; a stored
    [Fractal*] is the board of the object it points to. *)

Module FractalDrawer.

Import Fractal.

Definition MAX_DIM : Z := 6.
Definition MIN_DIM : Z := 1.

(** The values of the enumerators of [SupportedTypes]. *)
Definition SupportedTypes_of_int (type : Z) : option SupportedTypes :=
  if type =? 1 then Some SIERPINSKI_CARPET
  else if type =? 2 then Some SIERPINSKI_TRIANGLE
  else if type =? 3 then Some VICSEK_FRACTAL
  else None.

Inductive outcome (A : Type) : Type :=
  | Exit_failure
  | Returned (a : A).
Arguments Exit_failure {A}.
Arguments Returned {A} a.

Definition fractalFactory (depth : nat) (type dim : Z)
    (outVec : list Board)
  : option (outcome (list Board)) :=
  if (dim <? MIN_DIM) || (dim >? MAX_DIM) then Some Exit_failure
  else
    match SupportedTypes_of_int type with
    | Some t =>
        board ← Fractal_of depth t dim;
        Some (Returned (outVec ++ [board]))
    | None => Some Exit_failure
    end.

Lemma accepted_side (t : SupportedTypes) (dim : Z) :
  MIN_DIM ≤ dim ≤ MAX_DIM → dimFactor t ^ dim ≤ 729.
Proof.
  unfold MIN_DIM, MAX_DIM. intros Hdim.
  assert (dim = 1 ∨ dim = 2 ∨ dim = 3 ∨ dim = 4 ∨ dim = 5 ∨ dim = 6)
    as [->|[->|[->|[->|[->| ->]]]]] by lia;
    destruct t; vm_compute; discriminate.
Qed.

(** X25.  [fractalFactory] always returns or exits, within a budget of
    9: a request with a type outside 1..3 or a dimension outside 1..6
    exits with failure and constructs nothing; every other request
    appends one board to the vector, of side [dimFactor ^ dim] (at most
    729), which carries the pattern of the fractal.  The dimensions for
    which a constructor does not return never reach it. *)
Theorem fractalFactory_screens_the_requests (depth : nat) (type dim : Z)
    (outVec : list Board) :
  (9 ≤ depth)%nat →
  (¬ (1 ≤ type ≤ 3 ∧ MIN_DIM ≤ dim ≤ MAX_DIM) →
     fractalFactory depth type dim outVec = Some Exit_failure)
  ∧ (1 ≤ type ≤ 3 → MIN_DIM ≤ dim ≤ MAX_DIM →
     ∃ t board,
       SupportedTypes_of_int type = Some t
       ∧ fractalFactory depth type dim outVec = Some (Returned (outVec ++ [board]))
       ∧ shape board (dimFactor t ^ dim) (dimFactor t ^ dim)
       ∧ dimFactor t ^ dim ≤ 729
       ∧ ∀ r c, 0 ≤ r < dimFactor t ^ dim → 0 ≤ c < dimFactor t ^ dim →
           cell board r c = Some (pixel (pattern t (Z.to_nat dim) r c))).
Proof.
  intros Hdepth. unfold fractalFactory. split.
  - intros Hbad.
    destruct (Z.ltb_spec dim MIN_DIM) as [?|Hmin]; [done|].
    destruct (Z.gtb_spec dim MAX_DIM) as [?|Hmax]; [done|].
    cbn [orb]. unfold SupportedTypes_of_int.
    destruct (Z.eqb_spec type 1) as [?|?]; [lia|].
    destruct (Z.eqb_spec type 2) as [?|?]; [lia|].
    destruct (Z.eqb_spec type 3) as [?|?]; [lia|done].
  - intros Htype Hdim.
    destruct (Z.ltb_spec dim MIN_DIM) as [?|_]; [lia|].
    destruct (Z.gtb_spec dim MAX_DIM) as [?|_]; [lia|].
    cbn [orb].
    assert (∃ t, SupportedTypes_of_int type = Some t) as [t Et].
    { assert (type = 1 ∨ type = 2 ∨ type = 3) as [->|[->| ->]] by lia;
        by eexists. }
    rewrite Et. pose proof (accepted_side t dim Hdim) as Hside.
    unfold MIN_DIM, MAX_DIM in Hdim.
    destruct (Z.to_nat dim) as [|n] eqn:En; [lia|].
    assert (dim = Z.of_nat (S n)) as Edim by lia. rewrite Edim in *.
    destruct (Fractal_of_spec t n depth) as (board & -> & Hshape & Hcell);
      [unfold INT_MAX; lia|lia|].
    exists t, board. by cbn [mbind option_bind].
Qed.

Lemma fractalFactory_screens_the_requests_witness :
  (¬ (1 ≤ 3 ≤ 3 ∧ MIN_DIM ≤ 2 ≤ MAX_DIM) →
     fractalFactory 9 3 2 [] = Some Exit_failure)
  ∧ (1 ≤ 3 ≤ 3 → MIN_DIM ≤ 2 ≤ MAX_DIM →
     ∃ t board,
       SupportedTypes_of_int 3 = Some t
       ∧ fractalFactory 9 3 2 [] = Some (Returned ([] ++ [board]))
       ∧ shape board (dimFactor t ^ 2) (dimFactor t ^ 2)
       ∧ dimFactor t ^ 2 ≤ 729
       ∧ ∀ r c, 0 ≤ r < dimFactor t ^ 2 → 0 ≤ c < dimFactor t ^ 2 →
           cell board r c = Some (pixel (pattern t (Z.to_nat 2) r c))).
Proof. apply (fractalFactory_screens_the_requests 9 3 2 []). lia. Defined.

End FractalDrawer.
